(** * Salesforce data transfer engine: a shallow embedding of
      [src/salesforce/dataTransferService.ts]

    The development follows the TypeScript source function by function.
    JavaScript values are an inductive type, records are ordered
    association lists (own enumerable properties in insertion order), the
    identifier map is a finite map, and the asynchronous, exception-throwing
    engine is a state-and-exception monad over an abstract remote world
    that answers the REST client's calls and logs them.

    Conventions of the embedding:
    - what the remote API returns is typed as the Salesforce REST API
      documents it (a describe result with its field list, the records of a
      query, the save results of a create); field values, ids and error
      payloads stay dynamic [jsval]s, since the engine tests them with
      [typeof] and truthiness;
    - numbers are integers and [batchSize] is a natural number;
    - an object is its own properties: the keys the engine looks up
      (field names, sObject names, record ids) are no property of
      [Object.prototype];
    - a loop over slices of an array is given as the list of slices it
      visits, with as many rounds as the array has elements. *)

From Stdlib Require Import ZArith Ascii String List Lia.
From stdpp Require Import base tactics option list gmap strings pretty.

Set Warnings "-register-all".

Local Open Scope string_scope.
Local Open Scope Z_scope.

(** ** Strings

    A JavaScript string is modelled as a Rocq [string] whose characters are
    the code units 0..255. *)
Module Js.

(** [s.endsWith(suf)] *)
Fixpoint endsWith (s suf : string) : bool :=
  String.eqb s suf ||
  match s with
  | EmptyString => false
  | String _ s' => endsWith s' suf
  end.

(** [s.startsWith(p)] *)
Definition startsWith (s p : string) : bool := String.prefix p s.

(** [s.includes(sub)] *)
Fixpoint includes (s sub : string) : bool :=
  String.prefix sub s ||
  match s with
  | EmptyString => false
  | String _ s' => includes s' sub
  end.

(** [arr.includes(x)] on an array of strings *)
Definition arrayIncludes (l : list string) (x : string) : bool :=
  existsb (String.eqb x) l.

(** [arr.join(sep)] on an array of strings *)
Definition join (sep : string) (l : list string) : string := String.concat sep l.

Definition isUpper (c : ascii) : bool :=
  let n := nat_of_ascii c in (65 <=? n)%nat && (n <=? 90)%nat.
Definition isLower (c : ascii) : bool :=
  let n := nat_of_ascii c in (97 <=? n)%nat && (n <=? 122)%nat.
Definition isDigit (c : ascii) : bool :=
  let n := nat_of_ascii c in (48 <=? n)%nat && (n <=? 57)%nat.

(** The regular-expression class [\w], which is also [[a-zA-Z0-9_]]. *)
Definition isWordChar (c : ascii) : bool :=
  isUpper c || isLower c || isDigit c || Ascii.eqb c "_".

(** The regular-expression class [\s] and the characters [trim] strips,
    among the code units below 256: tab, line feed, vertical tab, form feed,
    carriage return, space and the no-break space. *)
Definition isSpace (c : ascii) : bool :=
  let n := nat_of_ascii c in
  ((9 <=? n)%nat && (n <=? 13)%nat) || (n =? 32)%nat || (n =? 160)%nat.

(** Simple case folding of one code unit, as the [i] flag compares. *)
Definition toLowerChar (c : ascii) : ascii :=
  if isUpper c then ascii_of_nat (nat_of_ascii c + 32) else c.

Fixpoint toLowerCase (s : string) : string :=
  match s with
  | EmptyString => EmptyString
  | String c s' => String (toLowerChar c) (toLowerCase s')
  end.

Fixpoint trimStart (s : string) : string :=
  match s with
  | String c s' => if isSpace c then trimStart s' else s
  | EmptyString => EmptyString
  end.

(** [s.trim()] *)
Definition trim (s : string) : string :=
  String.rev (trimStart (String.rev (trimStart s))).

(** The longest prefix of word characters and what follows it. *)
Fixpoint spanWord (s : string) : string * string :=
  match s with
  | String c s' =>
      if isWordChar c then let '(w, r) := spanWord s' in (String c w, r)
      else (EmptyString, s)
  | EmptyString => (EmptyString, EmptyString)
  end.

Fixpoint dropSpaces (s : string) : string :=
  match s with
  | String c s' => if isSpace c then dropSpaces s' else s
  | EmptyString => EmptyString
  end.

(** [s.split(':')[0]]: the part of [s] before its first colon. *)
Fixpoint beforeColon (s : string) : string :=
  match s with
  | String c s' => if Ascii.eqb c ":" then EmptyString else String c (beforeColon s')
  | EmptyString => EmptyString
  end.

Fixpoint dropString (n : nat) (s : string) : string :=
  match n, s with
  | S n', String _ s' => dropString n' s'
  | _, _ => s
  end.

End Js.

(** ** JavaScript values *)

(** The values the engine inspects dynamically ([typeof], truthiness,
    [Array.isArray], [instanceof Error]).  Numbers are the integers; an
    [Error] carries its [name] and [message]; an object lists its own
    enumerable properties in insertion order. *)
Inductive jsval : Type :=
| JUndefined
| JNull
| JBool (b : bool)
| JNum (n : Z)
| JStr (s : string)
| JError (name message : string)
| JArr (elems : list jsval)
| JObj (props : list (string * jsval)).

(** A record (an sObject row, a request payload): field name to value. *)
Abbreviation jsobj := (list (string * jsval)).

Definition truthy (v : jsval) : bool :=
  match v with
  | JUndefined | JNull => false
  | JBool b => b
  | JNum n => negb (n =? 0)
  | JStr s => negb (String.eqb s "")
  | JError _ _ | JArr _ | JObj _ => true
  end.

Definition isString (v : jsval) : bool :=
  match v with JStr _ => true | _ => false end.

(** [Error.prototype.toString] *)
Definition errorToString (name message : string) : string :=
  if String.eqb name "" then message
  else if String.eqb message "" then name
  else name +:+ ": " +:+ message.

(** [String(v)], which is also what a template literal and a property key
    apply to [v]. *)
Fixpoint js_String (v : jsval) : string :=
  match v with
  | JUndefined => "undefined"
  | JNull => "null"
  | JBool true => "true"
  | JBool false => "false"
  | JNum n => pretty n
  | JStr s => s
  | JError name message => errorToString name message
  | JArr elems =>
      Js.join "," (map (fun e => match e with
                                 | JUndefined | JNull => ""
                                 | _ => js_String e
                                 end) elems)
  | JObj _ => "[object Object]"
  end.

(** [arr.join(sep)] on an array of arbitrary values *)
Definition js_join (sep : string) (elems : list jsval) : string :=
  Js.join sep (map (fun e => match e with
                             | JUndefined | JNull => ""
                             | _ => js_String e
                             end) elems).

(** *** Objects as ordered property lists *)

(** [o[k]], [undefined] when [k] is not an own property. *)
Fixpoint getProp (o : jsobj) (k : string) : option jsval :=
  match o with
  | [] => None
  | (k', v) :: o' => if String.eqb k' k then Some v else getProp o' k
  end.

Definition getPropOr (o : jsobj) (k : string) : jsval :=
  default JUndefined (getProp o k).

(** [o.hasOwnProperty(k)] *)
Definition hasOwnProperty (o : jsobj) (k : string) : bool :=
  bool_decide (is_Some (getProp o k)).

(** [delete o[k]] *)
Definition deleteProp (o : jsobj) (k : string) : jsobj :=
  List.filter (fun p => negb (String.eqb (fst p) k)) o.

(** [o[k] = v]: overwrite in place, or append a new property. *)
Fixpoint setProp (o : jsobj) (k : string) (v : jsval) : jsobj :=
  match o with
  | [] => [(k, v)]
  | (k', v') :: o' =>
      if String.eqb k' k then (k, v) :: o' else (k', v') :: setProp o' k v
  end.

(** [Object.keys(o)] *)
Definition objectKeys (o : jsobj) : list string := map fst o.

(** ** RecordSanitizer: [removeSystemFields] *)

(** System fields that are automatically managed by Salesforce. *)
Definition systemFields : list string :=
  [ "Id"; "attributes"; "CreatedDate"; "CreatedById"; "LastModifiedDate";
    "LastModifiedById"; "SystemModstamp"; "LastActivityDate"; "LastViewedDate";
    "LastReferencedDate"; "Owner"; "IsDeleted"; "MasterRecordId";
    "ConnectionReceivedId"; "ConnectionSentId"; "PhotoUrl" ]%string.

Definition systemTimestamps : list string :=
  [ "LastLoginDate"; "LastPasswordChangeDate"; "EmailBouncedDate" ]%string.

(** [key.match(/(Date|Time)$/i)] *)
Definition matchesDateTime (key : string) : bool :=
  Js.endsWith (Js.toLowerCase key) "date" || Js.endsWith (Js.toLowerCase key) "time".

(** First loop: [systemFields.forEach(field => if (record.hasOwnProperty(field)) delete record[field])] *)
Definition removeListed (record : jsobj) : jsobj :=
  foldl (fun r field => if hasOwnProperty r field then deleteProp r field else r)
        record systemFields.

(** Second loop, over the keys the record has when the loop starts. *)
Definition removePersonFields (record : jsobj) : jsobj :=
  foldl (fun r key => if Js.endsWith key "__pc" then deleteProp r key else r)
        record (objectKeys record).

(** Third loop: fields that look like system timestamps. *)
Definition removeTimestamps (record : jsobj) : jsobj :=
  foldl (fun r key =>
           if matchesDateTime key && isString (getPropOr r key)
           then (if Js.arrayIncludes systemTimestamps key then deleteProp r key else r)
           else r)
        record (objectKeys record).

(** The source mutates [record] in place and returns nothing; the embedding
    returns the record as it stands after the three loops. *)
Definition removeSystemFields (record : jsobj) : jsobj :=
  removeTimestamps (removePersonFields (removeListed record)).

(** The cleaning step both transfer loops apply to a batch element:
    [const cleaned = { ...record }; this.removeSystemFields(cleaned)]. *)
Definition cleanRecord (record : jsobj) : jsobj := removeSystemFields record.

(** ** SchemaInspector: field descriptors and [isInsertableField] *)

(** One entry of [describe(...).fields], with the properties the engine
    reads.  [relationshipName] is [None] for JavaScript's [null]. *)
Record Field : Type := mkField {
  field_name : string;
  field_type : string;
  field_createable : bool;
  field_updateable : bool;
  field_calculated : bool;
  field_autoNumber : bool;
  field_externalId : bool;
  field_referenceTo : list string;
  field_relationshipName : option string
}.

Record DescribeResult : Type := mkDescribe { fields : list Field }.

(** System fields that should never be queried for insert. *)
Definition systemFieldNames : list string :=
  [ "Owner"; "CreatedDate"; "CreatedById"; "LastModifiedDate"; "LastModifiedById";
    "SystemModstamp"; "LastActivityDate"; "LastViewedDate"; "LastReferencedDate";
    "IsDeleted"; "MasterRecordId"; "PhotoUrl" ]%string.

Definition isInsertableField (field : Field) : bool :=
  if Js.arrayIncludes systemFieldNames (field_name field) then false
  else if Js.endsWith (field_name field) "__pc" then false
  else if field_calculated field then false
  else if String.eqb (field_type field) "formula" then false
  else true.

(** [f.type === 'reference' && Array.isArray(f.referenceTo) && f.referenceTo.length > 0] *)
Definition isReferenceField (f : Field) : bool :=
  String.eqb (field_type f) "reference" &&
  negb (bool_decide (field_referenceTo f = [])).

Definition referenceFieldsOf (metadata : DescribeResult) : list Field :=
  List.filter isReferenceField (fields metadata).

(** ** Transfer configuration and result *)

Inductive TransferMode : Type := Insert | Upsert.

Record SalesforceOrg : Type := mkOrg {
  org_instanceUrl : string;
  org_accessToken : option string
}.

(** [batchSize] is a non-negative integer (the panel parses it from a number
    input); [transferMode] is [None] when the caller left it out. *)
Record DataTransferOptions : Type := mkOptions {
  sourceOrg : SalesforceOrg;
  targetOrg : SalesforceOrg;
  objectTypes : option (list string);
  includeRelationships : bool;
  batchSize : nat;
  recordLimits : option (gmap string Z);
  customQuery : option string;
  externalIdMapping : option (gmap string string);
  transferMode : option TransferMode
}.

Record TransferResult : Type := mkResult {
  success : bool;
  recordsTransferred : nat;
  errors : list string
}.

(** ** The REST client's calls and the remote systems *)

Record SalesforceRestClient : Type := mkClient {
  instanceUrl : string;
  accessToken : string;
  apiVersion : string
}.

(** [new SalesforceRestClient(instanceUrl, accessToken)] *)
Definition newClient (url token : string) : SalesforceRestClient :=
  {| instanceUrl := if Js.endsWith url "/"
                    then String.substring 0 (String.length url - 1) url else url;
     accessToken := token;
     apiVersion := "59.0" |}.

(** One element of a create response. *)
Record SaveResult : Type := mkSave {
  save_success : bool;
  save_id : jsval;
  save_errors : jsval
}.

(** What [create] resolves to: the single-record endpoint answers with one
    object, the composite endpoint with an array.  The engine tells them
    apart with [Array.isArray]. *)
Inductive CreateResponse : Type :=
| RespSingle (r : SaveResult)
| RespArray (rs : list SaveResult).

(** The request [create] sends: one record posted to [/sobjects/<type>/], or
    a composite request with [allOrNone] and the records, each carrying
    [attributes: { type }]. *)
Inductive CreateRequest : Type :=
| PostSObject (sobjectType : string) (body : jsobj)
| PostComposite (allOrNone : bool) (records : list jsobj).

(** [{ attributes: { type: sobjectType }, ...record }] *)
Definition withAttributes (sobjectType : string) (record : jsobj) : jsobj :=
  foldl (fun o p => setProp o (fst p) (snd p))
        [("attributes", JObj [("type", JStr sobjectType)])] record.

Definition createRequest (sobjectType : string) (records : list jsobj) : CreateRequest :=
  match records with
  | [r] => PostSObject sobjectType r
  | _ => PostComposite false (map (withAttributes sobjectType) records)
  end.

Inductive Outcome (A : Type) : Type :=
| Ok (a : A)
| Throw (e : jsval).
Arguments Ok {A} a.
Arguments Throw {A} e.

Inductive Side : Type := Source | Target.

(** A call the engine issued, with what it got back. *)
Inductive Event : Type :=
| EvIdentity (side : Side) (r : Outcome unit)
| EvDescribe (side : Side) (sobjectType : string) (r : Outcome DescribeResult)
| EvQuery (side : Side) (soql : string) (r : Outcome (list jsobj))
| EvCreate (side : Side) (sobjectType : string) (records : list jsobj)
           (r : Outcome CreateResponse).

(** The two remote systems: a state and an answer to each client call.  A
    rejected request (a non-2xx status, a network failure) is a [Throw]. *)
Record RemoteApi (World : Type) : Type := mkRemote {
  remote_identity : SalesforceRestClient -> World -> World * Outcome unit;
  remote_describe : SalesforceRestClient -> string -> World -> World * Outcome DescribeResult;
  remote_query : SalesforceRestClient -> string -> World -> World * Outcome (list jsobj);
  remote_create : SalesforceRestClient -> CreateRequest -> World -> World * Outcome CreateResponse
}.
Arguments remote_identity {World} _ _ _.
Arguments remote_describe {World} _ _ _ _.
Arguments remote_query {World} _ _ _ _.
Arguments remote_create {World} _ _ _ _.

(** The state a run threads: the remote world, the log of calls, the two
    connection slots of the service, the [result] object every helper
    pushes into, and the [sourceToTargetId] object the parent handlers
    fill in place. *)
Record EngineState (World : Type) : Type := mkState {
  world : World;
  trace : list Event;
  sourceConn : option SalesforceRestClient;
  targetConn : option SalesforceRestClient;
  result : TransferResult;
  idMapping : gmap string jsval
}.
Arguments mkState {World} _ _ _ _ _ _.
Arguments world {World} _.
Arguments trace {World} _.
Arguments sourceConn {World} _.
Arguments targetConn {World} _.
Arguments result {World} _.
Arguments idMapping {World} _.

Definition isTargetCreate (e : Event) : bool :=
  match e with EvCreate Target _ _ _ => true | _ => false end.

Definition isCreate (e : Event) : bool :=
  match e with EvCreate _ _ _ _ => true | _ => false end.

Definition isQuery (e : Event) : bool :=
  match e with EvQuery _ _ _ => true | _ => false end.

(** ** Extractor: [parseFromObject] *)

(** One attempt of [/FROM\s+([a-zA-Z0-9_]+)\b/i] at the start of [s].  Both
    quantifiers are greedy; giving back white space never helps (the next
    character would still be white space), and the closing [\b] holds at the
    end of the longest run of word characters. *)
Definition matchFromHere (s : string) : option string :=
  if String.eqb (Js.toLowerCase (String.substring 0 4 s)) "from" then
    let r := Js.dropString 4 s in
    let r' := Js.dropSpaces r in
    if (String.length r' <? String.length r)%nat then
      let '(w, _) := Js.spanWord r' in
      if String.eqb w "" then None else Some w
    else None
  else None.

(** The scan for the leftmost match; [prevWord] tells whether the character
    before the current position is a word character, which decides the
    leading [\b]. *)
Fixpoint scanFrom (prevWord : bool) (s : string) : option string :=
  match s with
  | EmptyString => None
  | String c s' =>
      match (if prevWord then None else matchFromHere s) with
      | Some w => Some w
      | None => scanFrom (Js.isWordChar c) s'
      end
  end.

(** [const m = /\bFROM\s+([a-zA-Z0-9_]+)\b/i.exec(soql); return m ? m[1] : null] *)
Definition parseFromObject (soql : string) : option string := scanFrom false soql.

(** ** ErrorAggregator: [stringifyErrors] *)

Definition fieldNameProvided : string := ": Field name provided".

(** One attempt of [/(\w+__c): Field name provided/] at the start of [s]:
    the matched text and what follows it.  The colon is no word character,
    so [__c] has to end the longest run of word characters, and [\w+] needs
    one more character before it. *)
Definition matchFieldHere (s : string) : option (string * string) :=
  let '(w, r) := Js.spanWord s in
  if (4 <=? String.length w)%nat && Js.endsWith w "__c" && Js.startsWith r fieldNameProvided
  then Some (w +:+ fieldNameProvided, Js.dropString (String.length fieldNameProvided) r)
  else None.

(** [cleanMessage.match(/(\w+__c): Field name provided/g)]: every match, left
    to right, each search resuming where the previous match ended. *)
Fixpoint matchAllFields (fuel : nat) (s : string) : list string :=
  match fuel with
  | O => []
  | S fuel' =>
      match matchFieldHere s with
      | Some (m, rest) => m :: matchAllFields fuel' rest
      | None =>
          match s with
          | String _ s' => matchAllFields fuel' s'
          | EmptyString => []
          end
      end
  end.

Definition fieldMatchesOf (s : string) : list string :=
  matchAllFields (S (String.length s)) s.

(** Clean up repetitive Salesforce errors. *)
Definition cleanFieldMessage (cleanMessage : string) : string :=
  if Js.includes cleanMessage "Field name provided" && (200 <? String.length cleanMessage)%nat
  then
    let fieldMatches := fieldMatchesOf cleanMessage in
    if (1 <? length fieldMatches)%nat then
      let affectedFields := Js.join ", " (map Js.beforeColon fieldMatches) in
      "Multiple fields have External ID/indexing issues: " +:+ affectedFields
        +:+ ". Check field configurations."
    else cleanMessage
  else cleanMessage.

(** [[...new Set(errors)]]: the first occurrence of each string, in order. *)
Fixpoint uniqueFrom (seen : list string) (l : list string) : list string :=
  match l with
  | [] => []
  | x :: l' =>
      if Js.arrayIncludes seen x then uniqueFrom seen l'
      else x :: uniqueFrom (x :: seen) l'
  end.

Definition unique (l : list string) : list string := uniqueFrom [] l.

(** [.filter(Boolean)] on an array of strings *)
Definition nonEmpty (s : string) : bool := negb (String.eqb s "").

Section Aggregator.

(** [JSON.stringify], the platform's serializer, on an object. *)
Variable JSON_stringify : jsval -> string.

Definition stringifyObject (props : jsobj) : string :=
  let message := getPropOr props "message" in
  let status :=
    if truthy (getPropOr props "statusCode") then getPropOr props "statusCode"
    else getPropOr props "status" in
  let fields := getPropOr props "fields" in
  let pieces :=
    ((if truthy message then [cleanFieldMessage (js_String message)] else [])
     ++ (if truthy status then ["code=" +:+ js_String status] else [])
     ++ (match fields with
         | JArr ((_ :: _) as fs) => ["fields=" +:+ js_join "," fs]
         | _ => []
         end))%list in
  match pieces with
  | [] => JSON_stringify (JObj props)
  | _ => Js.join " " pieces
  end.

(** The array branch, given the stringified elements. *)
Definition consolidate (strs : list string) : string :=
  let errors := List.filter nonEmpty strs in
  let uniqueErrors := unique errors in
  if (length uniqueErrors =? 1)%nat && (1 <? length errors)%nat
  then hd "" uniqueErrors +:+ " (occurred " +:+ pretty (length errors) +:+ " times)"
  else Js.join "; " uniqueErrors.

Fixpoint stringifyErrors (err : jsval) : string :=
  match err with
  | JStr s => s
  | JError _ message => message
  | JArr elems => consolidate (map stringifyErrors elems)
  | JObj props => stringifyObject props
  | JUndefined | JNull | JBool _ | JNum _ => js_String err
  end.

(** [`${objectType}: ${errStr || 'Unknown error'}`] *)
Definition recordError (objectType : string) (errs : jsval) : string :=
  let errStr := stringifyErrors errs in
  objectType +:+ ": " +:+ (if nonEmpty errStr then errStr else "Unknown error").

End Aggregator.

(** ** Loops over slices

    [for (let i = 0; i < xs.length; i += size) { xs.slice(i, i + size) ... }]:
    the slices the loop visits, in order.  The array is not changed while
    the loop runs.  [fuel] bounds the number of rounds; [length xs] rounds
    are enough for every [size >= 1], and the engine only uses the batch
    size after [|| 200] and the constant 1000. *)
Fixpoint slicesFrom {A : Type} (fuel i size : nat) (xs : list A) : list (list A) :=
  match fuel with
  | O => []
  | S fuel' =>
      if (i <? length xs)%nat
      then take size (drop i xs) :: slicesFrom fuel' (i + size) size xs
      else []
  end.

Definition slices {A : Type} (size : nat) (xs : list A) : list (list A) :=
  slicesFrom (length xs) 0 size xs.

(** ** The engine monad: state, call log and exceptions *)

Section Engine.

Context {World : Type}.
Variable JSON_stringify : jsval -> string.
Variable remote : RemoteApi World.

Definition M (A : Type) : Type :=
  EngineState World -> EngineState World * Outcome A.

Definition ret {A : Type} (a : A) : M A := fun s => (s, Ok a).

Definition bind {A B : Type} (m : M A) (k : A -> M B) : M B :=
  fun s =>
    match m s with
    | (s', Ok a) => k a s'
    | (s', Throw e) => (s', Throw e)
    end.

Definition throw {A : Type} (e : jsval) : M A := fun s => (s, Throw e).

(** [try { body } catch (error) { handler }]: what [body] did to the state
    before it threw stays done. *)
Definition tryCatch {A : Type} (body : M A) (handler : jsval -> M A) : M A :=
  fun s =>
    match body s with
    | (s', Ok a) => (s', Ok a)
    | (s', Throw e) => handler e s'
    end.

Notation "x <- m ;; k" := (bind m (fun x => k))
  (at level 100, m at next level, right associativity).
Notation "m ;; k" := (bind m (fun _ => k))
  (at level 100, right associativity).

Fixpoint forEach {A : Type} (xs : list A) (body : A -> M unit) : M unit :=
  match xs with
  | [] => ret tt
  | x :: xs' => body x ;; forEach xs' body
  end.

(** [new Error(message)] *)
Definition newError (message : string) : jsval := JError "Error" message.

(** The [TypeError] raised by reading a property of [undefined]. *)
Definition undefinedRead (prop : string) : jsval :=
  JError "TypeError"
    ("Cannot read properties of undefined (reading '" +:+ prop +:+ "')").

(** *** The [result] object and the [sourceToTargetId] object *)

Definition withResult (f : TransferResult -> TransferResult) : M unit :=
  fun s => (mkState (world s) (trace s) (sourceConn s) (targetConn s)
                    (f (result s)) (idMapping s), Ok tt).

(** [result.errors.push(msg)] *)
Definition pushError (msg : string) : M unit :=
  withResult (fun r => mkResult (success r) (recordsTransferred r) (errors r ++ [msg])%list).

(** [result.recordsTransferred += n] *)
Definition addTransferred (n : nat) : M unit :=
  withResult (fun r => mkResult (success r) (recordsTransferred r + n)%nat (errors r)).

(** [result.success = result.errors.length === 0] *)
Definition setSuccess : M unit :=
  withResult (fun r => mkResult (bool_decide (errors r = [])) (recordsTransferred r) (errors r)).

Definition getResult : M TransferResult := fun s => (s, Ok (result s)).

Definition withMapping (f : gmap string jsval -> gmap string jsval) : M unit :=
  fun s => (mkState (world s) (trace s) (sourceConn s) (targetConn s)
                    (result s) (f (idMapping s)), Ok tt).

(** [idMapping[key] = value]; the key is converted to a string. *)
Definition setMapping (key value : jsval) : M unit :=
  withMapping (fun m => <[js_String key := value]> m).

Definition getMapping : M (gmap string jsval) := fun s => (s, Ok (idMapping s)).

(** *** [SalesforceRestClient]: each method is one request, logged with its
    answer *)

Definition logged {A : Type} (run : World -> World * Outcome A)
    (event : Outcome A -> Event) : M A :=
  fun s =>
    let '(w, r) := run (world s) in
    (mkState w (trace s ++ [event r])%list (sourceConn s) (targetConn s)
             (result s) (idMapping s), r).

Definition identity (side : Side) (conn : SalesforceRestClient) : M unit :=
  logged (remote_identity remote conn) (EvIdentity side).

Definition describe (side : Side) (conn : SalesforceRestClient)
    (sobjectType : string) : M DescribeResult :=
  logged (remote_describe remote conn sobjectType) (EvDescribe side sobjectType).

Definition query (side : Side) (conn : SalesforceRestClient) (soql : string)
    : M (list jsobj) :=
  logged (remote_query remote conn soql) (EvQuery side soql).

Definition create (side : Side) (conn : SalesforceRestClient)
    (sobjectType : string) (records : list jsobj) : M CreateResponse :=
  logged (remote_create remote conn (createRequest sobjectType records))
         (EvCreate side sobjectType records).

(** *** [initializeConnections] *)

Definition tokenPresent (org : SalesforceOrg) : bool :=
  match org_accessToken org with
  | Some t => nonEmpty t
  | None => false
  end.

Definition setSourceConn (c : SalesforceRestClient) : M unit :=
  fun s => (mkState (world s) (trace s) (Some c) (targetConn s)
                    (result s) (idMapping s), Ok tt).

Definition setTargetConn (c : SalesforceRestClient) : M unit :=
  fun s => (mkState (world s) (trace s) (sourceConn s) (Some c)
                    (result s) (idMapping s), Ok tt).

Definition initializeConnections (sourceOrg targetOrg : SalesforceOrg) : M unit :=
  tryCatch
    (if tokenPresent sourceOrg && tokenPresent targetOrg then
       let src := newClient (org_instanceUrl sourceOrg)
                            (default "" (org_accessToken sourceOrg)) in
       let tgt := newClient (org_instanceUrl targetOrg)
                            (default "" (org_accessToken targetOrg)) in
       setSourceConn src ;;
       setTargetConn tgt ;;
       identity Source src ;;
       identity Target tgt
     else throw (newError "Access tokens are required for both source and target orgs"))
    (fun error =>
       throw (newError ("Failed to initialize Salesforce connections: " +:+ js_String error))).

(** ** RelationshipResolver *)

(** [parentIdsByObject[parentObject] = parentIdsByObject[parentObject] || new Set();
     parentIdsByObject[parentObject].add(parentId)]: an object whose keys
    keep their insertion order, each with a set that keeps its own. *)
Fixpoint addParentId (acc : list (string * list string))
    (parentObject parentId : string) : list (string * list string) :=
  match acc with
  | [] => [(parentObject, [parentId])]
  | (k, ids) :: acc' =>
      if String.eqb k parentObject
      then (k, if Js.arrayIncludes ids parentId then ids else (ids ++ [parentId])%list) :: acc'
      else (k, ids) :: addParentId acc' parentObject parentId
  end.

(** Collect all parent IDs from reference fields. *)
Definition collectParentIds (referenceFields : list Field) (batch : list jsobj)
    : list (string * list string) :=
  foldl (fun acc rec =>
           foldl (fun acc ref =>
                    let parentObject := hd "" (field_referenceTo ref) in
                    match getPropOr rec (field_name ref) with
                    | JStr parentId =>
                        if nonEmpty parentId && nonEmpty parentObject
                        then addParentId acc parentObject parentId
                        else acc
                    | _ => acc
                    end)
                 acc referenceFields)
        [] batch.

(** [chunk.map(id => `'${id}'`).join(', ')] *)
Definition quotedIds (chunk : list string) : string :=
  Js.join ", " (map (fun id => "'" +:+ id +:+ "'") chunk).

(** [String(v).replace(/'/g, "\\'")] *)
Fixpoint escapeQuotes (s : string) : string :=
  match s with
  | EmptyString => EmptyString
  | String c s' =>
      if Ascii.eqb c "'" then String "\" (String "'" (escapeQuotes s'))
      else String c (escapeQuotes s')
  end.

(** The chunked fetch both parent handlers run against the source:
    [if (resp?.records?.length) parentRecords.push(...resp.records)]. *)
Fixpoint fetchChunks (src : SalesforceRestClient) (soqlOf : list string -> string)
    (chunks : list (list string)) (parentRecords : list jsobj) : M (list jsobj) :=
  match chunks with
  | [] => ret parentRecords
  | chunk :: chunks' =>
      resp <- query Source src (soqlOf chunk) ;;
      fetchChunks src soqlOf chunks' (parentRecords ++ resp)%list
  end.

(** Clean and prepare a parent record for insert: system fields go, and so
    does every key that names a reference field of the parent's schema. *)
Definition cleanParent (parentDescribe : DescribeResult) (record : jsobj) : jsobj :=
  let clean := removeSystemFields record in
  foldl (fun c key =>
           match List.find (fun f => String.eqb (field_name f) key) (fields parentDescribe) with
           | Some field => if String.eqb (field_type field) "reference" then deleteProp c key else c
           | None => c
           end)
        clean (objectKeys clean).

Definition parentInsertableFields (parentDescribe : DescribeResult) : list string :=
  map field_name
      (List.filter (fun f => field_createable f && negb (field_autoNumber f)
                             && negb (String.eqb (field_name f) "Id")
                             && isInsertableField f)
                   (fields parentDescribe)).

(** The loop over [insertResult] of [handleInsertModeParents], from index
    [i] on. *)
Fixpoint mapInserted (parentObject : string) (parentRecords : list jsobj)
    (i : nat) (insertResult : list SaveResult) : M unit :=
  match insertResult with
  | [] => ret tt
  | insertedRecord :: rest =>
      (if save_success insertedRecord && truthy (save_id insertedRecord) then
         match parentRecords !! i with
         | Some originalRecord =>
             setMapping (getPropOr originalRecord "Id") (save_id insertedRecord)
         | None => throw (undefinedRead "Id")
         end
       else
         pushError ("Failed to insert parent " +:+ parentObject +:+ ": "
                    +:+ stringifyErrors JSON_stringify (save_errors insertedRecord))) ;;
      mapInserted parentObject parentRecords (S i) rest
  end.

(** Insert mode: create parent records first, then use the new IDs for
    children.  The [idMapping] argument of the source is the state's
    [idMapping] object. *)
Definition handleInsertModeParents (parentObject : string) (parentIds : list string)
    : M unit :=
  fun s =>
    match sourceConn s, targetConn s with
    | Some src, Some tgt =>
        tryCatch
          (parentDescribe <- describe Source src parentObject ;;
           let insertableFields := parentInsertableFields parentDescribe in
           match insertableFields with
           | [] => ret tt
           | _ =>
               parentRecords <-
                 fetchChunks src
                   (fun chunk => "SELECT Id, " +:+ Js.join ", " insertableFields
                                 +:+ " FROM " +:+ parentObject
                                 +:+ " WHERE Id IN (" +:+ quotedIds chunk +:+ ")")
                   (slices 1000 parentIds) [] ;;
               match parentRecords with
               | [] => ret tt
               | _ =>
                   let cleanParents := map (cleanParent parentDescribe) parentRecords in
                   insertResult <- create Target tgt parentObject cleanParents ;;
                   match insertResult with
                   | RespArray rs => mapInserted parentObject parentRecords 0 rs
                   | RespSingle _ => ret tt
                   end
               end
           end)
          (fun error =>
             pushError ("Error handling insert mode parents for " +:+ parentObject
                        +:+ ": " +:+ stringifyErrors JSON_stringify error))
          s
    | _, _ => (s, Ok tt)
    end.

(** [options.externalIdMapping[parentObject]], [None] when it is falsy. *)
Definition externalIdFieldOf (mapping : gmap string string) (parentObject : string)
    : option string :=
  match mapping !! parentObject with
  | Some f => if nonEmpty f then Some f else None
  | None => None
  end.

(** One round of the lookup loop of [handleUpsertModeParents]. *)
Definition lookupParent (tgt : SalesforceRestClient) (parentObject externalIdField : string)
    (parentRecord : jsobj) : M unit :=
  let externalIdValue := getPropOr parentRecord externalIdField in
  if negb (truthy externalIdValue) then ret tt
  else
    tryCatch
      (let targetQuery :=
         "SELECT Id FROM " +:+ parentObject +:+ " WHERE " +:+ externalIdField
         +:+ " = '" +:+ escapeQuotes (js_String externalIdValue) +:+ "'" in
       targetResult <- query Target tgt targetQuery ;;
       match targetResult with
       | first :: _ => setMapping (getPropOr parentRecord "Id") (getPropOr first "Id")
       | [] =>
           pushError ("Parent record " +:+ parentObject +:+ " with " +:+ externalIdField
                      +:+ " = '" +:+ js_String externalIdValue
                      +:+ "' not found in target org. Consider running parent transfer first.")
       end)
      (fun error =>
         pushError ("Error looking up parent " +:+ parentObject +:+ " by "
                    +:+ externalIdField +:+ ": " +:+ stringifyErrors JSON_stringify error)).

(** Upsert mode: use user-specified external ID fields for parent matching. *)
Definition handleUpsertModeParents (parentObject : string) (parentIds : list string)
    (options : DataTransferOptions) : M unit :=
  fun s =>
    match sourceConn s, targetConn s, externalIdMapping options with
    | Some src, Some tgt, Some mapping =>
        match externalIdFieldOf mapping parentObject with
        | None =>
            pushError ("No external ID field specified for " +:+ parentObject
                       +:+ ". Please configure external ID mapping for upsert mode.") s
        | Some externalIdField =>
            tryCatch
              (parentRecords <-
                 fetchChunks src
                   (fun chunk => "SELECT Id, " +:+ externalIdField
                                 +:+ " FROM " +:+ parentObject
                                 +:+ " WHERE Id IN (" +:+ quotedIds chunk +:+ ")")
                   (slices 1000 parentIds) [] ;;
               forEach parentRecords (lookupParent tgt parentObject externalIdField))
              (fun error =>
                 pushError ("Error handling upsert mode parents for " +:+ parentObject
                            +:+ ": " +:+ stringifyErrors JSON_stringify error))
              s
        end
    | _, _, _ => (s, Ok tt)
    end.

(** Process one parent object type. *)
Definition resolveParent (options : DataTransferOptions)
    (entry : string * list string) : M unit :=
  let '(parentObject, ids) := entry in
  match ids with
  | [] => ret tt
  | _ =>
      match transferMode options with
      | Some Insert => handleInsertModeParents parentObject ids
      | Some Upsert => handleUpsertModeParents parentObject ids options
      | None => ret tt
      end
  end.

(** New approach: handle relationships based on transfer mode and user
    configuration.  [const sourceToTargetId = {}] resets the state's
    [idMapping] object, which the handlers then fill. *)
Definition ensureParentRecordsExistNew (objectType : string) (metadata : DescribeResult)
    (batch : list jsobj) (options : DataTransferOptions) : M (gmap string jsval) :=
  fun s =>
    match sourceConn s, targetConn s with
    | Some _, Some _ =>
        match referenceFieldsOf metadata with
        | [] => (s, Ok ∅)
        | referenceFields =>
            (withMapping (fun _ => ∅) ;;
             forEach (collectParentIds referenceFields batch) (resolveParent options) ;;
             getMapping) s
        end
    | _, _ => (s, Ok ∅)
    end.

(** ** Extractor: the query [transferObjectRecords] builds *)

(** Build SOQL query with writable fields. *)
Definition baseFieldNames (metadata : DescribeResult) : list string :=
  map field_name
      (List.filter (fun f => field_createable f || field_updateable f) (fields metadata)).

Definition relationshipNameTruthy (f : Field) : bool :=
  match field_relationshipName f with
  | Some n => nonEmpty n
  | None => false
  end.

Definition relationshipFieldNames (metadata : DescribeResult) : list string :=
  map (fun f => default "" (field_relationshipName f))
      (List.filter (fun f => String.eqb (field_type f) "reference" && relationshipNameTruthy f)
                   (fields metadata)).

(** Add relationship fields if requested. *)
Definition relationshipFieldsOf (options : DataTransferOptions) (metadata : DescribeResult)
    : string :=
  if includeRelationships options then
    let names := Js.join ", " (relationshipFieldNames metadata) in
    if nonEmpty names then ", " +:+ names else ""
  else "".

(** Apply record limit if configured for this object. *)
Definition limitClauseOf (options : DataTransferOptions) (objectType : string) : string :=
  match recordLimits options with
  | Some limits =>
      match limits !! objectType with
      | Some n => if (n =? 0)%Z then "" else " LIMIT " +:+ pretty n
      | None => ""
      end
  | None => ""
  end.

Definition extractionQuery (objectType : string) (options : DataTransferOptions)
    (metadata : DescribeResult) : string :=
  "SELECT " +:+ Js.join ", " (baseFieldNames metadata)
  +:+ relationshipFieldsOf options metadata
  +:+ " FROM " +:+ objectType +:+ limitClauseOf options objectType.

(** ** BatchWriter: one batch of either transfer loop *)

(** [options.batchSize || 200] *)
Definition effectiveBatchSize (options : DataTransferOptions) : nat :=
  match batchSize options with
  | O => 200%nat
  | b => b
  end.

(** [idMap[srcId]], [undefined] when the key is missing. *)
Definition idMapGet (idMap : gmap string jsval) (srcId : jsval) : jsval :=
  default JUndefined (idMap !! js_String srcId).

(** Remap lookup fields on a cleaned record using the source->target Id map:
    [for (const ref of referenceFields) { const srcId = original[ref.name];
       if (srcId && idMap[srcId]) cleaned[ref.name] = idMap[srcId]; }] *)
Definition remapRecord (referenceFields : list Field) (idMap : gmap string jsval)
    (original cleaned : jsobj) : jsobj :=
  foldl (fun cleaned ref =>
           let srcId := getPropOr original (field_name ref) in
           if truthy srcId && truthy (idMapGet idMap srcId)
           then setProp cleaned (field_name ref) (idMapGet idMap srcId)
           else cleaned)
        cleaned referenceFields.

(** [cleanedBatch.forEach((cleaned, idx) => { const original = batch[idx]; ... })],
    with [cleanedBatch = batch.map(cleanRecord)]. *)
Definition remapBatch (metadata : DescribeResult) (idMap : gmap string jsval)
    (batch : list jsobj) : list jsobj :=
  map (fun original =>
         remapRecord (referenceFieldsOf metadata) idMap original (cleanRecord original))
      batch.

(** Handle results of one create call. *)
Definition handleInsertResult (objectType : string) (insertResult : CreateResponse) : M unit :=
  match insertResult with
  | RespArray rs =>
      addTransferred (length (List.filter save_success rs)) ;;
      forEach (List.filter (fun r => negb (save_success r)) rs)
              (fun failure =>
                 pushError (recordError JSON_stringify objectType (save_errors failure)))
  | RespSingle r =>
      if save_success r then addTransferred 1
      else pushError (recordError JSON_stringify objectType (save_errors r))
  end.

(** The body of the batch loop, the same in [transferObjectRecords] and in
    [transferByQuery]. *)
Definition transferBatch (tgt : SalesforceRestClient) (objectType : string)
    (metadata : DescribeResult) (options : DataTransferOptions) (batch : list jsobj)
    : M unit :=
  cleanedBatch <-
    (if includeRelationships options then
       idMap <- ensureParentRecordsExistNew objectType metadata batch options ;;
       ret (remapBatch metadata idMap batch)
     else ret (map cleanRecord batch)) ;;
  insertResult <- create Target tgt objectType cleanedBatch ;;
  handleInsertResult objectType insertResult.

Definition connectionsMissing : jsval := newError "Connections not initialized".

(** ** TransferOrchestrator *)

(** What [transferObjectRecords] runs inside its [try]. *)
Definition transferObjectRecordsBody (src tgt : SalesforceRestClient)
    (objectType : string) (options : DataTransferOptions) : M unit :=
  metadata <- describe Source src objectType ;;
  records <- query Source src (extractionQuery objectType options metadata) ;;
  match records with
  | [] => ret tt
  | _ =>
      forEach (slices (effectiveBatchSize options) records)
              (transferBatch tgt objectType metadata options)
  end.

Definition transferObjectRecords (objectType : string) (options : DataTransferOptions)
    : M unit :=
  fun s =>
    match sourceConn s, targetConn s with
    | Some src, Some tgt =>
        tryCatch
          (transferObjectRecordsBody src tgt objectType options)
          (fun error =>
             pushError ("Error transferring " +:+ objectType +:+ ": "
                        +:+ stringifyErrors JSON_stringify error))
          s
    | _, _ => (s, Throw connectionsMissing)
    end.

(** What [transferByQuery] runs inside its [try]. *)
Definition transferByQueryBody (src tgt : SalesforceRestClient)
    (soql objectType : string) (options : DataTransferOptions) : M unit :=
  records <- query Source src soql ;;
  match records with
  | [] => ret tt
  | _ =>
      metadata <- describe Source src objectType ;;
      forEach (slices (effectiveBatchSize options) records)
              (transferBatch tgt objectType metadata options)
  end.

Definition transferByQuery (soql : string) (options : DataTransferOptions) : M unit :=
  fun s =>
    match sourceConn s, targetConn s with
    | Some src, Some tgt =>
        match parseFromObject soql with
        | None => (s, Throw (newError "Unable to determine object type from SOQL query"))
        | Some objectType =>
            tryCatch
              (transferByQueryBody src tgt soql objectType options)
              (fun error =>
                 pushError ("Error transferring by query for " +:+ objectType +:+ ": "
                            +:+ stringifyErrors JSON_stringify error))
              s
        end
    | _, _ => (s, Throw connectionsMissing)
    end.

(** [if (!options.transferMode) options.transferMode = 'insert'] *)
Definition withDefaultMode (options : DataTransferOptions) : DataTransferOptions :=
  mkOptions (sourceOrg options) (targetOrg options) (objectTypes options)
            (includeRelationships options) (batchSize options) (recordLimits options)
            (customQuery options) (externalIdMapping options)
            (Some (default Insert (transferMode options))).

(** [options.customQuery && options.customQuery.trim()] *)
Definition customQueryGiven (options : DataTransferOptions) : option string :=
  match customQuery options with
  | Some q => if nonEmpty q && nonEmpty (Js.trim q) then Some q else None
  | None => None
  end.

Definition freshResult : TransferResult :=
  {| success := false; recordsTransferred := 0; errors := [] |}.

Definition transferData (options : DataTransferOptions) : M TransferResult :=
  fun s =>
    match sourceConn s, targetConn s with
    | Some _, Some _ =>
        let options := withDefaultMode options in
        (withResult (fun _ => freshResult) ;;
         tryCatch
           (match customQueryGiven options with
            | Some soql =>
                transferByQuery soql options ;;
                setSuccess ;;
                getResult
            | None =>
                match objectTypes options with
                | None => throw (newError "No object types provided for transfer")
                | Some types =>
                    forEach types (fun objectType => transferObjectRecords objectType options) ;;
                    setSuccess ;;
                    getResult
                end
            end)
           (fun error =>
              pushError ("Transfer failed: " +:+ js_String error) ;;
              getResult))
          s
    | _, _ => (s, Throw connectionsMissing)
    end.

End Engine.

(** ** SchemaInspector: [getObjectTypes] and [analyzeRelationships] *)

(** One entry of [describeGlobal().sobjects], with the properties
    [getObjectTypes] reads. *)
Record SObjectInfo : Type := mkSObject {
  sobject_name : string;
  sobject_label : string;
  sobject_custom : bool;
  sobject_queryable : bool;
  sobject_createable : bool
}.

(** Exclude system objects we don't want. *)
Definition excludePatterns : list string :=
  [ "__History"; "__Share"; "__Feed"; "__Tag"; "__c2g__";
    "__ChangeEvent"; "__e"; "__mdt"; "__x"; "__hd" ]%string.

(** The callback of the [filter] in [getObjectTypes]. *)
Definition isListedObject (sobject : SObjectInfo) : bool :=
  let name := sobject_name sobject in
  let isQueryable := sobject_queryable sobject in
  let isCreateable := sobject_createable sobject in
  let shouldExclude := existsb (fun pattern => Js.endsWith name pattern) excludePatterns in
  if shouldExclude then false
  else
    isQueryable
    && ((isCreateable && negb (Js.includes name "__"))
        || Js.endsWith name "__c"
        || (Js.includes name "__" && negb (Js.endsWith name "__c"))).

(** [s.split('__')]: the pieces between the occurrences of the separator,
    found left to right. *)
Fixpoint splitDunder (s : string) : list string :=
  match s with
  | EmptyString => [EmptyString]
  | String c s' =>
      let extend :=
        match splitDunder s' with
        | p :: ps => String c p :: ps
        | [] => [String c EmptyString]
        end in
      match s' with
      | String c2 rest =>
          if Ascii.eqb c "_" && Ascii.eqb c2 "_"
          then EmptyString :: splitDunder rest
          else extend
      | EmptyString => extend
      end
  end.

(** Extract namespace from managed package objects. *)
Definition extractNamespace (objectName : string) : option string :=
  let parts := splitDunder objectName in
  if (2 <=? length parts)%nat && negb (Js.startsWith objectName "__")
  then Some (hd EmptyString parts)
  else None.

(** [relationships.set(key, value)] on a [Map]: a key already present keeps
    its place. *)
Fixpoint mapSet (m : list (string * list string)) (key : string) (value : list string)
    : list (string * list string) :=
  match m with
  | [] => [(key, value)]
  | (k, v) :: m' =>
      if String.eqb k key then (k, value) :: m' else (k, v) :: mapSet m' key value
  end.

(** [metadata.fields.filter(f => f.type === 'reference' && f.referenceTo)
      .map(f => f.referenceTo?.[0])
      .filter(ref => ref && objectTypes.includes(ref))] *)
Definition relatedObjectsOf (objectTypes : list string) (metadata : DescribeResult)
    : list string :=
  List.filter (fun ref => nonEmpty ref && Js.arrayIncludes objectTypes ref)
    (map (fun f => hd EmptyString (field_referenceTo f))
         (List.filter (fun f => String.eqb (field_type f) "reference") (fields metadata))).

Section Inspection.

Context {World : Type}.
Variable remote : RemoteApi World.

(** The loop of [analyzeRelationships] over the object types still to
    visit. *)
Fixpoint analyzeLoop (src : SalesforceRestClient) (objectTypes remaining : list string)
    (relationships : list (string * list string)) : M (list (string * list string)) :=
  match remaining with
  | [] => ret relationships
  | objectType :: remaining' =>
      bind (describe remote Source src objectType)
           (fun metadata =>
              let relatedObjects := relatedObjectsOf objectTypes metadata in
              analyzeLoop src objectTypes remaining'
                (match relatedObjects with
                 | [] => relationships
                 | _ => mapSet relationships objectType relatedObjects
                 end))
  end.

Definition analyzeRelationships (objectTypes : list string)
    : M (list (string * list string)) :=
  fun s : EngineState World =>
    match sourceConn s with
    | Some src =>
        tryCatch
          (analyzeLoop src objectTypes objectTypes [])
          (fun error =>
             throw (newError ("Failed to analyze relationships: " +:+ js_String error)))
          s
    | None => (s, Throw (newError "Source connection not initialized"))
    end.

End Inspection.

(** ** A small concrete deployment

    Two orgs with a [Contact] object whose [AccountId] looks up [Account].
    The remote state counts the records created so far; every create
    succeeds.  Used to run the engine on concrete inputs. *)
Module Demo.

Definition JSON_stringify (v : jsval) : string := "{}".

Definition plainField (name type : string) (writable : bool) : Field :=
  mkField name type writable writable false false false [] None.

Definition contactSchema : DescribeResult :=
  mkDescribe
    [ plainField "Id" "id" false;
      plainField "LastName" "string" true;
      mkField "AccountId" "reference" true true false false false ["Account"] (Some "Account");
      mkField "Notes__pc" "string" false true false false false [] None ].

Definition accountSchema : DescribeResult :=
  mkDescribe
    [ plainField "Id" "id" false;
      plainField "Name" "string" true;
      mkField "Ext__c" "string" true true false false true [] None ].

Definition contact (lastName accountId : string) : jsobj :=
  [ ("attributes", JObj [("type", JStr "Contact")]);
    ("LastName", JStr lastName);
    ("AccountId", JStr accountId) ].

Definition account (id name ext : string) : jsobj :=
  [ ("attributes", JObj [("type", JStr "Account")]);
    ("Id", JStr id);
    ("Name", JStr name);
    ("Ext__c", JStr ext) ].

Definition fiveContacts : list jsobj :=
  [ contact "Ada" "001A"; contact "Bob" "001A"; contact "Cy" "001A";
    contact "Di" "001A"; contact "Ed" "001A" ].

Definition sourceClient : SalesforceRestClient := newClient "https://source.example/" "s-token".
Definition targetClient : SalesforceRestClient := newClient "https://target.example" "t-token".

Definition okSave (n : nat) : SaveResult :=
  mkSave true (JStr ("new" +:+ pretty n)) (JArr []).

Definition notFound : jsval := newError "Salesforce API error: 404 Not Found - []".

(** [contacts]: the source's Contact rows; [targetAccounts]: what the
    target answers to a query on Account. *)
Definition remote (contacts targetAccounts : list jsobj) : RemoteApi nat :=
  {| remote_identity := fun _ w => (w, Ok tt);
     remote_describe := fun _ sobjectType w =>
       if String.eqb sobjectType "Contact" then (w, Ok contactSchema)
       else if String.eqb sobjectType "Account" then (w, Ok accountSchema)
       else (w, Throw notFound);
     remote_query := fun conn soql w =>
       match parseFromObject soql with
       | Some "Contact" => (w, Ok contacts)
       | Some "Account" =>
           if String.eqb (instanceUrl conn) "https://source.example"
           then (w, Ok [account "001A" "Acme" "X-1"])
           else (w, Ok targetAccounts)
       | _ => (w, Throw notFound)
       end;
     remote_create := fun _ req w =>
       match req with
       | PostSObject _ _ => (S w, Ok (RespSingle (okSave w)))
       | PostComposite _ records =>
           ((w + length records)%nat, Ok (RespArray (imap (fun i _ => okSave (w + i)) records)))
       end |}.

Definition badRequest : jsval :=
  newError "Salesforce API error: 400 Bad Request - INVALID_FIELD".

(** The same deployment with a target that rejects every create. *)
Definition rejecting (contacts : list jsobj) : RemoteApi nat :=
  {| remote_identity := remote_identity (remote contacts []);
     remote_describe := remote_describe (remote contacts []);
     remote_query := remote_query (remote contacts []);
     remote_create := fun _ _ w => (w, Throw badRequest) |}.

Definition state : EngineState nat :=
  mkState 0%nat [] (Some sourceClient) (Some targetClient) freshResult ∅.

Definition options (types : list string) (relationships : bool) (batch : nat)
    (mapping : option (gmap string string)) (mode : TransferMode) : DataTransferOptions :=
  mkOptions (mkOrg "https://source.example/" (Some "s-token"))
            (mkOrg "https://target.example" (Some "t-token"))
            (Some types) relationships batch None None mapping (Some mode).

Definition queryOptions (soql : string) : DataTransferOptions :=
  mkOptions (mkOrg "https://source.example/" (Some "s-token"))
            (mkOrg "https://target.example" (Some "t-token"))
            None false 200 None (Some soql) None None.

End Demo.

(** ** Specification vocabulary *)

(** [ceil(n / b)] on the naturals. *)
Definition ceilDiv (n b : nat) : nat := ((n + b - 1) / b)%nat.

(** The records one create response reports as written. *)
Definition successCount (r : CreateResponse) : nat :=
  match r with
  | RespArray rs => length (List.filter save_success rs)
  | RespSingle r => if save_success r then 1%nat else 0%nat
  end.

(** The records the answered target creates of a log report as written. *)
Fixpoint successesOf (evs : list Event) : nat :=
  match evs with
  | [] => 0%nat
  | EvCreate Target _ _ (Ok r) :: evs' => (successCount r + successesOf evs')%nat
  | _ :: evs' => successesOf evs'
  end.

Definition targetCreates (evs : list Event) : list Event :=
  List.filter isTargetCreate evs.

(** The save results a create response carries: the array of the composite
    endpoint, or the one result of the single-record endpoint. *)
Definition saveResults (r : CreateResponse) : list SaveResult :=
  match r with
  | RespArray rs => rs
  | RespSingle r => [r]
  end.

(** The entries handling a create response pushes to the error list: one
    per failed save result, in order. *)
Definition failureMessages (JSON_stringify : jsval -> string) (objectType : string)
    (r : CreateResponse) : list string :=
  map (fun failure => recordError JSON_stringify objectType (save_errors failure))
      (List.filter (fun r => negb (save_success r)) (saveResults r)).

(** The response reports each of [n] records as written. *)
Definition allSaved (n : nat) (r : CreateResponse) : Prop :=
  length (saveResults r) = n /\ Forall (fun x => save_success x = true) (saveResults r).

(** One round of the batch loop as the log shows it: the calls of the
    relationship resolution, then the create of the batch, answered. *)
Record BatchRound : Type := mkRound {
  round_resolution : list Event;
  round_payload : list jsobj;
  round_answer : CreateResponse
}.

Definition roundEvents (objectType : string) (round : BatchRound) : list Event :=
  (round_resolution round
   ++ [EvCreate Target objectType (round_payload round) (Ok (round_answer round))])%list.

(** [round] is a round for [batch]: one record goes out per record of the
    batch, the answer is the target's answer to that create, the resolution
    is empty and the payload the cleaned batch when relationships are off,
    and the resolution creates nothing in upsert mode. *)
Definition roundOf {World : Type} (remote : RemoteApi World) (tgt : SalesforceRestClient)
    (objectType : string) (options : DataTransferOptions)
    (batch : list jsobj) (round : BatchRound) : Prop :=
  length (round_payload round) = length batch
  /\ (exists w w', remote_create remote tgt (createRequest objectType (round_payload round)) w
                   = (w', Ok (round_answer round)))
  /\ (includeRelationships options = false ->
      round_resolution round = [] /\ round_payload round = map cleanRecord batch)
  /\ (includeRelationships options = false \/ transferMode options = Some Upsert ->
      targetCreates (round_resolution round) = []).

(** What sanitization keeps of a record: an entry whose key is in neither
    exclusion list and does not end in [__pc], and the three login
    timestamps when their value is no string. *)
Definition sanitizerKeeps (entry : string * jsval) : bool :=
  negb (Js.arrayIncludes systemFields (fst entry))
  && negb (Js.endsWith (fst entry) "__pc")
  && negb (matchesDateTime (fst entry) && isString (snd entry)
           && Js.arrayIncludes systemTimestamps (fst entry)).

(** The results of a create that [handleInsertModeParents] maps. *)
Definition saved (r : SaveResult) : bool := save_success r && truthy (save_id r).

Definition isDescribe (e : Event) : bool :=
  match e with EvDescribe _ _ _ => true | _ => false end.

(** [parentId] is in the set collected under [parentObject]. *)
Definition collectedUnder (acc : list (string * list string))
    (parentObject parentId : string) : Prop :=
  exists ids, (parentObject, ids) ∈ acc /\ parentId ∈ ids.

(** The keys of the grouping are distinct and each holds a non-empty set
    without repetition. *)
Definition wellGrouped (acc : list (string * list string)) : Prop :=
  NoDup (map fst acc) /\ Forall (fun entry => snd entry <> [] /\ NoDup (snd entry)) acc.

(** Some reference field of [refs] whose first target is [parentObject]
    holds the string [parentId] in [rec]. *)
Definition references (refs : list Field) (rec : jsobj)
    (parentObject parentId : string) : Prop :=
  exists ref, ref ∈ refs /\ hd EmptyString (field_referenceTo ref) = parentObject
              /\ getPropOr rec (field_name ref) = JStr parentId.

(** Every character of [s] satisfies [p]. *)
Fixpoint allChars (p : ascii -> bool) (s : string) : bool :=
  match s with
  | EmptyString => true
  | String c s' => p c && allChars p s'
  end.

Section Reasoning.

Context {World : Type}.

Definition connectedTo (src tgt : SalesforceRestClient) (s : EngineState World) : Prop :=
  sourceConn s = Some src /\ targetConn s = Some tgt.

(** [m] relates every state to the state it leaves, whether it returns or
    throws. *)
Definition respects {A : Type} (R : relation (EngineState World)) (m : @M World A) : Prop :=
  forall s, R s (fst (m s)).

(** [m] returns from every state: no exception escapes it. *)
Definition returns {A : Type} (m : @M World A) : Prop :=
  forall s, exists s' a, m s = (s', Ok a).

(** The connections stay and the log grows by events that satisfy [phi]. *)
Definition extendsWith (phi : Event -> Prop) (s s' : EngineState World) : Prop :=
  sourceConn s' = sourceConn s /\ targetConn s' = targetConn s
  /\ exists evs, trace s' = (trace s ++ evs)%list /\ Forall phi evs.

(** The connections stay, the log grows by [evs] with [k] target creates,
    and [recordsTransferred] grows by the successes they report. *)
Definition wrote (k : nat) (s s' : EngineState World) : Prop :=
  sourceConn s' = sourceConn s /\ targetConn s' = targetConn s
  /\ exists evs, trace s' = (trace s ++ evs)%list
                 /\ length (targetCreates evs) = k
                 /\ recordsTransferred (result s')
                    = (recordsTransferred (result s) + successesOf evs)%nat.

(** The error list only grows. *)
Definition errorsGrow (s s' : EngineState World) : Prop :=
  exists more, errors (result s') = (errors (result s) ++ more)%list.

(** The connections and [recordsTransferred] stay, and the log grows. *)
Definition resolves (s s' : EngineState World) : Prop :=
  sourceConn s' = sourceConn s /\ targetConn s' = targetConn s
  /\ recordsTransferred (result s') = recordsTransferred (result s)
  /\ exists evs, trace s' = (trace s ++ evs)%list.

(** The state [transferData] starts its [try] from: a fresh [result]. *)
Definition resetResult (s : EngineState World) : EngineState World :=
  mkState (world s) (trace s) (sourceConn s) (targetConn s) freshResult (idMapping s).

End Reasoning.

(** * Properties *)

(** ** Strings *)

Lemma append_cons (c : ascii) (s t : string) : String c s +:+ t = String c (s +:+ t).
Proof. reflexivity. Qed.

Lemma append_nil_l (t : string) : "" +:+ t = t.
Proof. reflexivity. Qed.

Lemma endsWith_spec (s suf : string) :
  Js.endsWith s suf = true <-> exists p, s = p +:+ suf.
Proof.
  induction s as [|a s IH]; cbn [Js.endsWith].
  - rewrite orb_false_r, String.eqb_eq. split.
    + intros <-. by exists "".
    + intros [[|b p] Hp]; [by rewrite append_nil_l in Hp|].
      rewrite append_cons in Hp. discriminate.
  - rewrite orb_true_iff, String.eqb_eq, IH. split.
    + intros [<- | [p ->]]; [by exists "" | by exists (String a p)].
    + intros [[|b p] Hp].
      * left. by rewrite append_nil_l in Hp.
      * right. exists p. rewrite append_cons in Hp. congruence.
Qed.

Lemma prefix_app (x r : string) : String.prefix x (x +:+ r) = true.
Proof.
  induction x as [|a x IH]; simpl.
  - by destruct r.
  - destruct (ascii_dec a a); [apply IH | done].
Qed.

Lemma includes_prefix (s x : string) : String.prefix x s = true -> Js.includes s x = true.
Proof. intros H. destruct s; cbn [Js.includes]; by rewrite H. Qed.

Lemma includes_app_r (a s x : string) :
  Js.includes s x = true -> Js.includes (a +:+ s) x = true.
Proof.
  intros H. induction a as [|c a IH]; simpl; [done|].
  change (String c a +:+ s) with (String c (a +:+ s)). simpl.
  rewrite IH. apply orb_true_r.
Qed.

Lemma prefix_app_l (x s b : string) :
  String.prefix x s = true -> String.prefix x (s +:+ b) = true.
Proof.
  revert s. induction x as [|a x IH]; intros s H.
  - by destruct (s +:+ b).
  - destruct s as [|c s]; simpl in H; [done|].
    rewrite append_cons. simpl.
    destruct (ascii_dec a c); [by apply IH | done].
Qed.

Lemma includes_app_l (s b x : string) :
  Js.includes s x = true -> Js.includes (s +:+ b) x = true.
Proof.
  induction s as [|c s IH]; cbn [Js.includes]; intros H.
  - rewrite orb_false_r in H. apply includes_prefix.
    by apply (prefix_app_l x "" b).
  - change (String c s +:+ b) with (String c (s +:+ b)). cbn [Js.includes].
    apply orb_true_iff in H as [H|H].
    + pose proof (prefix_app_l _ (String c s) b H) as H'.
      rewrite append_cons in H'. by rewrite H'.
    + rewrite (IH H). apply orb_true_r.
Qed.

Lemma includes_refl (x : string) : Js.includes x x = true.
Proof.
  apply includes_prefix.
  induction x as [|a x IH]; simpl; [done|]. by destruct (ascii_dec a a).
Qed.

Lemma includes_join (sep x : string) (l : list string) :
  x ∈ l -> Js.includes (Js.join sep l) x = true.
Proof.
  unfold Js.join. induction l as [|y l IH]; intros Hx; [by apply elem_of_nil in Hx|].
  apply elem_of_cons in Hx. destruct l as [|z l].
  - destruct Hx as [-> | Hx]; [apply includes_refl | by apply elem_of_nil in Hx].
  - change (String.concat sep (y :: z :: l))
      with (y +:+ sep +:+ String.concat sep (z :: l)).
    destruct Hx as [-> | Hx].
    + apply includes_app_l, includes_refl.
    + apply includes_app_r, includes_app_r. by apply IH.
Qed.

Lemma map_fmap {A B : Type} (f : A -> B) (l : list A) : map f l = f <$> l.
Proof. reflexivity. Qed.

Lemma elem_of_map {A B : Type} (f : A -> B) (l : list A) (y : B) :
  y ∈ map f l <-> exists x, y = f x /\ x ∈ l.
Proof. rewrite map_fmap. apply list_elem_of_fmap. Qed.

Lemma elem_of_List_filter {A : Type} (p : A -> bool) (l : list A) (x : A) :
  x ∈ List.filter p l <-> p x = true /\ x ∈ l.
Proof. rewrite !list_elem_of_In, filter_In. tauto. Qed.

(** ** Objects *)

Lemma keys_deleteProp (o : jsobj) (k key : string) :
  key ∈ objectKeys (deleteProp o k) <-> key ∈ objectKeys o /\ key <> k.
Proof.
  unfold objectKeys, deleteProp. rewrite !elem_of_map. split.
  - intros [[k' v] [-> [Hne Hin]%elem_of_List_filter]]. simpl in *. split.
    + by exists (k', v).
    + intros ->. by rewrite String.eqb_refl in Hne.
  - intros [[[k' v] [-> Hin]] Hne]. exists (k', v). split; [done|].
    apply elem_of_List_filter. split; [|done]. simpl in *.
    apply String.eqb_neq in Hne. by rewrite Hne.
Qed.

Lemma getProp_None (o : jsobj) (k : string) :
  getProp o k = None <-> k ∉ objectKeys o.
Proof.
  unfold objectKeys. induction o as [|[k' v] o IH]; simpl.
  - split; [intros _; apply not_elem_of_nil | done].
  - rewrite not_elem_of_cons. destruct (String.eqb_spec k' k) as [->|Hne].
    + split; [done | intros [? _]; done].
    + rewrite IH. split; [intros ?; split; [congruence | done] | by intros [_ ?]].
Qed.

(** A loop that only ever deletes keys leaves a record whose keys were
    there before. *)
Lemma foldl_shrinks (step : jsobj -> string -> jsobj) (keys : list string) :
  (forall o k key, key ∈ objectKeys (step o k) -> key ∈ objectKeys o) ->
  forall o key, key ∈ objectKeys (foldl step o keys) -> key ∈ objectKeys o.
Proof.
  intros Hstep. induction keys as [|k keys IH]; intros o key; simpl; [done|].
  intros H. eapply Hstep, IH, H.
Qed.

(** ... and a key the loop visits and deletes is gone at the end. *)
Lemma foldl_deletes (step : jsobj -> string -> jsobj) (keys : list string) (k : string) :
  (forall o k key, key ∈ objectKeys (step o k) -> key ∈ objectKeys o) ->
  (forall o, k ∉ objectKeys (step o k)) ->
  k ∈ keys ->
  forall o, k ∉ objectKeys (foldl step o keys).
Proof.
  intros Hshrink Hdel. induction keys as [|k' keys IH]; intros Hin o; simpl.
  - by apply elem_of_nil in Hin.
  - apply elem_of_cons in Hin as [<- | Hin]; [|by apply IH].
    intros H. apply (Hdel o). eapply foldl_shrinks; eauto.
Qed.

Lemma removeListed_step_shrinks (o : jsobj) (k key : string) :
  key ∈ objectKeys (if hasOwnProperty o k then deleteProp o k else o) ->
  key ∈ objectKeys o.
Proof. destruct (hasOwnProperty o k); [by intros [? _]%keys_deleteProp | done]. Qed.

Lemma removeListed_spec (record : jsobj) (key : string) :
  key ∈ objectKeys (removeListed record) -> key ∈ objectKeys record /\ (key ∉ systemFields).
Proof.
  unfold removeListed. intros H. split.
  - revert H. apply foldl_shrinks. apply removeListed_step_shrinks.
  - intros Hin. revert H. apply foldl_deletes; [apply removeListed_step_shrinks | | done].
    intros o. unfold hasOwnProperty. case_bool_decide as Hown.
    + rewrite keys_deleteProp. by intros [_ ?].
    + apply getProp_None. destruct (getProp o key) eqn:E; [|done].
      destruct Hown. by eexists.
Qed.

Lemma removePersonFields_spec (record : jsobj) (key : string) :
  key ∈ objectKeys (removePersonFields record) ->
  key ∈ objectKeys record /\ Js.endsWith key "__pc" = false.
Proof.
  unfold removePersonFields. intros H.
  assert (Hshrink : forall o k key',
    key' ∈ objectKeys (if Js.endsWith k "__pc" then deleteProp o k else o) ->
    key' ∈ objectKeys o).
  { intros o k key'. destruct (Js.endsWith k "__pc"); [by intros [? _]%keys_deleteProp | done]. }
  assert (Hin : key ∈ objectKeys record) by (revert H; by apply foldl_shrinks).
  split; [done|]. destruct (Js.endsWith key "__pc") eqn:E; [|done].
  exfalso. revert H. apply foldl_deletes; [done | | done].
  intros o. rewrite E, keys_deleteProp. by intros [_ ?].
Qed.

Lemma removeTimestamps_shrinks (record : jsobj) (key : string) :
  key ∈ objectKeys (removeTimestamps record) -> key ∈ objectKeys record.
Proof.
  unfold removeTimestamps. apply foldl_shrinks. intros o k key'.
  destruct (matchesDateTime k && isString (getPropOr o k)); [|done].
  destruct (Js.arrayIncludes systemTimestamps k); [by intros [? _]%keys_deleteProp | done].
Qed.

Lemma removeSystemFields_keys (record : jsobj) (key : string) :
  key ∈ objectKeys (removeSystemFields record) ->
  key ∈ objectKeys record /\ (key ∉ systemFields) /\ Js.endsWith key "__pc" = false.
Proof.
  unfold removeSystemFields.
  intros [[Hin Hsys]%removeListed_spec Hpc]%removeTimestamps_shrinks%removePersonFields_spec.
  done.
Qed.

(** C7. A sanitized record has no key from the system-field exclusion list
    (Id, attributes, CreatedDate, CreatedById, LastModifiedDate,
    LastModifiedById, SystemModstamp, LastActivityDate, LastViewedDate,
    LastReferencedDate, Owner, IsDeleted, MasterRecordId,
    ConnectionReceivedId, ConnectionSentId, PhotoUrl) and no key ending in
    [__pc]; [removeSystemFields] is a total function, so it rejects no
    record. *)
Theorem sanitized_record_has_no_system_key (record : jsobj) :
  Forall (fun key =>
            (key ∉ [ "Id"; "attributes"; "CreatedDate"; "CreatedById";
                     "LastModifiedDate"; "LastModifiedById"; "SystemModstamp";
                     "LastActivityDate"; "LastViewedDate"; "LastReferencedDate";
                     "Owner"; "IsDeleted"; "MasterRecordId"; "ConnectionReceivedId";
                     "ConnectionSentId"; "PhotoUrl" ])
            /\ ~ (exists p, key = p +:+ "__pc"))
         (objectKeys (removeSystemFields record)).
Proof.
  apply Forall_forall. intros key (_ & Hsys & Hpc)%removeSystemFields_keys.
  split; [exact Hsys|].
  intros Hex%endsWith_spec. congruence.
Qed.

(** ** ErrorAggregator *)

Lemma arrayIncludes_spec (l : list string) (x : string) :
  Js.arrayIncludes l x = true <-> x ∈ l.
Proof.
  unfold Js.arrayIncludes. rewrite existsb_exists. split.
  - intros [y [Hy ->%String.eqb_eq]]. by apply list_elem_of_In.
  - intros H. exists x. split; [by apply list_elem_of_In | apply String.eqb_refl].
Qed.

Lemma elem_of_uniqueFrom (seen l : list string) (x : string) :
  x ∈ l -> x ∉ seen -> x ∈ uniqueFrom seen l.
Proof.
  revert seen. induction l as [|y l IH]; intros seen Hin Hseen; simpl.
  - by apply elem_of_nil in Hin.
  - apply elem_of_cons in Hin. destruct (Js.arrayIncludes seen y) eqn:E.
    + apply arrayIncludes_spec in E. destruct Hin as [-> | Hin]; [done | by apply IH].
    + destruct Hin as [-> | Hin]; [apply list_elem_of_here|].
      destruct (decide (x = y)) as [-> | Hne]; [apply list_elem_of_here|].
      apply list_elem_of_further, IH; [done|].
      rewrite not_elem_of_cons. done.
Qed.

Lemma uniqueFrom_seen (m : string) (seen l : list string) :
  Forall (eq m) l -> m ∈ seen -> uniqueFrom seen l = [].
Proof.
  intros Hall Hseen. induction Hall as [|y l <- _ IH]; simpl; [done|].
  apply arrayIncludes_spec in Hseen. by rewrite Hseen.
Qed.

Lemma unique_same (m : string) (l : list string) :
  Forall (eq m) l -> l <> [] -> unique l = [m].
Proof.
  unfold unique. intros Hall Hne. destruct Hall as [|y l <- Hall]; [done|]. simpl.
  f_equal. apply (uniqueFrom_seen m); [done | apply list_elem_of_here].
Qed.

Lemma filter_nonEmpty_same (m : string) (l : list string) :
  m <> "" -> Forall (eq m) l -> List.filter nonEmpty l = l.
Proof.
  intros Hm Hall. induction Hall as [|y l <- _ IH]; simpl; [done|].
  unfold nonEmpty at 1. apply String.eqb_neq in Hm. rewrite Hm. simpl. by f_equal.
Qed.

Lemma consolidate_same (m : string) (strs : list string) :
  m <> "" -> (2 <= length strs)%nat -> Forall (eq m) strs ->
  consolidate strs = m +:+ " (occurred " +:+ pretty (length strs) +:+ " times)".
Proof.
  intros Hm Hlen Hall. unfold consolidate.
  rewrite (filter_nonEmpty_same m) by done.
  rewrite (unique_same m); [| done | intros ->; simpl in Hlen; lia].
  simpl. destruct (Nat.ltb_spec 1 (length strs)); [done | lia].
Qed.

Lemma consolidate_keeps (strs : list string) (x : string) :
  x ∈ strs -> Js.includes (consolidate strs) x = true.
Proof.
  intros Hin. destruct (String.eqb_spec x "") as [-> | Hne].
  { apply includes_prefix. by destruct (consolidate strs). }
  assert (Hu : x ∈ unique (List.filter nonEmpty strs)).
  { apply elem_of_uniqueFrom; [|apply not_elem_of_nil].
    apply elem_of_List_filter. split; [|done].
    unfold nonEmpty. apply String.eqb_neq in Hne. by rewrite Hne. }
  unfold consolidate.
  destruct ((length (unique (List.filter nonEmpty strs)) =? 1)%nat
            && (1 <? length (List.filter nonEmpty strs))%nat) eqn:E.
  - apply andb_true_iff in E as [E%Nat.eqb_eq _].
    destruct (unique (List.filter nonEmpty strs)) as [|u [|? ?]]; simpl in E; try done.
    apply list_elem_of_singleton in Hu as ->. simpl.
    apply includes_app_l, includes_refl.
  - by apply includes_join.
Qed.

(** C8, as the code has it.  An array of at least two failure payloads that
    all stringify to the same non-empty message yields that message once,
    suffixed with [(occurred N times)], N the array length; and whatever the
    array holds, the message of each element occurs in the output. *)
Theorem stringify_array_consolidates (JSON_stringify : jsval -> string)
    (elems : list jsval) :
  (forall m, m <> "" -> (2 <= length elems)%nat ->
             Forall (fun e => stringifyErrors JSON_stringify e = m) elems ->
             stringifyErrors JSON_stringify (JArr elems)
             = m +:+ " (occurred " +:+ pretty (length elems) +:+ " times)")
  /\ (forall e, e ∈ elems ->
                Js.includes (stringifyErrors JSON_stringify (JArr elems))
                            (stringifyErrors JSON_stringify e) = true).
Proof.
  cbn [stringifyErrors]. split.
  - intros m Hm Hlen Hall.
    rewrite <- (length_map (stringifyErrors JSON_stringify) elems).
    apply consolidate_same; [done | by rewrite length_map |].
    apply Forall_forall. intros x [e [-> He]]%elem_of_map.
    symmetry. revert e He. by apply Forall_forall.
  - intros e He. apply consolidate_keeps, elem_of_map. by exists e.
Qed.

Lemma stringify_array_consolidates_witness :
  stringifyErrors Demo.JSON_stringify
    (JArr [JStr "Required field missing"; JError "Error" "Required field missing";
           JObj [("message", JStr "Required field missing")]])
  = "Required field missing (occurred 3 times)".
Proof.
  apply (proj1 (stringify_array_consolidates Demo.JSON_stringify
                  [JStr "Required field missing"; JError "Error" "Required field missing";
                   JObj [("message", JStr "Required field missing")]])
               "Required field missing").
  - discriminate.
  - simpl. lia.
  - repeat constructor.
Defined.

(** The claim as written fails on an array of one element: the message comes
    back without the suffix.  It also fails when the common message is
    empty, since [filter(Boolean)] drops empty messages. *)
Lemma stringify_single_element_not_suffixed :
  stringifyErrors Demo.JSON_stringify (JArr [JStr "Required field missing"])
  = "Required field missing"
  /\ stringifyErrors Demo.JSON_stringify (JArr [JStr "Required field missing"])
     <> "Required field missing (occurred 1 times)"
  /\ stringifyErrors Demo.JSON_stringify (JArr [JStr ""; JStr ""]) = "".
Proof. split; [reflexivity | split; [discriminate | reflexivity]]. Qed.

(** ** The engine monad *)

Section MonadLaws.

Context {World : Type}.
Implicit Types s : EngineState World.

Lemma bind_ok {A B : Type} (m : @M World A) (k : A -> @M World B) s s' a :
  m s = (s', Ok a) -> bind m k s = k a s'.
Proof. unfold bind. by intros ->. Qed.

Lemma bind_throw {A B : Type} (m : @M World A) (k : A -> @M World B) s s' e :
  m s = (s', Throw e) -> bind m k s = (s', Throw e).
Proof. unfold bind. by intros ->. Qed.

Lemma tryCatch_ok {A : Type} (body : @M World A) (h : jsval -> @M World A) s s' a :
  body s = (s', Ok a) -> tryCatch body h s = (s', Ok a).
Proof. unfold tryCatch. by intros ->. Qed.

Lemma tryCatch_throw {A : Type} (body : @M World A) (h : jsval -> @M World A) s s' e :
  body s = (s', Throw e) -> tryCatch body h s = h e s'.
Proof. unfold tryCatch. by intros ->. Qed.

(** *** Computations that always return *)

Lemma returns_ret {A : Type} (a : A) : returns (World:=World) (ret a).
Proof. intros s. by exists s, a. Qed.

Lemma returns_bind {A B : Type} (m : @M World A) (k : A -> @M World B) :
  returns m -> (forall a, returns (k a)) -> returns (World:=World) (bind m k).
Proof.
  intros Hm Hk s. destruct (Hm s) as (s1 & a & E).
  rewrite (bind_ok _ _ _ _ _ E). apply Hk.
Qed.

Lemma returns_tryCatch {A : Type} (body : @M World A) (h : jsval -> @M World A) :
  (forall e, returns (h e)) -> returns (World:=World) (tryCatch body h).
Proof.
  intros Hh s. unfold tryCatch. destruct (body s) as [s1 [a|e]]; [by exists s1, a|].
  apply Hh.
Qed.

Lemma returns_forEach {A : Type} (xs : list A) (body : A -> @M World unit) :
  (forall x, returns (body x)) -> returns (World:=World) (forEach xs body).
Proof.
  intros Hb. induction xs as [|x xs IH]; simpl; [apply returns_ret|].
  apply returns_bind; [apply Hb | intros _; apply IH].
Qed.

Lemma returns_withResult f : returns (World:=World) (withResult f).
Proof. intros s. by eexists _, tt. Qed.

Lemma returns_withMapping f : returns (World:=World) (withMapping f).
Proof. intros s. by eexists _, tt. Qed.

(** *** Relations every step of a computation keeps *)

Section Respects.

Variable R : relation (EngineState World).
Context `{!PreOrder R}.

Lemma respects_ret {A : Type} (a : A) : respects R (ret a).
Proof. intros s. simpl. reflexivity. Qed.

Lemma respects_throw {A : Type} (e : jsval) : respects R (throw (A:=A) e).
Proof. intros s. simpl. reflexivity. Qed.

Lemma respects_bind {A B : Type} (m : @M World A) (k : A -> @M World B) :
  respects R m -> (forall a, respects R (k a)) -> respects R (bind m k).
Proof.
  intros Hm Hk s. specialize (Hm s). unfold bind.
  destruct (m s) as [s1 [a|e]]; simpl in *; [|done].
  etrans; [exact Hm | apply Hk].
Qed.

Lemma respects_tryCatch {A : Type} (body : @M World A) (h : jsval -> @M World A) :
  respects R body -> (forall e, respects R (h e)) -> respects R (tryCatch body h).
Proof.
  intros Hb Hh s. specialize (Hb s). unfold tryCatch.
  destruct (body s) as [s1 [a|e]]; simpl in *; [done|].
  etrans; [exact Hb | apply Hh].
Qed.

Lemma respects_forEach {A : Type} (xs : list A) (body : A -> @M World unit) :
  (forall x, respects R (body x)) -> respects R (forEach xs body).
Proof.
  intros Hb. induction xs as [|x xs IH]; simpl; [apply respects_ret|].
  apply respects_bind; [apply Hb | intros _; apply IH].
Qed.

End Respects.

End MonadLaws.

(** ** What every engine function keeps *)

Section EngineFacts.

Context {World : Type}.
Variable JSON_stringify : jsval -> string.
Variable remote : RemoteApi World.
Implicit Types s : EngineState World.

Section Generic.

Variable R : relation (EngineState World).
Context `{!PreOrder R}.
Hypothesis R_push : forall msg, respects R (pushError msg).
Hypothesis R_map : forall f, respects R (withMapping f).
Hypothesis R_query : forall side conn soql, respects R (query remote side conn soql).

Lemma respects_fetchChunks src soqlOf chunks acc :
  respects R (fetchChunks remote src soqlOf chunks acc).
Proof.
  revert acc. induction chunks as [|chunk chunks IH]; intros acc; simpl.
  - by apply respects_ret.
  - apply respects_bind; [done | apply R_query | intros resp; apply IH].
Qed.

Lemma respects_lookupParent tgt parentObject externalIdField parentRecord :
  respects R (lookupParent JSON_stringify remote tgt parentObject externalIdField parentRecord).
Proof.
  unfold lookupParent. destruct (negb _); [by apply respects_ret|].
  apply respects_tryCatch; [done | | intros e; apply R_push].
  apply respects_bind; [done | apply R_query |].
  intros [|first rest]; [apply R_push | apply R_map].
Qed.

Lemma respects_handleUpsertModeParents parentObject parentIds options :
  respects R (handleUpsertModeParents JSON_stringify remote parentObject parentIds options).
Proof.
  intros s. unfold handleUpsertModeParents.
  destruct (sourceConn s) as [src|], (targetConn s) as [tgt|],
    (externalIdMapping options) as [mapping|]; simpl; try reflexivity.
  destruct (externalIdFieldOf mapping parentObject) as [externalIdField|]; [|apply R_push].
  apply respects_tryCatch; [done | | intros e; apply R_push].
  apply respects_bind; [done | apply respects_fetchChunks |].
  intros parentRecords. apply respects_forEach; [done|].
  intros parentRecord. apply respects_lookupParent.
Qed.

Lemma respects_resolveParent_upsert options entry :
  transferMode options = Some Upsert ->
  respects R (resolveParent JSON_stringify remote options entry).
Proof.
  intros Hmode. destruct entry as [parentObject ids]. unfold resolveParent.
  destruct ids; [by apply respects_ret|].
  rewrite Hmode. apply respects_handleUpsertModeParents.
Qed.

Lemma respects_ensureParentRecordsExistNew_upsert objectType metadata batch options :
  transferMode options = Some Upsert ->
  respects R (ensureParentRecordsExistNew JSON_stringify remote objectType metadata batch options).
Proof.
  intros Hmode s. unfold ensureParentRecordsExistNew.
  destruct (sourceConn s), (targetConn s); simpl; try reflexivity.
  destruct (referenceFieldsOf metadata) as [|ref refs]; [simpl; reflexivity|].
  apply respects_bind; [done | apply R_map |]. intros _.
  apply respects_bind; [done | | intros _; intros s'; simpl; reflexivity].
  apply respects_forEach; [done|]. intros entry. by apply respects_resolveParent_upsert.
Qed.

Hypothesis R_describe : forall side conn t, respects R (describe remote side conn t).
Hypothesis R_create :
  forall side conn t records, respects R (create remote side conn t records).

Lemma respects_mapInserted parentObject parentRecords i insertResult :
  respects R (mapInserted JSON_stringify parentObject parentRecords i insertResult).
Proof.
  revert i. induction insertResult as [|r rest IH]; intros i; simpl.
  - by apply respects_ret.
  - apply respects_bind; [done | | intros _; apply IH].
    destruct (save_success r && truthy (save_id r)); [|apply R_push].
    destruct (parentRecords !! i); [apply R_map | by apply respects_throw].
Qed.

Lemma respects_handleInsertModeParents parentObject parentIds :
  respects R (handleInsertModeParents JSON_stringify remote parentObject parentIds).
Proof.
  intros s. unfold handleInsertModeParents.
  destruct (sourceConn s) as [src|], (targetConn s) as [tgt|]; simpl; try reflexivity.
  apply respects_tryCatch; [done | | intros e; apply R_push].
  apply respects_bind; [done | apply R_describe |]. intros parentDescribe.
  destruct (parentInsertableFields parentDescribe); [by apply respects_ret|].
  apply respects_bind; [done | apply respects_fetchChunks |]. intros parentRecords.
  destruct parentRecords; [by apply respects_ret|].
  apply respects_bind; [done | apply R_create |].
  intros [r|rs]; [by apply respects_ret | apply respects_mapInserted].
Qed.

Lemma respects_resolveParent options entry :
  respects R (resolveParent JSON_stringify remote options entry).
Proof.
  destruct entry as [parentObject ids]. unfold resolveParent.
  destruct ids; [by apply respects_ret|].
  destruct (transferMode options) as [[|]|].
  - apply respects_handleInsertModeParents.
  - apply respects_handleUpsertModeParents.
  - by apply respects_ret.
Qed.

Lemma respects_ensureParentRecordsExistNew objectType metadata batch options :
  respects R (ensureParentRecordsExistNew JSON_stringify remote objectType metadata batch options).
Proof.
  intros s. unfold ensureParentRecordsExistNew.
  destruct (sourceConn s), (targetConn s); simpl; try reflexivity.
  destruct (referenceFieldsOf metadata) as [|ref refs]; [simpl; reflexivity|].
  apply respects_bind; [done | apply R_map |]. intros _.
  apply respects_bind; [done | | intros _; intros s'; simpl; reflexivity].
  apply respects_forEach; [done|]. intros entry. apply respects_resolveParent.
Qed.

Hypothesis R_add : forall n, respects R (addTransferred n).

Lemma respects_handleInsertResult objectType insertResult :
  respects R (handleInsertResult JSON_stringify objectType insertResult).
Proof.
  destruct insertResult as [r|rs]; simpl.
  - destruct (save_success r); [apply R_add | apply R_push].
  - apply respects_bind; [done | apply R_add |]. intros _.
    apply respects_forEach; [done|]. intros failure. apply R_push.
Qed.

Lemma respects_transferBatch tgt objectType metadata options batch :
  respects R (transferBatch JSON_stringify remote tgt objectType metadata options batch).
Proof.
  unfold transferBatch. apply respects_bind; [done | |].
  - destruct (includeRelationships options); [|by apply respects_ret].
    apply respects_bind; [done | apply respects_ensureParentRecordsExistNew |].
    intros idMap. by apply respects_ret.
  - intros cleanedBatch. apply respects_bind; [done | apply R_create |].
    intros insertResult. apply respects_handleInsertResult.
Qed.

Lemma respects_transferObjectRecordsBody src tgt objectType options :
  respects R (transferObjectRecordsBody JSON_stringify remote src tgt objectType options).
Proof.
  unfold transferObjectRecordsBody.
  apply respects_bind; [done | apply R_describe |]. intros metadata.
  apply respects_bind; [done | apply R_query |]. intros records.
  destruct records; [by apply respects_ret|].
  apply respects_forEach; [done|]. intros batch. apply respects_transferBatch.
Qed.

Lemma respects_transferObjectRecords objectType options :
  respects R (transferObjectRecords JSON_stringify remote objectType options).
Proof.
  intros s. unfold transferObjectRecords.
  destruct (sourceConn s) as [src|], (targetConn s) as [tgt|]; simpl; try reflexivity.
  apply respects_tryCatch; [done | apply respects_transferObjectRecordsBody |].
  intros e. apply R_push.
Qed.

Lemma respects_transferByQuery soql options :
  respects R (transferByQuery JSON_stringify remote soql options).
Proof.
  intros s. unfold transferByQuery.
  destruct (sourceConn s) as [src|], (targetConn s) as [tgt|]; simpl; try reflexivity.
  destruct (parseFromObject soql) as [objectType|]; [|simpl; reflexivity].
  apply respects_tryCatch; [done | | intros e; apply R_push].
  unfold transferByQueryBody.
  apply respects_bind; [done | apply R_query |]. intros records.
  destruct records; [by apply respects_ret|].
  apply respects_bind; [done | apply R_describe |]. intros metadata.
  apply respects_forEach; [done|]. intros batch. apply respects_transferBatch.
Qed.

End Generic.

(** *** The resolver returns from every state *)

Lemma returns_pushError msg : returns (World:=World) (pushError msg).
Proof. apply returns_withResult. Qed.

Lemma returns_handleUpsertModeParents parentObject parentIds options :
  returns (handleUpsertModeParents JSON_stringify remote parentObject parentIds options).
Proof.
  intros s. unfold handleUpsertModeParents.
  destruct (sourceConn s) as [src|], (targetConn s) as [tgt|],
    (externalIdMapping options) as [mapping|]; try by exists s, tt.
  destruct (externalIdFieldOf mapping parentObject); [|apply returns_pushError].
  apply returns_tryCatch. intros e. apply returns_pushError.
Qed.

Lemma returns_handleInsertModeParents parentObject parentIds :
  returns (handleInsertModeParents JSON_stringify remote parentObject parentIds).
Proof.
  intros s. unfold handleInsertModeParents.
  destruct (sourceConn s) as [src|], (targetConn s) as [tgt|]; try by exists s, tt.
  apply returns_tryCatch. intros e. apply returns_pushError.
Qed.

Lemma returns_resolveParent options entry :
  returns (resolveParent JSON_stringify remote options entry).
Proof.
  destruct entry as [parentObject ids]. unfold resolveParent.
  destruct ids; [apply returns_ret|].
  destruct (transferMode options) as [[|]|].
  - apply returns_handleInsertModeParents.
  - apply returns_handleUpsertModeParents.
  - apply returns_ret.
Qed.

Lemma returns_ensureParentRecordsExistNew objectType metadata batch options :
  returns (ensureParentRecordsExistNew JSON_stringify remote objectType metadata batch options).
Proof.
  intros s. unfold ensureParentRecordsExistNew.
  destruct (sourceConn s), (targetConn s); try by exists s, ∅.
  destruct (referenceFieldsOf metadata) as [|ref refs]; [by exists s, ∅|].
  apply returns_bind; [apply returns_withMapping|]. intros _.
  apply returns_bind.
  - apply returns_forEach. intros entry. apply returns_resolveParent.
  - intros _ s'. by exists s', (idMapping s').
Qed.

(** *** Growing the log *)

Global Instance extendsWith_preorder phi : PreOrder (extendsWith (World:=World) phi).
Proof.
  split.
  - intros s. repeat split. exists []. by rewrite app_nil_r.
  - intros s1 s2 s3 (Hs & Ht & evs & He & Hphi) (Hs' & Ht' & evs' & He' & Hphi').
    repeat split; [congruence | congruence |].
    exists (evs ++ evs')%list. split.
    + by rewrite He', He, app_assoc.
    + by apply Forall_app.
Qed.

Lemma extendsWith_withResult phi f : respects (extendsWith phi) (withResult (World:=World) f).
Proof. intros s. repeat split. exists []. by rewrite app_nil_r. Qed.

Lemma extendsWith_pushError phi msg : respects (extendsWith phi) (pushError (World:=World) msg).
Proof. apply extendsWith_withResult. Qed.

Lemma extendsWith_addTransferred phi n :
  respects (extendsWith phi) (addTransferred (World:=World) n).
Proof. apply extendsWith_withResult. Qed.

Lemma extendsWith_withMapping phi f : respects (extendsWith phi) (withMapping (World:=World) f).
Proof. intros s. repeat split. exists []. by rewrite app_nil_r. Qed.

Lemma extendsWith_logged {A : Type} phi (run : World -> World * Outcome A) event :
  (forall r, phi (event r)) -> respects (extendsWith phi) (logged run event).
Proof.
  intros Hphi s. unfold logged. destruct (run (world s)) as [w r]. simpl.
  repeat split. exists [event r]. split; [done|]. by constructor.
Qed.

End EngineFacts.

(** ** RelationshipResolver in upsert mode *)

(** C10. In upsert mode relationship resolution returns its map after
    issuing queries only, whatever the lookups find: every call it logs is
    a query, none a create. *)
Theorem upsert_resolution_only_queries {World : Type} (JSON_stringify : jsval -> string)
    (remote : RemoteApi World) (objectType : string) (metadata : DescribeResult)
    (batch : list jsobj) (options : DataTransferOptions) (s : EngineState World) :
  transferMode options = Some Upsert ->
  exists s' idMap evs,
    ensureParentRecordsExistNew JSON_stringify remote objectType metadata batch options s
      = (s', Ok idMap)
    /\ trace s' = (trace s ++ evs)%list
    /\ Forall (fun e => isQuery e = true /\ isCreate e = false) evs.
Proof.
  intros Hmode.
  destruct (returns_ensureParentRecordsExistNew JSON_stringify remote
              objectType metadata batch options s) as (s' & idMap & E).
  pose proof (respects_ensureParentRecordsExistNew_upsert JSON_stringify remote
                (extendsWith (fun e => isQuery e = true /\ isCreate e = false))
                (extendsWith_pushError _) (extendsWith_withMapping _)
                (fun side conn soql => extendsWith_logged _ _ _ (fun r => conj eq_refl eq_refl))
                objectType metadata batch options Hmode s) as (_ & _ & evs & Ht & Hq).
  rewrite E in Ht. simpl in Ht. by exists s', idMap, evs.
Qed.

Lemma upsert_resolution_only_queries_witness :
  exists s' idMap evs,
    ensureParentRecordsExistNew Demo.JSON_stringify (Demo.remote Demo.fiveContacts [])
      "Contact" Demo.contactSchema (take 2 Demo.fiveContacts)
      (Demo.options ["Contact"] true 2 (Some {["Account" := "Ext__c"]}) Upsert) Demo.state
      = (s', Ok idMap)
    /\ trace s' = (trace Demo.state ++ evs)%list
    /\ Forall (fun e => isQuery e = true /\ isCreate e = false) evs.
Proof. apply upsert_resolution_only_queries. reflexivity. Defined.

(** ** TransferOrchestrator *)

Section Orchestrator.

Context {World : Type}.
Variable JSON_stringify : jsval -> string.
Variable remote : RemoteApi World.
Implicit Types s : EngineState World.

Lemma tryCatch_bind {A B : Type} (m : @M World A) (k : A -> @M World B)
    (h : jsval -> @M World B) s :
  tryCatch (bind m k) h s
  = match m s with
    | (s1, Ok a) => tryCatch (k a) h s1
    | (s1, Throw e) => h e s1
    end.
Proof. unfold tryCatch, bind. by destruct (m s) as [s1 [a|e]]. Qed.

Ltac engine_steps :=
  first [ apply extendsWith_pushError | apply extendsWith_addTransferred
        | apply extendsWith_withMapping
        | intros; apply extendsWith_logged; intros; exact I
        | apply _ ].

Lemma extends_transferObjectRecords objectType options :
  respects (extendsWith (fun _ => True))
           (transferObjectRecords JSON_stringify remote objectType options).
Proof. apply respects_transferObjectRecords; engine_steps. Qed.

Lemma extends_transferObjectRecordsBody src tgt objectType options :
  respects (extendsWith (fun _ => True))
           (transferObjectRecordsBody JSON_stringify remote src tgt objectType options).
Proof. apply respects_transferObjectRecordsBody; engine_steps. Qed.

Lemma extends_transferByQuery soql options :
  respects (extendsWith (fun _ => True))
           (transferByQuery JSON_stringify remote soql options).
Proof. apply respects_transferByQuery; engine_steps. Qed.

Lemma connectedTo_extends phi src tgt s s' :
  extendsWith phi s s' -> connectedTo src tgt s -> connectedTo src tgt s'.
Proof. intros (Hs & Ht & _) [? ?]. split; congruence. Qed.

(** The [try]/[catch] of [transferObjectRecords]: what its body throws
    becomes one more entry of the error list. *)
Lemma transferObjectRecords_catches objectType options src tgt s :
  connectedTo src tgt s ->
  match transferObjectRecordsBody JSON_stringify remote src tgt objectType options s with
  | (s1, Ok _) =>
      transferObjectRecords JSON_stringify remote objectType options s = (s1, Ok tt)
  | (s1, Throw e) =>
      transferObjectRecords JSON_stringify remote objectType options s
      = pushError ("Error transferring " +:+ objectType +:+ ": "
                   +:+ stringifyErrors JSON_stringify e) s1
  end.
Proof.
  intros [Hs Ht]. unfold transferObjectRecords. rewrite Hs, Ht. unfold tryCatch.
  by destruct (transferObjectRecordsBody _ _ _ _ _ _ s) as [s1 [[]|e]].
Qed.

Lemma transferObjectRecords_returns objectType options src tgt s :
  connectedTo src tgt s ->
  exists s', transferObjectRecords JSON_stringify remote objectType options s = (s', Ok tt).
Proof.
  intros Hc. pose proof (transferObjectRecords_catches objectType options src tgt s Hc) as H.
  destruct (transferObjectRecordsBody _ _ _ _ _ _ s) as [s1 [[]|e]]; rewrite H; by eexists.
Qed.

(** The first call of an entity type's pipeline is its describe. *)
Lemma transferObjectRecords_describes objectType options src tgt s :
  connectedTo src tgt s ->
  exists r evs,
    trace (fst (transferObjectRecords JSON_stringify remote objectType options s))
    = (trace s ++ EvDescribe Source objectType r :: evs)%list.
Proof.
  intros [Hs Ht]. unfold transferObjectRecords. rewrite Hs, Ht.
  unfold transferObjectRecordsBody. rewrite tryCatch_bind.
  unfold describe at 1, logged at 1.
  destruct (remote_describe remote src objectType (world s)) as [w [metadata|e]].
  - match goal with |- context [tryCatch ?m ?h ?s0] =>
      assert (Hext : extendsWith (fun _ => True) s0 (fst (tryCatch m h s0))) end.
    { apply respects_tryCatch; [apply _ | | intros e; engine_steps].
      apply respects_bind; [apply _ | engine_steps |]. intros records.
      destruct records; [apply respects_ret; apply _|].
      apply respects_forEach; [apply _|]. intros batch.
      apply respects_transferBatch; engine_steps. }
    destruct Hext as (_ & _ & evs & He & _). simpl in He.
    exists (Ok metadata), evs. rewrite He. by rewrite <- app_assoc.
  - exists (Throw e), []. reflexivity.
Qed.

Lemma forEach_transferObjectRecords types options src tgt s :
  connectedTo src tgt s ->
  exists s',
    forEach types (fun objectType =>
                     transferObjectRecords JSON_stringify remote objectType options) s
      = (s', Ok tt)
    /\ extendsWith (fun _ => True) s s'
    /\ forall objectType, objectType ∈ types ->
         exists r, EvDescribe Source objectType r ∈ trace s'.
Proof.
  revert s. induction types as [|t types IH]; intros s Hc; simpl.
  - exists s. split; [done|]. split; [reflexivity|]. by intros ? ?%elem_of_nil.
  - destruct (transferObjectRecords_returns t options src tgt s Hc) as (s1 & E1).
    pose proof (extends_transferObjectRecords t options s) as Hext1.
    destruct (transferObjectRecords_describes t options src tgt s Hc) as (r & evs & Hd).
    rewrite E1 in Hext1, Hd. simpl in Hext1, Hd.
    destruct (IH s1 (connectedTo_extends _ _ _ _ _ Hext1 Hc)) as (s' & E' & Hext' & Hall).
    exists s'. rewrite (bind_ok _ _ _ _ _ E1). split; [done|].
    split; [by etrans|].
    intros objectType [-> | Hin]%elem_of_cons; [|by apply Hall].
    exists r. destruct Hext' as (_ & _ & evs' & -> & _). rewrite Hd.
    rewrite !elem_of_app, elem_of_cons. auto.
Qed.

Lemma transferData_connected options src tgt s :
  connectedTo src tgt s ->
  transferData JSON_stringify remote options s
  = tryCatch
      (match customQueryGiven options with
       | Some soql =>
           bind (transferByQuery JSON_stringify remote soql (withDefaultMode options))
                (fun _ => bind setSuccess (fun _ => getResult))
       | None =>
           match objectTypes options with
           | None => throw (newError "No object types provided for transfer")
           | Some types =>
               bind (forEach types (fun objectType =>
                       transferObjectRecords JSON_stringify remote objectType
                                             (withDefaultMode options)))
                    (fun _ => bind setSuccess (fun _ => getResult))
           end
       end)
      (fun error => bind (pushError ("Transfer failed: " +:+ js_String error))
                         (fun _ => getResult))
      (resetResult s).
Proof. intros [Hs Ht]. unfold transferData. by rewrite Hs, Ht. Qed.

Lemma transferByQuery_returns soql objectType options src tgt s :
  connectedTo src tgt s -> parseFromObject soql = Some objectType ->
  exists s', transferByQuery JSON_stringify remote soql options s = (s', Ok tt).
Proof.
  intros [Hs Ht] Hp. unfold transferByQuery. rewrite Hs, Ht, Hp.
  match goal with |- context [tryCatch ?m ?h s] =>
    destruct (returns_tryCatch m h (fun e => returns_pushError _) s) as (s' & [] & E) end.
  by exists s'.
Qed.


Lemma transferData_disconnected options s :
  sourceConn s = None \/ targetConn s = None ->
  transferData JSON_stringify remote options s = (s, Throw connectionsMissing).
Proof.
  unfold transferData. intros [-> | ->]; [done|]. by destruct (sourceConn s).
Qed.

(** The shapes a finished run can have: the [try] ran through and set
    [success] from the error list, or it threw before touching anything and
    the handler recorded the one failure. *)
Lemma transferData_outcome options src tgt s :
  connectedTo src tgt s ->
  exists s' r,
    transferData JSON_stringify remote options s = (s', Ok r)
    /\ r = result s'
    /\ (success r = bool_decide (errors r = [])
        \/ exists msg, r = mkResult false 0 [msg] /\ trace s' = trace s
                       /\ ((exists soql, customQueryGiven options = Some soql
                                         /\ parseFromObject soql = None
                                         /\ msg = "Transfer failed: Error: Unable to determine object type from SOQL query")
                           \/ (customQueryGiven options = None
                               /\ objectTypes options = None))).
Proof.
  intros Hc. rewrite (transferData_connected options src tgt s Hc).
  assert (Hc0 : connectedTo src tgt (resetResult s)) by (destruct Hc; by split).
  destruct (customQueryGiven options) as [soql|] eqn:Hq.
  - destruct (parseFromObject soql) as [objectType|] eqn:Hp.
    + destruct (transferByQuery_returns soql objectType (withDefaultMode options)
                  src tgt _ Hc0 Hp) as (s1 & E1).
      rewrite tryCatch_bind, E1. eexists _, _. split; [reflexivity|].
      split; [reflexivity|]. left. reflexivity.
    + rewrite tryCatch_bind. unfold transferByQuery at 1.
      destruct Hc0 as [-> ->]. rewrite Hp.
      eexists _, _. split; [reflexivity|]. split; [reflexivity|].
      right. eexists. split; [reflexivity|]. split; [reflexivity|].
      left. by exists soql.
  - destruct (objectTypes options) as [types|] eqn:Ho.
    + destruct (forEach_transferObjectRecords types (withDefaultMode options) src tgt _ Hc0)
        as (s1 & E1 & _).
      rewrite tryCatch_bind, E1. eexists _, _. split; [reflexivity|].
      split; [reflexivity|]. left. reflexivity.
    + eexists _, _. split; [reflexivity|]. split; [reflexivity|].
      right. eexists. split; [reflexivity|]. split; [reflexivity|]. by right.
Qed.

End Orchestrator.

Section Failures.

Context {World : Type}.
Variable JSON_stringify : jsval -> string.
Variable remote : RemoteApi World.
Implicit Types s : EngineState World.

Global Instance errorsGrow_preorder : PreOrder (errorsGrow (World:=World)).
Proof.
  split.
  - intros s. exists []. by rewrite app_nil_r.
  - intros s1 s2 s3 [m1 H1] [m2 H2]. exists (m1 ++ m2)%list. by rewrite H2, H1, app_assoc.
Qed.

Lemma errorsGrow_pushError msg : respects errorsGrow (pushError (World:=World) msg).
Proof. intros s. by exists [msg]. Qed.

Lemma errorsGrow_same s s' : result s' = result s -> errorsGrow s s'.
Proof. intros H. exists []. by rewrite H, app_nil_r. Qed.

Lemma errorsGrow_addTransferred n : respects errorsGrow (addTransferred (World:=World) n).
Proof. intros s. exists []. simpl. by rewrite app_nil_r. Qed.

Lemma errorsGrow_withMapping f : respects errorsGrow (withMapping (World:=World) f).
Proof. intros s. by apply errorsGrow_same. Qed.

Lemma errorsGrow_logged {A : Type} (run : World -> World * Outcome A) event :
  respects errorsGrow (logged run event).
Proof. intros s. unfold logged. destruct (run (world s)) as [w r]. by apply errorsGrow_same. Qed.

Lemma errorsGrow_transferObjectRecords objectType options :
  respects errorsGrow (transferObjectRecords JSON_stringify remote objectType options).
Proof.
  apply respects_transferObjectRecords;
    first [ apply errorsGrow_pushError | apply errorsGrow_addTransferred
          | apply errorsGrow_withMapping | intros; apply errorsGrow_logged | apply _ ].
Qed.

(** The [try]/[catch] of [transferObjectRecords], with the state it leaves:
    what the body throws is one more entry at the end of the error list,
    and nothing else changes. *)
Lemma transferObjectRecords_caught objectType options src tgt s :
  connectedTo src tgt s ->
  match transferObjectRecordsBody JSON_stringify remote src tgt objectType options s with
  | (s1, Ok _) =>
      transferObjectRecords JSON_stringify remote objectType options s = (s1, Ok tt)
  | (s1, Throw e) =>
      transferObjectRecords JSON_stringify remote objectType options s
      = (mkState (world s1) (trace s1) (sourceConn s1) (targetConn s1)
           (mkResult (success (result s1)) (recordsTransferred (result s1))
                     (errors (result s1)
                      ++ ["Error transferring " +:+ objectType +:+ ": "
                          +:+ stringifyErrors JSON_stringify e]))
           (idMapping s1),
         Ok tt)
  end.
Proof.
  intros [Hs Ht]. unfold transferObjectRecords. rewrite Hs, Ht. unfold tryCatch.
  by destruct (transferObjectRecordsBody _ _ _ _ _ _ s) as [s1 [[]|e]].
Qed.

(** The same for the [try]/[catch] of [transferByQuery]. *)
Lemma transferByQuery_caught soql objectType options src tgt s :
  connectedTo src tgt s ->
  parseFromObject soql = Some objectType ->
  match transferByQueryBody JSON_stringify remote src tgt soql objectType options s with
  | (s1, Ok _) =>
      transferByQuery JSON_stringify remote soql options s = (s1, Ok tt)
  | (s1, Throw e) =>
      transferByQuery JSON_stringify remote soql options s
      = (mkState (world s1) (trace s1) (sourceConn s1) (targetConn s1)
           (mkResult (success (result s1)) (recordsTransferred (result s1))
                     (errors (result s1)
                      ++ ["Error transferring by query for " +:+ objectType +:+ ": "
                          +:+ stringifyErrors JSON_stringify e]))
           (idMapping s1),
         Ok tt)
  end.
Proof.
  intros [Hs Ht] Hp. unfold transferByQuery. rewrite Hs, Ht, Hp. unfold tryCatch.
  by destruct (transferByQueryBody _ _ _ _ _ _ _ s) as [s1 [[]|e]].
Qed.

(** The loop over the entity types, cut at one of them: the types before it
    have run, it runs from the state they leave, and what it adds to the
    error list is still there when the loop ends. *)
Lemma forEach_transferObjectRecords_at before objectType after options src tgt s :
  connectedTo src tgt s ->
  exists s0 s1 s',
    forEach before (fun t => transferObjectRecords JSON_stringify remote t options) s
      = (s0, Ok tt)
    /\ connectedTo src tgt s0
    /\ transferObjectRecords JSON_stringify remote objectType options s0 = (s1, Ok tt)
    /\ forEach (before ++ objectType :: after)
               (fun t => transferObjectRecords JSON_stringify remote t options) s
       = (s', Ok tt)
    /\ errorsGrow s1 s'.
Proof.
  revert s. induction before as [|t before IH]; intros s Hc.
  - destruct (transferObjectRecords_returns JSON_stringify remote objectType options
                src tgt s Hc) as (s1 & E1).
    pose proof (extends_transferObjectRecords JSON_stringify remote objectType options s)
      as Hext. rewrite E1 in Hext. cbn [fst] in Hext.
    destruct (forEach_transferObjectRecords JSON_stringify remote after options src tgt s1
                (connectedTo_extends _ _ _ _ _ Hext Hc)) as (s' & E' & _).
    exists s, s1, s'. split; [done|]. split; [done|]. split; [done|].
    cbn [app forEach]. rewrite (bind_ok _ _ _ _ _ E1). split; [done|].
    pose proof (respects_forEach errorsGrow after
                  (fun t => transferObjectRecords JSON_stringify remote t options)
                  (fun t => errorsGrow_transferObjectRecords t options) s1) as Hg.
    by rewrite E' in Hg.
  - destruct (transferObjectRecords_returns JSON_stringify remote t options
                src tgt s Hc) as (st & Et).
    pose proof (extends_transferObjectRecords JSON_stringify remote t options s) as Hext.
    rewrite Et in Hext. cbn [fst] in Hext.
    destruct (IH st (connectedTo_extends _ _ _ _ _ Hext Hc))
      as (s0 & s1 & s' & E0 & Hc0 & E1 & E' & Hg).
    exists s0, s1, s'. cbn [app forEach]. rewrite !(bind_ok _ _ _ _ _ Et). done.
Qed.

End Failures.

(** C3. With both connections in place a run always returns a
    [TransferResult], and it throws only when a connection is missing.  A
    failure inside an entity type's extract/resolve/write pipeline is
    caught and its text becomes the last entry of the error list
    (["Error transferring <type>: <text>"], or
    ["Error transferring by query for <type>: <text>"] on the custom-query
    path), nothing else of the state changing.  In a run over a list of
    entity types every type gets its pipeline started (its describe is
    issued) from the state the types before it leave, and for a type
    whose pipeline fails the entry is in the error list of the returned
    result, whose [success] is then false. *)
Theorem entity_failures_do_not_abort_the_run {World : Type}
    (JSON_stringify : jsval -> string) (remote : RemoteApi World)
    (options : DataTransferOptions) (s : EngineState World) :
  (forall src tgt, connectedTo src tgt s ->
     (exists s' r, transferData JSON_stringify remote options s = (s', Ok r))
     /\ (forall types,
           customQueryGiven options = None -> objectTypes options = Some types ->
           exists s' r,
             transferData JSON_stringify remote options s = (s', Ok r)
             /\ r = result s'
             /\ forall before objectType after,
                  types = (before ++ objectType :: after)%list ->
                  exists s0,
                    forEach before
                      (fun t => transferObjectRecords JSON_stringify remote t
                                  (withDefaultMode options))
                      (resetResult s) = (s0, Ok tt)
                    /\ (exists d, EvDescribe Source objectType d ∈ trace s')
                    /\ forall s1 e,
                         transferObjectRecordsBody JSON_stringify remote src tgt objectType
                           (withDefaultMode options) s0 = (s1, Throw e) ->
                         ("Error transferring " +:+ objectType +:+ ": "
                          +:+ stringifyErrors JSON_stringify e) ∈ errors r
                         /\ success r = false))
  /\ (forall src tgt objectType, connectedTo src tgt s ->
        match transferObjectRecordsBody JSON_stringify remote src tgt objectType options s with
        | (s1, Ok _) =>
            transferObjectRecords JSON_stringify remote objectType options s = (s1, Ok tt)
        | (s1, Throw e) =>
            transferObjectRecords JSON_stringify remote objectType options s
            = (mkState (world s1) (trace s1) (sourceConn s1) (targetConn s1)
                 (mkResult (success (result s1)) (recordsTransferred (result s1))
                           (errors (result s1)
                            ++ ["Error transferring " +:+ objectType +:+ ": "
                                +:+ stringifyErrors JSON_stringify e]))
                 (idMapping s1),
               Ok tt)
        end)
  /\ (forall src tgt soql objectType, connectedTo src tgt s ->
        parseFromObject soql = Some objectType ->
        match transferByQueryBody JSON_stringify remote src tgt soql objectType options s with
        | (s1, Ok _) =>
            transferByQuery JSON_stringify remote soql options s = (s1, Ok tt)
        | (s1, Throw e) =>
            transferByQuery JSON_stringify remote soql options s
            = (mkState (world s1) (trace s1) (sourceConn s1) (targetConn s1)
                 (mkResult (success (result s1)) (recordsTransferred (result s1))
                           (errors (result s1)
                            ++ ["Error transferring by query for " +:+ objectType +:+ ": "
                                +:+ stringifyErrors JSON_stringify e]))
                 (idMapping s1),
               Ok tt)
        end)
  /\ (sourceConn s = None \/ targetConn s = None ->
      transferData JSON_stringify remote options s = (s, Throw connectionsMissing)).
Proof.
  split; [|split; [|split]].
  - intros src tgt Hc. split.
    + destruct (transferData_outcome JSON_stringify remote options src tgt s Hc)
        as (s' & r & E & _). by exists s', r.
    + intros types Hq Ho.
      assert (Hc0 : connectedTo src tgt (resetResult s)) by (destruct Hc; by split).
      destruct (forEach_transferObjectRecords JSON_stringify remote types
                  (withDefaultMode options) src tgt _ Hc0) as (sf & Ef & _ & Hall).
      rewrite (transferData_connected JSON_stringify remote options src tgt s Hc), Hq, Ho.
      rewrite tryCatch_bind, Ef.
      eexists _, _. split; [reflexivity|]. split; [reflexivity|].
      intros before objectType after ->.
      destruct (forEach_transferObjectRecords_at JSON_stringify remote before objectType after
                  (withDefaultMode options) src tgt _ Hc0)
        as (s0 & s1 & s' & E0 & Hc1 & E1 & E' & [more Hmore]).
      rewrite Ef in E'. injection E' as <-.
      exists s0. split; [exact E0|]. split.
      { cbn [trace]. apply Hall. apply elem_of_app. right. by left. }
      intros sb e Hbody.
      pose proof (transferObjectRecords_caught JSON_stringify remote objectType
                    (withDefaultMode options) src tgt s0 Hc1) as Hcaught.
      rewrite Hbody, E1 in Hcaught. injection Hcaught as ->.
      cbn [result errors success] in *. rewrite Hmore. split.
      * rewrite !elem_of_app, list_elem_of_singleton. left. by right.
      * apply bool_decide_eq_false. intros Hnil.
        apply (f_equal (@length string)) in Hnil. rewrite !length_app in Hnil.
        cbn [length] in Hnil. lia.
  - intros src tgt objectType Hc. by apply transferObjectRecords_caught.
  - intros src tgt soql objectType Hc Hp. by apply transferByQuery_caught.
  - apply transferData_disconnected.
Qed.

Lemma entity_failures_do_not_abort_the_run_witness :
  exists s' r,
    transferData Demo.JSON_stringify (Demo.remote Demo.fiveContacts [])
      (Demo.options ["Missing__c"; "Contact"] false 2 None Insert) Demo.state = (s', Ok r)
    /\ "Error transferring Missing__c: Salesforce API error: 404 Not Found - []" ∈ errors r
    /\ success r = false
    /\ exists d, EvDescribe Source "Contact" d ∈ trace s'.
Proof.
  destruct (proj2 (proj1 (entity_failures_do_not_abort_the_run Demo.JSON_stringify
                            (Demo.remote Demo.fiveContacts [])
                            (Demo.options ["Missing__c"; "Contact"] false 2 None Insert)
                            Demo.state)
                         Demo.sourceClient Demo.targetClient (conj eq_refl eq_refl))
              ["Missing__c"; "Contact"] eq_refl eq_refl)
    as (s' & r & E & _ & Hall).
  exists s', r. split; [exact E|].
  destruct (Hall [] "Missing__c" ["Contact"] eq_refl) as (s0 & E0 & _ & Hfail).
  injection E0 as <-.
  destruct (Hall ["Missing__c"] "Contact" [] eq_refl) as (_ & _ & Hd & _).
  edestruct Hfail as [Hin Hs]; [vm_compute; reflexivity|].
  split; [exact Hin|]. split; [exact Hs | exact Hd].
Defined.

(** A run whose first entity type cannot be described still transfers the
    second. *)
Example failing_entity_then_next :
  snd (transferData Demo.JSON_stringify (Demo.remote Demo.fiveContacts [])
         (Demo.options ["Missing__c"; "Contact"] false 2 None Insert) Demo.state)
  = Ok {| success := false;
          recordsTransferred := 5;
          errors := ["Error transferring Missing__c: Salesforce API error: 404 Not Found - []"] |}.
Proof. vm_compute. reflexivity. Qed.

(** C4. The result a run returns is the accumulated [result] object, and its
    [success] is true exactly when its error list is empty. *)
Theorem success_iff_no_errors {World : Type}
    (JSON_stringify : jsval -> string) (remote : RemoteApi World)
    (options : DataTransferOptions) (s s' : EngineState World) (r : TransferResult) :
  transferData JSON_stringify remote options s = (s', Ok r) ->
  r = result s' /\ (success r = true <-> errors r = []).
Proof.
  intros E.
  destruct (sourceConn s) as [src|] eqn:Hs;
    [|by rewrite transferData_disconnected in E by auto].
  destruct (targetConn s) as [tgt|] eqn:Ht;
    [|by rewrite transferData_disconnected in E by auto].
  destruct (transferData_outcome JSON_stringify remote options src tgt s (conj Hs Ht))
    as (s1 & r1 & E1 & Hr & Hcases).
  rewrite E in E1. injection E1 as -> ->. split; [done|].
  destruct Hcases as [-> | (msg & -> & _)].
  - by rewrite bool_decide_eq_true.
  - simpl. split; discriminate.
Qed.

Lemma success_iff_no_errors_witness :
  exists s' r,
    transferData Demo.JSON_stringify (Demo.remote Demo.fiveContacts [])
      (Demo.options ["Missing__c"; "Contact"] false 2 None Insert) Demo.state = (s', Ok r)
    /\ r = result s' /\ (success r = true <-> errors r = []).
Proof.
  eexists _, _. split; [vm_compute; reflexivity|].
  apply (success_iff_no_errors Demo.JSON_stringify (Demo.remote Demo.fiveContacts [])
           (Demo.options ["Missing__c"; "Contact"] false 2 None Insert) Demo.state).
  vm_compute. reflexivity.
Defined.

(** C9. A custom query in which no entity type follows a [FROM] makes the
    run fail before any call is issued: nothing is logged (so no create
    reaches the target), [recordsTransferred] stays 0, and the returned
    result carries the failure as its one error. *)
Theorem unparsable_query_fails_before_any_write {World : Type}
    (JSON_stringify : jsval -> string) (remote : RemoteApi World)
    (options : DataTransferOptions) (soql : string) (s : EngineState World)
    (src tgt : SalesforceRestClient) :
  connectedTo src tgt s ->
  customQuery options = Some soql ->
  Js.trim soql <> "" ->
  parseFromObject soql = None ->
  exists s',
    transferData JSON_stringify remote options s
      = (s', Ok {| success := false;
                   recordsTransferred := 0;
                   errors := ["Transfer failed: Error: Unable to determine object type from SOQL query"] |})
    /\ trace s' = trace s
    /\ world s' = world s.
Proof.
  intros Hc Hq Htrim Hp.
  assert (Hgiven : customQueryGiven options = Some soql).
  { unfold customQueryGiven. rewrite Hq.
    assert (Hne : soql <> "") by (intros ->; by apply Htrim).
    unfold nonEmpty. apply String.eqb_neq in Hne, Htrim. by rewrite Hne, Htrim. }
  rewrite (transferData_connected JSON_stringify remote options src tgt s Hc), Hgiven.
  rewrite tryCatch_bind. unfold transferByQuery at 1.
  destruct Hc as [Hs Ht]. simpl. rewrite Hs, Ht, Hp.
  eexists. split; [reflexivity|]. done.
Qed.

Lemma unparsable_query_fails_before_any_write_witness :
  exists s',
    transferData Demo.JSON_stringify (Demo.remote Demo.fiveContacts [])
      (Demo.queryOptions "SELECT Id, Name FROM ") Demo.state
      = (s', Ok {| success := false;
                   recordsTransferred := 0;
                   errors := ["Transfer failed: Error: Unable to determine object type from SOQL query"] |})
    /\ trace s' = trace Demo.state
    /\ world s' = world Demo.state.
Proof.
  apply (unparsable_query_fails_before_any_write Demo.JSON_stringify
           (Demo.remote Demo.fiveContacts []) (Demo.queryOptions "SELECT Id, Name FROM ")
           "SELECT Id, Name FROM " Demo.state Demo.sourceClient Demo.targetClient).
  - by split.
  - reflexivity.
  - discriminate.
  - reflexivity.
Defined.

(** ** Reference fields of a written record *)

Lemma getProp_deleteProp (o : jsobj) (k k' : string) :
  getProp (deleteProp o k) k' = if String.eqb k k' then None else getProp o k'.
Proof.
  unfold deleteProp. induction o as [|[k0 v] o IH].
  - simpl. by destruct (String.eqb k k').
  - simpl. destruct (String.eqb_spec k0 k) as [-> | Hne]; simpl.
    + rewrite IH. by destruct (String.eqb k k').
    + rewrite IH. destruct (String.eqb_spec k0 k') as [-> | Hne']; [|done].
      apply not_eq_sym, String.eqb_neq in Hne. by rewrite Hne.
Qed.

Lemma getProp_setProp_eq (o : jsobj) (k : string) (v : jsval) :
  getProp (setProp o k v) k = Some v.
Proof.
  induction o as [|[k0 v0] o IH]; simpl.
  - by rewrite String.eqb_refl.
  - destruct (String.eqb k0 k) eqn:E; simpl.
    + by rewrite String.eqb_refl.
    + by rewrite E.
Qed.

Lemma getProp_setProp_ne (o : jsobj) (k k' : string) (v : jsval) :
  k <> k' -> getProp (setProp o k v) k' = getProp o k'.
Proof.
  intros Hne. apply String.eqb_neq in Hne.
  induction o as [|[k0 v0] o IH]; simpl.
  - by rewrite Hne.
  - destruct (String.eqb_spec k0 k) as [-> | Hne0]; simpl.
    + by rewrite Hne.
    + by rewrite IH.
Qed.

(** A loop that only deletes leaves each value as it was, or gone. *)
Lemma foldl_keeps_values (step : jsobj -> string -> jsobj) (keys : list string) (k : string) :
  (forall o key, getProp (step o key) k = None \/ getProp (step o key) k = getProp o k) ->
  forall o, getProp (foldl step o keys) k = None \/ getProp (foldl step o keys) k = getProp o k.
Proof.
  intros Hstep. induction keys as [|key keys IH]; intros o; simpl; [by right|].
  destruct (IH (step o key)) as [H | H]; [by left|].
  rewrite H. apply Hstep.
Qed.

Lemma deleteProp_keeps_value (o : jsobj) (key k : string) :
  getProp (deleteProp o key) k = None \/ getProp (deleteProp o key) k = getProp o k.
Proof. rewrite getProp_deleteProp. destruct (String.eqb key k); auto. Qed.

Lemma removeSystemFields_value (record : jsobj) (k : string) :
  getProp (removeSystemFields record) k = None
  \/ getProp (removeSystemFields record) k = getProp record k.
Proof.
  unfold removeSystemFields, removeTimestamps, removePersonFields, removeListed.
  match goal with |- context [foldl ?f3 (foldl ?f2 (foldl ?f1 record ?l1) ?l2) ?l3] =>
    destruct (foldl_keeps_values f3 l3 k) with (o := foldl f2 (foldl f1 record l1) l2)
      as [H3 | H3];
    [ | by left | rewrite H3;
      destruct (foldl_keeps_values f2 l2 k) with (o := foldl f1 record l1) as [H2 | H2];
      [ | by left | rewrite H2; apply (foldl_keeps_values f1 l1 k) ] ]
  end.
  - intros o key. destruct (matchesDateTime key && isString (getPropOr o key)); [|by right].
    destruct (Js.arrayIncludes systemTimestamps key); [apply deleteProp_keeps_value | by right].
  - intros o key. destruct (Js.endsWith key "__pc"); [apply deleteProp_keeps_value | by right].
  - intros o key. destruct (hasOwnProperty o key); [apply deleteProp_keeps_value | by right].
Qed.

(** What [remapRecord] leaves under a key: the mapped id when the key names
    one of the reference fields and the lookup [srcId && idMap[srcId]] is
    truthy, the cleaned record's own value otherwise. *)
Lemma remapRecord_lookup (refs : list Field) (idMap : gmap string jsval)
    (original cleaned : jsobj) (k : string) :
  getProp (remapRecord refs idMap original cleaned) k
  = if bool_decide (k ∈ map field_name refs)
       && truthy (getPropOr original k)
       && truthy (idMapGet idMap (getPropOr original k))
    then Some (idMapGet idMap (getPropOr original k))
    else getProp cleaned k.
Proof.
  unfold remapRecord. revert cleaned.
  induction refs as [|ref refs IH]; intros cleaned; [done|].
  cbn [foldl map]. rewrite IH.
  destruct (decide (field_name ref = k)) as [<- | Hne].
  - rewrite (bool_decide_eq_true_2 (field_name ref ∈ field_name ref :: _))
      by apply list_elem_of_here.
    destruct (truthy (getPropOr original (field_name ref))
              && truthy (idMapGet idMap (getPropOr original (field_name ref)))) eqn:E.
    + rewrite getProp_setProp_eq.
      apply andb_true_iff in E as [E1 E2]. rewrite E1, E2.
      by destruct (bool_decide _).
    + replace (bool_decide (field_name ref ∈ map field_name refs)
               && truthy (getPropOr original (field_name ref))
               && truthy (idMapGet idMap (getPropOr original (field_name ref))))
        with false; [by rewrite <- andb_assoc, E|].
      by rewrite <- andb_assoc, E, andb_false_r.
  - assert (Hk : bool_decide (k ∈ field_name ref :: map field_name refs)
                 = bool_decide (k ∈ map field_name refs)).
    { apply bool_decide_ext. rewrite elem_of_cons. split; [|by right].
      by intros [-> | ?]. }
    rewrite Hk. destruct (_ && _ && _); [done|].
    destruct (_ && _); [by apply getProp_setProp_ne | done].
Qed.

Lemma idMapGet_truthy (idMap : gmap string jsval) (srcId : jsval) :
  truthy (idMapGet idMap srcId) = true ->
  idMap !! js_String srcId = Some (idMapGet idMap srcId).
Proof. unfold idMapGet. by destruct (idMap !! js_String srcId). Qed.

Lemma idMapGet_empty (srcId : jsval) : idMapGet ∅ srcId = JUndefined.
Proof. unfold idMapGet. by rewrite lookup_empty. Qed.

Lemma remapBatch_empty (metadata : DescribeResult) (batch : list jsobj) :
  remapBatch metadata ∅ batch = map cleanRecord batch.
Proof.
  unfold remapBatch. apply map_ext. intros original. unfold remapRecord.
  generalize (cleanRecord original) as cleaned.
  induction (referenceFieldsOf metadata) as [|ref refs IH]; intros cleaned; [done|].
  cbn [foldl]. rewrite idMapGet_empty. cbn [truthy]. rewrite andb_false_r. apply IH.
Qed.

Section Batches.

Context {World : Type}.
Variable JSON_stringify : jsval -> string.
Variable remote : RemoteApi World.
Implicit Types s : EngineState World.

Lemma handleInsertResult_silent objectType insertResult :
  respects (extendsWith (fun _ => False))
           (handleInsertResult (World:=World) JSON_stringify objectType insertResult).
Proof.
  apply respects_handleInsertResult;
    first [ apply extendsWith_pushError | apply extendsWith_addTransferred | apply _ ].
Qed.

Lemma extendsWith_False_trace s s' :
  extendsWith (fun _ => False) s s' -> trace s' = trace s.
Proof.
  intros (_ & _ & evs & -> & Hall). destruct Hall as [|e evs []].
  by rewrite app_nil_r.
Qed.

(** The records a batch is sent as: the cleaned batch, remapped through the
    map the resolver returned for this batch (the empty map when
    relationships are off).  The create is the last call of the batch. *)
Lemma transferBatch_sends tgt objectType metadata options batch s :
  exists s1 idMap r,
    (if includeRelationships options
     then ensureParentRecordsExistNew JSON_stringify remote objectType metadata batch options s
          = (s1, Ok idMap)
     else s1 = s /\ idMap = ∅)
    /\ trace (fst (transferBatch JSON_stringify remote tgt objectType metadata options batch s))
       = (trace s1 ++ [EvCreate Target objectType (remapBatch metadata idMap batch) r])%list.
Proof.
  unfold transferBatch.
  assert (Hfirst : exists s1 idMap,
    (if includeRelationships options
     then ensureParentRecordsExistNew JSON_stringify remote objectType metadata batch options s
          = (s1, Ok idMap)
     else s1 = s /\ idMap = ∅)
    /\ (if includeRelationships options
        then bind (ensureParentRecordsExistNew JSON_stringify remote objectType metadata
                     batch options)
                  (fun idMap => ret (remapBatch metadata idMap batch))
        else ret (map cleanRecord batch)) s
       = (s1, Ok (remapBatch metadata idMap batch))).
  { destruct (includeRelationships options).
    - destruct (returns_ensureParentRecordsExistNew JSON_stringify remote
                  objectType metadata batch options s) as (s1 & idMap & E).
      exists s1, idMap. by rewrite (bind_ok _ _ _ _ _ E).
    - exists s, ∅. by rewrite remapBatch_empty. }
  destruct Hfirst as (s1 & idMap & Hmap & E1).
  rewrite (bind_ok _ _ _ _ _ E1). exists s1, idMap.
  unfold bind, create, logged.
  destruct (remote_create remote tgt _ (world s1)) as [w [insertResult|e]].
  - exists (Ok insertResult). split; [done|].
    by rewrite (extendsWith_False_trace _ _ (handleInsertResult_silent objectType insertResult _)).
  - by exists (Throw e).
Qed.

End Batches.

(** C6. Each batch reaches the target as [remapBatch metadata idMap batch],
    [idMap] being the map the resolver returned for this batch (the empty
    map when relationships are off).  In the record written for
    [original], a reference field of the schema is absent, or holds the
    target id the map gives for the source value, or holds the source value
    unchanged, the last when the lookup [srcId && idMap[srcId]] found
    nothing to use (no entry, an empty source value, or an empty entry). *)
Theorem written_reference_values {World : Type} (JSON_stringify : jsval -> string)
    (remote : RemoteApi World) (tgt : SalesforceRestClient) (objectType : string)
    (metadata : DescribeResult) (options : DataTransferOptions) (batch : list jsobj)
    (s : EngineState World) :
  (exists s1 idMap r,
     (if includeRelationships options
      then ensureParentRecordsExistNew JSON_stringify remote objectType metadata batch options s
           = (s1, Ok idMap)
      else s1 = s /\ idMap = ∅)
     /\ trace (fst (transferBatch JSON_stringify remote tgt objectType metadata options batch s))
        = (trace s1 ++ [EvCreate Target objectType (remapBatch metadata idMap batch) r])%list)
  /\ (forall (idMap : gmap string jsval) (i : nat) (original : jsobj),
        batch !! i = Some original ->
        exists payload,
          remapBatch metadata idMap batch !! i = Some payload
          /\ forall ref, ref ∈ referenceFieldsOf metadata ->
               let source := getPropOr original (field_name ref) in
               getProp payload (field_name ref) = None
               \/ (exists target,
                     idMap !! js_String source = Some target
                     /\ getProp payload (field_name ref) = Some target)
               \/ (getProp payload (field_name ref) = Some source
                   /\ (idMap !! js_String source = None
                       \/ truthy source = false
                       \/ exists entry, idMap !! js_String source = Some entry
                                        /\ truthy entry = false))).
Proof.
  split; [apply transferBatch_sends|].
  intros idMap i original Hi.
  exists (remapRecord (referenceFieldsOf metadata) idMap original (cleanRecord original)).
  split.
  { unfold remapBatch. rewrite map_fmap, list_lookup_fmap, Hi. done. }
  intros ref Href source. rewrite remapRecord_lookup.
  rewrite bool_decide_eq_true_2 by (apply elem_of_map; by exists ref).
  fold source. cbn [andb].
  destruct (truthy source) eqn:Hsrc; cbn [andb].
  - destruct (truthy (idMapGet idMap source)) eqn:Hent.
    + right. left. exists (idMapGet idMap source). split; [by apply idMapGet_truthy | done].
    + destruct (removeSystemFields_value original (field_name ref)) as [H | H];
        unfold cleanRecord; rewrite H; [by left|].
      destruct (getProp original (field_name ref)) as [v|] eqn:Hv; [|by left].
      right. right. split.
      * unfold source, getPropOr. by rewrite Hv.
      * unfold idMapGet in Hent.
        destruct (idMap !! js_String source) as [entry|] eqn:Hentry; [|by left].
        right. right. by exists entry.
  - destruct (removeSystemFields_value original (field_name ref)) as [H | H];
      unfold cleanRecord; rewrite H; [by left|].
    destruct (getProp original (field_name ref)) as [v|] eqn:Hv; [|by left].
    right. right. split; [|by right; left].
    unfold source, getPropOr. by rewrite Hv.
Qed.

Lemma written_reference_values_witness :
  exists payload,
    remapBatch Demo.contactSchema {["001A" := JStr "001T"]} Demo.fiveContacts !! 0%nat
      = Some payload
    /\ (getProp payload "AccountId" = None
        \/ (exists target,
              ({["001A" := JStr "001T"]} : gmap string jsval) !! "001A" = Some target
              /\ getProp payload "AccountId" = Some target)
        \/ (getProp payload "AccountId" = Some (JStr "001A")
            /\ (({["001A" := JStr "001T"]} : gmap string jsval) !! "001A" = None
                \/ truthy (JStr "001A") = false
                \/ exists entry,
                     ({["001A" := JStr "001T"]} : gmap string jsval) !! "001A" = Some entry
                     /\ truthy entry = false))).
Proof.
  destruct (proj2 (written_reference_values Demo.JSON_stringify
                     (Demo.remote Demo.fiveContacts []) Demo.targetClient "Contact"
                     Demo.contactSchema (Demo.options ["Contact"] true 2 None Insert)
                     Demo.fiveContacts Demo.state)
                  {["001A" := JStr "001T"]} 0%nat (Demo.contact "Ada" "001A") eq_refl)
    as (payload & Hp & Hrefs).
  exists payload. split; [exact Hp|].
  apply (Hrefs (mkField "AccountId" "reference" true true false false false
                        ["Account"] (Some "Account"))).
  apply list_elem_of_In. simpl. auto.
Defined.

(** ** Upsert mode without an external id *)

(** C2, as the code has it.  Resolving a parent type in upsert mode when
    [externalIdMapping] is given but names no external-id field for it
    pushes ["No external ID field specified for <parent>..."], issues no
    call and leaves the identifier map as it was; when no
    [externalIdMapping] is given at all the map and the log are left as
    they were too.  A child whose reference value has no entry in the map is
    written with what sanitization left under that field: the unmapped
    source id, or nothing when sanitization removes the field. *)
Theorem upsert_parent_without_external_id {World : Type}
    (JSON_stringify : jsval -> string) (remote : RemoteApi World)
    (parentObject : string) (parentIds : list string) (options : DataTransferOptions)
    (s : EngineState World) (src tgt : SalesforceRestClient) :
  connectedTo src tgt s ->
  (forall mapping,
     externalIdMapping options = Some mapping ->
     externalIdFieldOf mapping parentObject = None ->
     exists s',
       handleUpsertModeParents JSON_stringify remote parentObject parentIds options s
         = (s', Ok tt)
       /\ errors (result s')
          = (errors (result s)
             ++ ["No external ID field specified for " +:+ parentObject
                 +:+ ". Please configure external ID mapping for upsert mode."])%list
       /\ idMapping s' = idMapping s /\ trace s' = trace s)
  /\ (externalIdMapping options = None ->
      exists s',
        handleUpsertModeParents JSON_stringify remote parentObject parentIds options s
          = (s', Ok tt)
        /\ idMapping s' = idMapping s /\ trace s' = trace s)
  /\ (forall metadata (idMap : gmap string jsval) original ref,
        ref ∈ referenceFieldsOf metadata ->
        idMap !! js_String (getPropOr original (field_name ref)) = None ->
        let payload :=
          remapRecord (referenceFieldsOf metadata) idMap original (cleanRecord original) in
        getProp payload (field_name ref) = getProp (cleanRecord original) (field_name ref)
        /\ (getProp payload (field_name ref) = getProp original (field_name ref)
            \/ getProp payload (field_name ref) = None)).
Proof.
  intros [Hs Ht]. split; [|split].
  - intros mapping Hm Hf. unfold handleUpsertModeParents. rewrite Hs, Ht, Hm, Hf.
    eexists. split; [reflexivity|]. done.
  - intros Hm. unfold handleUpsertModeParents. rewrite Hs, Ht, Hm. by exists s.
  - intros metadata idMap original ref Href Hnone payload. unfold payload.
    rewrite remapRecord_lookup. unfold idMapGet. rewrite Hnone. cbn [default truthy].
    rewrite andb_false_r. split; [done|].
    destruct (removeSystemFields_value original (field_name ref)); auto.
Qed.

Lemma upsert_parent_without_external_id_witness :
  exists s',
    handleUpsertModeParents Demo.JSON_stringify (Demo.remote Demo.fiveContacts [])
      "Account" ["001A"]
      (Demo.options ["Contact"] true 2 (Some {["Contact" := "Ext__c"]}) Upsert) Demo.state
      = (s', Ok tt)
    /\ errors (result s')
       = ["No external ID field specified for Account. Please configure external ID mapping for upsert mode."]
    /\ idMapping s' = idMapping Demo.state /\ trace s' = trace Demo.state.
Proof.
  apply (proj1 (upsert_parent_without_external_id Demo.JSON_stringify
                  (Demo.remote Demo.fiveContacts []) "Account" ["001A"]
                  (Demo.options ["Contact"] true 2 (Some {["Contact" := "Ext__c"]}) Upsert)
                  Demo.state Demo.sourceClient Demo.targetClient (conj eq_refl eq_refl))
               {["Contact" := "Ext__c"]}); reflexivity.
Defined.

(** The claim as written fails when no [externalIdMapping] is given at all:
    an upsert run whose children reference a parent then finishes without
    any error. *)
Lemma upsert_without_mapping_reports_nothing :
  fst (handleUpsertModeParents Demo.JSON_stringify (Demo.remote Demo.fiveContacts [])
         "Account" ["001A"] (Demo.options ["Contact"] true 2 None Upsert) Demo.state)
  = Demo.state
  /\ snd (transferData Demo.JSON_stringify (Demo.remote Demo.fiveContacts [])
            (Demo.options ["Contact"] true 2 None Upsert) Demo.state)
     = Ok {| success := true; recordsTransferred := 5; errors := [] |}.
Proof. split; vm_compute; reflexivity. Qed.

(** ** The extraction query *)

Lemma isInsertableField_spec (field : Field) :
  isInsertableField field = true
  <-> (field_name field ∉ systemFieldNames)
      /\ Js.endsWith (field_name field) "__pc" = false
      /\ field_calculated field = false
      /\ field_type field <> "formula".
Proof.
  unfold isInsertableField.
  destruct (Js.arrayIncludes systemFieldNames (field_name field)) eqn:E1.
  { apply arrayIncludes_spec in E1. split; [done | by intros [? _]]. }
  assert (field_name field ∉ systemFieldNames).
  { intros H%arrayIncludes_spec. congruence. }
  destruct (Js.endsWith (field_name field) "__pc"); [split; [done | by intros (_ & ? & _)]|].
  destruct (field_calculated field); [split; [done | by intros (_ & _ & ? & _)]|].
  destruct (String.eqb_spec (field_type field) "formula") as [Hf | Hf].
  - split; [done | by intros (_ & _ & _ & ?)].
  - done.
Qed.

(** C1, as the code has it.  The query an entity-type extraction issues
    against the source selects the fields the schema marks createable or
    updateable, in schema order, plus (when relationships are included) the
    relationship names of the reference fields that have one.
    [isInsertableField] (false for the system-owned names, for names ending
    in [__pc], for calculated and for formula fields, true otherwise) is
    not what selects them. *)
Theorem extraction_query_selects_writable_fields {World : Type}
    (JSON_stringify : jsval -> string) (remote : RemoteApi World)
    (objectType : string) (options : DataTransferOptions) (s : EngineState World)
    (src tgt : SalesforceRestClient) (w : World) (metadata : DescribeResult) :
  connectedTo src tgt s ->
  remote_describe remote src objectType (world s) = (w, Ok metadata) ->
  let selected :=
    map field_name
        (List.filter (fun f => field_createable f || field_updateable f) (fields metadata)) in
  let projections :=
    map (fun f => default "" (field_relationshipName f))
        (List.filter (fun f => String.eqb (field_type f) "reference"
                               && relationshipNameTruthy f) (fields metadata)) in
  let soql :=
    "SELECT " +:+ Js.join ", " selected
    +:+ (if includeRelationships options && nonEmpty (Js.join ", " projections)
         then ", " +:+ Js.join ", " projections else "")
    +:+ " FROM " +:+ objectType +:+ limitClauseOf options objectType in
  (exists r evs,
     trace (fst (transferObjectRecords JSON_stringify remote objectType options s))
     = (trace s ++ EvDescribe Source objectType (Ok metadata) :: EvQuery Source soql r :: evs)%list)
  /\ (forall field,
        isInsertableField field = true
        <-> (field_name field ∉ systemFieldNames)
            /\ Js.endsWith (field_name field) "__pc" = false
            /\ field_calculated field = false
            /\ field_type field <> "formula").
Proof.
  intros [Hs Ht] Hd selected projections soql. split; [|apply isInsertableField_spec].
  assert (Hq : extractionQuery objectType options metadata = soql).
  { unfold extractionQuery, soql, relationshipFieldsOf, relationshipFieldNames, baseFieldNames.
    fold selected. fold projections. by destruct (includeRelationships options). }
  unfold transferObjectRecords. rewrite Hs, Ht.
  unfold transferObjectRecordsBody. rewrite tryCatch_bind.
  unfold describe at 1, logged at 1. rewrite Hd. rewrite tryCatch_bind.
  unfold query at 1, logged at 1. cbn [world trace]. rewrite Hq.
  destruct (remote_query remote src soql w) as [w' [records|e]].
  - match goal with |- context [tryCatch ?m ?h ?s0] =>
      assert (Hext : extendsWith (fun _ => True) s0 (fst (tryCatch m h s0))) end.
    { apply respects_tryCatch; [apply _ | | intros e; apply extendsWith_pushError].
      destruct records; [apply respects_ret; apply _|].
      apply respects_forEach; [apply _|]. intros batch.
      apply respects_transferBatch;
        first [ apply extendsWith_pushError | apply extendsWith_addTransferred
              | apply extendsWith_withMapping
              | intros; apply extendsWith_logged; intros; exact I | apply _ ]. }
    destruct Hext as (_ & _ & evs & He & _).
    exists (Ok records), evs. rewrite He. cbn [trace]. by rewrite <- !app_assoc.
  - exists (Throw e), []. simpl. by rewrite <- !app_assoc.
Qed.

Lemma extraction_query_selects_writable_fields_witness :
  exists r evs,
    trace (fst (transferObjectRecords Demo.JSON_stringify (Demo.remote Demo.fiveContacts [])
                  "Contact" (Demo.options ["Contact"] true 2 None Insert) Demo.state))
    = EvDescribe Source "Contact" (Ok Demo.contactSchema)
      :: EvQuery Source "SELECT LastName, AccountId, Notes__pc, Account FROM Contact" r
      :: evs.
Proof.
  apply (proj1 (extraction_query_selects_writable_fields Demo.JSON_stringify
                  (Demo.remote Demo.fiveContacts []) "Contact"
                  (Demo.options ["Contact"] true 2 None Insert) Demo.state
                  Demo.sourceClient Demo.targetClient 0%nat Demo.contactSchema
                  (conj eq_refl eq_refl) eq_refl)).
Defined.

(** The claim as written fails on a schema with an [Id] field and a
    person-account field: the query leaves out [Id], which
    [isInsertableField] accepts, and selects [Notes__pc], which it rejects. *)
Lemma extraction_query_ignores_isInsertableField :
  trace (fst (transferObjectRecords Demo.JSON_stringify (Demo.remote Demo.fiveContacts [])
                "Contact" (Demo.options ["Contact"] false 2 None Insert) Demo.state))
    !! 1%nat
  = Some (EvQuery Source "SELECT LastName, AccountId, Notes__pc FROM Contact"
                  (Ok Demo.fiveContacts))
  /\ map field_name (List.filter isInsertableField (fields Demo.contactSchema))
     = ["Id"; "LastName"; "AccountId"]
  /\ baseFieldNames Demo.contactSchema <>
     map field_name (List.filter isInsertableField (fields Demo.contactSchema)).
Proof. split; [|split]; [vm_compute; reflexivity | reflexivity | discriminate]. Qed.

(** ** Batches and write calls *)

Lemma ceilDiv_zero (b : nat) : (0 < b)%nat -> ceilDiv 0 b = 0%nat.
Proof. intros Hb. unfold ceilDiv. apply Nat.div_small. lia. Qed.

Lemma ceilDiv_step (n b : nat) :
  (0 < b)%nat -> (0 < n)%nat -> ceilDiv n b = S (ceilDiv (n - b) b).
Proof.
  intros Hb Hn. unfold ceilDiv. destruct (Nat.le_gt_cases b n) as [Hle | Hlt].
  - replace (n + b - 1)%nat with ((n - b + b - 1) + 1 * b)%nat by lia.
    rewrite Nat.div_add by lia. lia.
  - replace (n - b)%nat with 0%nat by lia.
    rewrite (Nat.div_small (0 + b - 1) b) by lia.
    symmetry. apply (Nat.div_unique (n + b - 1) b 1 (n - 1)); lia.
Qed.

(** [ceilDiv n b] is the least number of batches of [b] that hold [n]
    records. *)
Lemma ceilDiv_spec (n b : nat) :
  (0 < b)%nat ->
  (n <= ceilDiv n b * b)%nat /\ (ceilDiv n b * b < n + b)%nat.
Proof.
  intros Hb. unfold ceilDiv.
  pose proof (Nat.div_mod (n + b - 1) b ltac:(lia)) as Hdm.
  pose proof (Nat.mod_upper_bound (n + b - 1) b ltac:(lia)) as Hmod.
  split; nia.
Qed.

Lemma length_slicesFrom {A : Type} (fuel i size : nat) (xs : list A) :
  (0 < size)%nat -> (length xs - i <= fuel)%nat ->
  length (slicesFrom fuel i size xs) = ceilDiv (length xs - i) size.
Proof.
  intros Hsize. revert i. induction fuel as [|fuel IH]; intros i Hfuel; simpl.
  - replace (length xs - i)%nat with 0%nat by lia. by rewrite ceilDiv_zero.
  - destruct (Nat.ltb_spec i (length xs)) as [Hlt | Hge]; simpl.
    + rewrite IH by lia. rewrite (ceilDiv_step (length xs - i)) by lia.
      do 2 f_equal. lia.
    + replace (length xs - i)%nat with 0%nat by lia. by rewrite ceilDiv_zero.
Qed.

Lemma length_slices {A : Type} (size : nat) (xs : list A) :
  (0 < size)%nat -> length (slices size xs) = ceilDiv (length xs) size.
Proof.
  intros Hsize. unfold slices. rewrite length_slicesFrom by lia. f_equal. lia.
Qed.

(** The slices are the array cut in order: the rounds allowed are enough to
    reach its end. *)
Lemma concat_slicesFrom {A : Type} (fuel i size : nat) (xs : list A) :
  (0 < size)%nat -> (length xs - i <= fuel)%nat ->
  concat (slicesFrom fuel i size xs) = drop i xs.
Proof.
  intros Hsize. revert i. induction fuel as [|fuel IH]; intros i Hfuel; simpl.
  - symmetry. apply drop_ge. lia.
  - destruct (Nat.ltb_spec i (length xs)) as [Hlt | Hge]; simpl.
    + rewrite IH by lia. rewrite <- drop_drop. apply take_drop.
    + symmetry. by apply drop_ge.
Qed.

Lemma concat_slices {A : Type} (size : nat) (xs : list A) :
  (0 < size)%nat -> concat (slices size xs) = xs.
Proof. intros Hsize. unfold slices. rewrite concat_slicesFrom by lia. done. Qed.

Lemma effectiveBatchSize_pos (options : DataTransferOptions) :
  (0 < effectiveBatchSize options)%nat.
Proof. unfold effectiveBatchSize. destruct (batchSize options); lia. Qed.

Lemma successesOf_app (evs evs' : list Event) :
  successesOf (evs ++ evs') = (successesOf evs + successesOf evs')%nat.
Proof.
  induction evs as [|e evs IH]; [done|].
  destruct e as [| | |[|] t records [r|x]]; simpl; rewrite ?IH; lia.
Qed.

Section Writes.

Context {World : Type}.
Variable JSON_stringify : jsval -> string.
Variable remote : RemoteApi World.
Implicit Types s : EngineState World.

Lemma wrote_refl s : wrote 0 s s.
Proof. repeat split. exists []. by rewrite app_nil_r. Qed.

Lemma wrote_trans k1 k2 s1 s2 s3 :
  wrote k1 s1 s2 -> wrote k2 s2 s3 -> wrote (k1 + k2) s1 s3.
Proof.
  intros (Hs & Ht & evs & He & Hk & Hn) (Hs' & Ht' & evs' & He' & Hk' & Hn').
  repeat split; [congruence | congruence |].
  exists (evs ++ evs')%list. split; [by rewrite He', He, app_assoc|]. split.
  - unfold targetCreates in *. rewrite List.filter_app, length_app. lia.
  - rewrite successesOf_app. lia.
Qed.

Global Instance wrote_preorder : PreOrder (wrote (World:=World) 0).
Proof.
  split; [exact wrote_refl|]. intros s1 s2 s3 H1 H2. apply (wrote_trans 0 0 _ _ _ H1 H2).
Qed.

Lemma wrote_pushError msg : respects (wrote 0) (pushError (World:=World) msg).
Proof. intros s. repeat split. exists []. by rewrite app_nil_r. Qed.

Lemma wrote_withMapping f : respects (wrote 0) (withMapping (World:=World) f).
Proof. intros s. repeat split. exists []. by rewrite app_nil_r. Qed.

Lemma wrote_query side conn soql : respects (wrote 0) (query remote side conn soql).
Proof.
  intros s. unfold query, logged. destruct (remote_query _ _ _ _) as [w r]. simpl.
  repeat split. exists [EvQuery side soql r]. simpl. split; [done|]. split; [done | lia].
Qed.

End Writes.

(** ** The batch loop, round by round *)

Lemma forEach_pushError_errors {World : Type} {A : Type} (xs : list A)
    (message : A -> string) (s : EngineState World) :
  exists s',
    forEach xs (fun x => pushError (message x)) s = (s', Ok tt)
    /\ world s' = world s /\ trace s' = trace s /\ idMapping s' = idMapping s
    /\ sourceConn s' = sourceConn s /\ targetConn s' = targetConn s
    /\ success (result s') = success (result s)
    /\ recordsTransferred (result s') = recordsTransferred (result s)
    /\ errors (result s') = (errors (result s) ++ map message xs)%list.
Proof.
  revert s. induction xs as [|x xs IH]; intros s; simpl.
  - exists s. by rewrite app_nil_r.
  - unfold bind at 1. simpl.
    match goal with |- context [forEach xs _ ?s0] =>
      destruct (IH s0) as (s' & E & Hw & Ht & Hm & Hsc & Htc & Hsu & Hn & He) end.
    exists s'. rewrite E. simpl in *. by rewrite He, <- app_assoc.
Qed.

Lemma successCount_saveResults (r : CreateResponse) :
  successCount r = length (List.filter save_success (saveResults r)).
Proof. destruct r as [r|rs]; [|done]. cbn. by destruct (save_success r). Qed.

Lemma allSaved_counts (JSON_stringify : jsval -> string) (objectType : string)
    (n : nat) (r : CreateResponse) :
  allSaved n r -> successCount r = n /\ failureMessages JSON_stringify objectType r = [].
Proof.
  intros [Hlen Hall]. rewrite successCount_saveResults. unfold failureMessages.
  rewrite <- Hlen. clear Hlen.
  induction Hall as [|x l Hx _ [IH1 IH2]]; [done|].
  cbn [List.filter]. rewrite Hx. cbn [negb length]. by rewrite IH1.
Qed.

Lemma targetCreates_app (evs evs' : list Event) :
  targetCreates (evs ++ evs') = (targetCreates evs ++ targetCreates evs')%list.
Proof. apply List.filter_app. Qed.

Lemma length_remapBatch (metadata : DescribeResult) (idMap : gmap string jsval)
    (batch : list jsobj) :
  length (remapBatch metadata idMap batch) = length batch.
Proof. unfold remapBatch. apply length_map. Qed.

Section Rounds.

Context {World : Type}.
Variable JSON_stringify : jsval -> string.
Variable remote : RemoteApi World.
Implicit Types s : EngineState World.

Global Instance resolves_preorder : PreOrder (resolves (World:=World)).
Proof.
  split.
  - intros s. repeat split. exists []. by rewrite app_nil_r.
  - intros s1 s2 s3 (Hs & Ht & Hn & evs & He) (Hs' & Ht' & Hn' & evs' & He').
    repeat split; [congruence | congruence | congruence |].
    exists (evs ++ evs')%list. by rewrite He', He, app_assoc.
Qed.

Lemma resolves_pushError msg : respects resolves (pushError (World:=World) msg).
Proof. intros s. repeat split. exists []. by rewrite app_nil_r. Qed.

Lemma resolves_withMapping f : respects resolves (withMapping (World:=World) f).
Proof. intros s. repeat split. exists []. by rewrite app_nil_r. Qed.

Lemma resolves_logged {A : Type} (run : World -> World * Outcome A) event :
  respects resolves (logged run event).
Proof.
  intros s. unfold logged. destruct (run (world s)) as [w r]. repeat split.
  by exists [event r].
Qed.

(** Handling the answer of one create: no call, the successes counted, one
    entry per failure. *)
Lemma handleInsertResult_effect objectType insertResult s :
  exists s',
    handleInsertResult JSON_stringify objectType insertResult s = (s', Ok tt)
    /\ sourceConn s' = sourceConn s /\ targetConn s' = targetConn s
    /\ trace s' = trace s
    /\ recordsTransferred (result s')
       = (recordsTransferred (result s) + successCount insertResult)%nat
    /\ errors (result s')
       = (errors (result s) ++ failureMessages JSON_stringify objectType insertResult)%list.
Proof.
  destruct insertResult as [r | rs]; unfold failureMessages; cbn [handleInsertResult saveResults].
  - cbn [List.filter successCount].
    destruct (save_success r); (eexists; split; [reflexivity|]);
      cbn [negb map sourceConn targetConn trace result recordsTransferred errors];
      rewrite ?app_nil_r; repeat split; lia.
  - unfold bind at 1, addTransferred, withResult.
    match goal with |- context [forEach ?l ?f ?s0] =>
      destruct (forEach_pushError_errors l
                  (fun failure => recordError JSON_stringify objectType (save_errors failure)) s0)
        as (s' & E & _ & Htr & _ & Hsc & Htc & _ & Hn & He) end.
    exists s'. rewrite E. cbn [sourceConn targetConn trace result recordsTransferred errors] in *.
    by rewrite Hsc, Htc, Htr, Hn, He.
Qed.

Variable tgt : SalesforceRestClient.
Variable options : DataTransferOptions.

(** Every create sent to the target is answered (the request is not
    rejected). *)
Hypothesis creates_answered :
  forall request w, exists w' response, remote_create remote tgt request w = (w', Ok response).

(** What comes before the create in a round: the resolution of the parents
    when relationships are on, nothing otherwise. *)
Lemma resolution_effect objectType metadata batch s :
  exists s1 payload resolution,
    (if includeRelationships options
     then bind (ensureParentRecordsExistNew JSON_stringify remote objectType metadata batch options)
               (fun idMap => ret (remapBatch metadata idMap batch))
     else ret (map cleanRecord batch)) s
    = (s1, Ok payload)
    /\ sourceConn s1 = sourceConn s /\ targetConn s1 = targetConn s
    /\ recordsTransferred (result s1) = recordsTransferred (result s)
    /\ trace s1 = (trace s ++ resolution)%list
    /\ length payload = length batch
    /\ (includeRelationships options = false ->
        resolution = [] /\ payload = map cleanRecord batch
        /\ errors (result s1) = errors (result s))
    /\ (includeRelationships options = false \/ transferMode options = Some Upsert ->
        targetCreates resolution = []).
Proof.
  destruct (includeRelationships options) eqn:Hrel.
  - destruct (returns_ensureParentRecordsExistNew JSON_stringify remote
                objectType metadata batch options s) as (s1 & idMap & E).
    pose proof (respects_ensureParentRecordsExistNew JSON_stringify remote resolves
                  resolves_pushError resolves_withMapping
                  (fun side conn soql => resolves_logged _ _)
                  (fun side conn t => resolves_logged _ _)
                  (fun side conn t records => resolves_logged _ _)
                  objectType metadata batch options s) as Hr.
    rewrite E in Hr. destruct Hr as (Hs & Ht & Hn & resolution & Htr).
    exists s1, (remapBatch metadata idMap batch), resolution.
    rewrite (bind_ok _ _ _ _ _ E). do 5 (split; [done|]).
    split; [apply length_remapBatch|]. split; [done|].
    intros [? | Hmode]; [done|].
    pose proof (respects_ensureParentRecordsExistNew_upsert JSON_stringify remote
                  (wrote 0) wrote_pushError wrote_withMapping (wrote_query remote)
                  objectType metadata batch options Hmode s) as Hw.
    rewrite E in Hw. destruct Hw as (_ & _ & evs & Htr' & Hk & _).
    cbn [fst] in *. rewrite Htr in Htr'. apply app_inv_head in Htr'. subst evs.
    by apply length_zero_iff_nil.
  - exists s, (map cleanRecord batch), []. rewrite app_nil_r.
    do 5 (split; [done|]). split; [apply length_map|]. done.
Qed.

(** One round of the batch loop. *)
Lemma transferBatch_round objectType metadata batch s :
  exists s' round,
    transferBatch JSON_stringify remote tgt objectType metadata options batch s = (s', Ok tt)
    /\ sourceConn s' = sourceConn s /\ targetConn s' = targetConn s
    /\ trace s' = (trace s ++ roundEvents objectType round)%list
    /\ roundOf remote tgt objectType options batch round
    /\ recordsTransferred (result s')
       = (recordsTransferred (result s) + successCount (round_answer round))%nat
    /\ (includeRelationships options = false ->
        errors (result s')
        = (errors (result s)
           ++ failureMessages JSON_stringify objectType (round_answer round))%list).
Proof.
  unfold transferBatch.
  destruct (resolution_effect objectType metadata batch s)
    as (s1 & payload & resolution & E1 & Hs1 & Ht1 & Hn1 & Htr1 & Hlen & Hoff & Hnone).
  rewrite (bind_ok _ _ _ _ _ E1).
  unfold bind, create, logged.
  destruct (creates_answered (createRequest objectType payload) (world s1))
    as (w & response & Ec). rewrite Ec.
  match goal with |- context [handleInsertResult _ _ _ ?s2] =>
    destruct (handleInsertResult_effect objectType response s2)
      as (s' & E & Hs & Ht & Htr & Hn & He) end.
  cbn [sourceConn targetConn trace result] in *.
  exists s', (mkRound resolution payload response). rewrite E.
  split; [done|]. split; [congruence|]. split; [congruence|].
  split; [rewrite Htr, Htr1; unfold roundEvents; cbn [round_resolution round_payload round_answer];
          by rewrite <- app_assoc|].
  split.
  { unfold roundOf. cbn [round_resolution round_payload round_answer].
    split; [done|]. split; [by exists (world s1), w|]. split; [|done].
    intros Hrel. by destruct (Hoff Hrel) as (? & ? & _). }
  split; [cbn [round_answer]; lia|].
  intros Hrel. destruct (Hoff Hrel) as (_ & _ & Herr). cbn [round_answer]. by rewrite He, Herr.
Qed.

(** The batch loop, round by round. *)
Lemma forEach_transferBatch_rounds objectType metadata batches s :
  exists s' rounds,
    forEach batches (transferBatch JSON_stringify remote tgt objectType metadata options) s
      = (s', Ok tt)
    /\ sourceConn s' = sourceConn s /\ targetConn s' = targetConn s
    /\ trace s' = (trace s ++ concat (map (roundEvents objectType) rounds))%list
    /\ Forall2 (roundOf remote tgt objectType options) batches rounds
    /\ recordsTransferred (result s')
       = (recordsTransferred (result s)
          + sum_list (map (fun round => successCount (round_answer round)) rounds))%nat
    /\ (includeRelationships options = false ->
        errors (result s')
        = (errors (result s)
           ++ concat (map (fun round =>
                             failureMessages JSON_stringify objectType (round_answer round))
                          rounds))%list).
Proof.
  revert s. induction batches as [|batch batches IH]; intros s; cbn [forEach].
  - exists s, []. cbn [map concat sum_list_with]. rewrite !app_nil_r.
    do 4 (split; [done|]). split; [constructor|]. split; [lia | done].
  - destruct (transferBatch_round objectType metadata batch s)
      as (s1 & round & E1 & Hs1 & Ht1 & Htr1 & Hround & Hn1 & He1).
    destruct (IH s1) as (s' & rounds & E' & Hs' & Ht' & Htr' & Hrounds & Hn' & He').
    exists s', (round :: rounds). rewrite (bind_ok _ _ _ _ _ E1).
    split; [done|]. split; [congruence|]. split; [congruence|].
    split; [rewrite Htr', Htr1; cbn [map concat]; by rewrite <- app_assoc|].
    split; [by constructor|].
    split; [cbn [map sum_list_with id]; lia|].
    intros Hrel. rewrite (He' Hrel), (He1 Hrel). cbn [map concat]. by rewrite <- app_assoc.
Qed.

(** The transfer of one entity type whose describe and query the source
    answers. *)
Lemma transferObjectRecords_rounds objectType s src w1 w2 metadata records :
  connectedTo src tgt s ->
  remote_describe remote src objectType (world s) = (w1, Ok metadata) ->
  remote_query remote src (extractionQuery objectType options metadata) w1 = (w2, Ok records) ->
  exists s' rounds,
    transferObjectRecords JSON_stringify remote objectType options s = (s', Ok tt)
    /\ sourceConn s' = sourceConn s /\ targetConn s' = targetConn s
    /\ trace s'
       = (trace s
          ++ EvDescribe Source objectType (Ok metadata)
          :: EvQuery Source (extractionQuery objectType options metadata) (Ok records)
          :: concat (map (roundEvents objectType) rounds))%list
    /\ Forall2 (roundOf remote tgt objectType options)
               (slices (effectiveBatchSize options) records) rounds
    /\ recordsTransferred (result s')
       = (recordsTransferred (result s)
          + sum_list (map (fun round => successCount (round_answer round)) rounds))%nat
    /\ (includeRelationships options = false ->
        errors (result s')
        = (errors (result s)
           ++ concat (map (fun round =>
                             failureMessages JSON_stringify objectType (round_answer round))
                          rounds))%list).
Proof.
  intros [Hs Ht] Hd Hq.
  unfold transferObjectRecords. rewrite Hs, Ht.
  unfold transferObjectRecordsBody. rewrite tryCatch_bind.
  unfold describe at 1, logged at 1. rewrite Hd. rewrite tryCatch_bind.
  unfold query at 1, logged at 1. cbn [world trace]. rewrite Hq.
  match goal with |- context [tryCatch _ _ ?s0] => set (s2 := s0) end.
  assert (Hloop :
    match records with
    | [] => ret tt
    | _ :: _ => forEach (slices (effectiveBatchSize options) records)
                        (transferBatch JSON_stringify remote tgt objectType metadata options)
    end s2
    = forEach (slices (effectiveBatchSize options) records)
              (transferBatch JSON_stringify remote tgt objectType metadata options) s2).
  { by destruct records. }
  unfold tryCatch. rewrite Hloop.
  destruct (forEach_transferBatch_rounds objectType metadata
              (slices (effectiveBatchSize options) records) s2)
    as (s' & rounds & E & Hs' & Ht' & Htr & Hrounds & Hn & He).
  rewrite E. exists s', rounds. subst s2.
  cbn [sourceConn targetConn trace result] in *.
  split; [done|]. split; [congruence|]. split; [congruence|].
  split; [by rewrite Htr, <- !app_assoc|]. done.
Qed.

End Rounds.

Lemma targetCreates_rounds {World : Type} (remote : RemoteApi World)
    (tgt : SalesforceRestClient) (objectType : string) (options : DataTransferOptions)
    (batches : list (list jsobj)) (rounds : list BatchRound) :
  includeRelationships options = false \/ transferMode options = Some Upsert ->
  Forall2 (roundOf remote tgt objectType options) batches rounds ->
  length (targetCreates (concat (map (roundEvents objectType) rounds))) = length rounds.
Proof.
  intros Hmode. induction 1 as [|batch round batches rounds Hround _ IH]; [done|].
  cbn [map concat]. unfold roundEvents at 1.
  rewrite !targetCreates_app, !length_app, IH.
  destruct Hround as (_ & _ & _ & Hnone). rewrite (Hnone Hmode). done.
Qed.

Lemma rounds_all_saved {World : Type} (JSON_stringify : jsval -> string)
    (remote : RemoteApi World) (tgt : SalesforceRestClient) (objectType : string)
    (options : DataTransferOptions) (batches : list (list jsobj)) (rounds : list BatchRound) :
  (forall payload w w' response,
     remote_create remote tgt (createRequest objectType payload) w = (w', Ok response) ->
     allSaved (length payload) response) ->
  Forall2 (roundOf remote tgt objectType options) batches rounds ->
  sum_list (map (fun round => successCount (round_answer round)) rounds)
  = length (concat batches)
  /\ concat (map (fun round => failureMessages JSON_stringify objectType (round_answer round))
                 rounds) = [].
Proof.
  intros Hsaved. induction 1 as [|batch round batches rounds Hround _ [IH1 IH2]]; [done|].
  destruct Hround as (Hlen & (w & w' & Hc) & _).
  destruct (allSaved_counts JSON_stringify objectType _ _ (Hsaved _ _ _ _ Hc)) as [Hn Hf].
  cbn [map sum_list_with id concat]. rewrite length_app, IH1, IH2, Hn, Hf, Hlen. done.
Qed.

(** C5, as the code has it.  When the source answers the describe and the
    query and the target answers every create, the transfer of an entity
    type with [n] extracted records runs [ceil(n / b)] rounds, one per
    batch and in order, [b] being the batch size after [|| 200]: each round
    is the calls of the relationship resolution followed by one create of
    the batch, and [recordsTransferred] grows by the records the answers to
    these creates report as written.  When relationships are off or the
    mode is upsert the resolution creates nothing, so these are the only
    creates against the target (in insert mode with relationships the
    parents' creates come on top).  With relationships off the error list
    grows by one entry per failed save result.  In particular a run over
    this one entity type, relationships off, in which the target reports
    every record of every create as written returns [success = true],
    [recordsTransferred = n] and no error after [ceil(n / b)] creates. *)
Theorem write_calls_per_entity_type {World : Type} (JSON_stringify : jsval -> string)
    (remote : RemoteApi World) (objectType : string) (options : DataTransferOptions)
    (s : EngineState World) (src tgt : SalesforceRestClient) (w1 w2 : World)
    (metadata : DescribeResult) (records : list jsobj) :
  connectedTo src tgt s ->
  remote_describe remote src objectType (world s) = (w1, Ok metadata) ->
  remote_query remote src (extractionQuery objectType options metadata) w1 = (w2, Ok records) ->
  (forall request w, exists w' response,
     remote_create remote tgt request w = (w', Ok response)) ->
  (exists s' rounds,
     transferObjectRecords JSON_stringify remote objectType options s = (s', Ok tt)
     /\ trace s'
        = (trace s
           ++ EvDescribe Source objectType (Ok metadata)
           :: EvQuery Source (extractionQuery objectType options metadata) (Ok records)
           :: concat (map (roundEvents objectType) rounds))%list
     /\ Forall2 (roundOf remote tgt objectType options)
                (slices (effectiveBatchSize options) records) rounds
     /\ length rounds = ceilDiv (length records) (effectiveBatchSize options)
     /\ recordsTransferred (result s')
        = (recordsTransferred (result s)
           + sum_list (map (fun round => successCount (round_answer round)) rounds))%nat
     /\ (includeRelationships options = false \/ transferMode options = Some Upsert ->
         length (targetCreates (concat (map (roundEvents objectType) rounds)))
         = ceilDiv (length records) (effectiveBatchSize options))
     /\ (includeRelationships options = false ->
         errors (result s')
         = (errors (result s)
            ++ concat (map (fun round =>
                              failureMessages JSON_stringify objectType (round_answer round))
                           rounds))%list))
  /\ (customQueryGiven options = None ->
      objectTypes options = Some [objectType] ->
      includeRelationships options = false ->
      (forall payload w w' response,
         remote_create remote tgt (createRequest objectType payload) w = (w', Ok response) ->
         allSaved (length payload) response) ->
      exists s' evs,
        transferData JSON_stringify remote options s
        = (s', Ok {| success := true;
                     recordsTransferred := length records;
                     errors := [] |})
        /\ trace s' = (trace s ++ evs)%list
        /\ length (targetCreates evs)
           = ceilDiv (length records) (effectiveBatchSize options)).
Proof.
  intros Hc Hd Hq Hcreate. split.
  - destruct (transferObjectRecords_rounds JSON_stringify remote tgt options Hcreate
                objectType s src w1 w2 metadata records Hc Hd Hq)
      as (s' & rounds & E & _ & _ & Htr & Hrounds & Hn & He).
    assert (Hlen : length rounds = ceilDiv (length records) (effectiveBatchSize options)).
    { rewrite <- (Forall2_length _ _ _ Hrounds).
      apply length_slices, effectiveBatchSize_pos. }
    exists s', rounds. do 3 (split; [done|]). split; [exact Hlen|]. split; [exact Hn|].
    split; [|exact He].
    intros Hmode. rewrite <- Hlen.
    by apply (targetCreates_rounds remote tgt objectType options _ _ Hmode Hrounds).
  - intros Hquery Htypes Hrel Hsaved.
    assert (Hc0 : connectedTo src tgt (resetResult s)) by (destruct Hc; by split).
    assert (Hrel' : includeRelationships (withDefaultMode options) = false) by exact Hrel.
    destruct (transferObjectRecords_rounds JSON_stringify remote tgt (withDefaultMode options)
                Hcreate objectType (resetResult s) src w1 w2 metadata records Hc0 Hd Hq)
      as (s1 & rounds & E & _ & _ & Htr & Hrounds & Hn & He).
    specialize (He Hrel').
    destruct (rounds_all_saved JSON_stringify remote tgt objectType (withDefaultMode options)
                _ _ Hsaved Hrounds) as [Hsum Hnone].
    rewrite Hsum, concat_slices in Hn by apply effectiveBatchSize_pos.
    rewrite Hnone in He. cbn [resetResult result recordsTransferred errors freshResult app] in Hn, He.
    rewrite (transferData_connected JSON_stringify remote options src tgt s Hc).
    change (customQueryGiven (withDefaultMode options)) with (customQueryGiven options).
    change (objectTypes (withDefaultMode options)) with (objectTypes options).
    rewrite Hquery, Htypes. rewrite tryCatch_bind. cbn [forEach].
    rewrite (bind_ok _ _ _ _ _ E).
    eexists _, _. split; [|split].
    + unfold ret, tryCatch, bind, setSuccess, withResult, getResult. cbn [result].
      rewrite He, Hn. reflexivity.
    + cbn [trace]. rewrite Htr. reflexivity.
    + assert (Hmode : includeRelationships (withDefaultMode options) = false
                      \/ transferMode (withDefaultMode options) = Some Upsert) by (by left).
      change (length (targetCreates
                (concat (map (roundEvents objectType) rounds)))
              = ceilDiv (length records) (effectiveBatchSize options)).
      rewrite (targetCreates_rounds remote tgt objectType _ _ _ Hmode Hrounds).
      rewrite <- (Forall2_length _ _ _ Hrounds).
      apply (length_slices (effectiveBatchSize options) records), effectiveBatchSize_pos.
Qed.

Lemma imap_all_saved {A : Type} (f : nat -> A -> SaveResult) (l : list A) :
  (forall i x, save_success (f i x) = true) ->
  Forall (fun r => save_success r = true) (imap f l).
Proof.
  revert f. induction l as [|x l IH]; intros f Hf; cbn [imap]; constructor; [done|].
  apply IH. intros i y. apply Hf.
Qed.

(** The demo target reports every record of every create as written. *)
Lemma demo_target_saves_everything (contacts targetAccounts : list jsobj)
    (conn : SalesforceRestClient) (sobjectType : string) (payload : list jsobj)
    (w w' : nat) (response : CreateResponse) :
  remote_create (Demo.remote contacts targetAccounts) conn
    (createRequest sobjectType payload) w = (w', Ok response) ->
  allSaved (length payload) response.
Proof.
  destruct payload as [|r [|r' rs]]; cbn [createRequest Demo.remote remote_create];
    intros H; injection H as <- <-.
  - split; [reflexivity | constructor].
  - split; [reflexivity | by repeat constructor].
  - split.
    + cbn [saveResults length]. by rewrite length_imap, length_map.
    + cbn [saveResults]. do 2 (constructor; [done|]). by apply imap_all_saved.
Qed.

Lemma write_calls_per_entity_type_witness :
  exists s' evs,
    transferData Demo.JSON_stringify (Demo.remote Demo.fiveContacts [])
      (Demo.options ["Contact"] false 2 None Insert) Demo.state
    = (s', Ok {| success := true; recordsTransferred := 5; errors := [] |})
    /\ trace s' = (trace Demo.state ++ evs)%list
    /\ length (targetCreates evs) = 3%nat.
Proof.
  apply (proj2 (write_calls_per_entity_type Demo.JSON_stringify
                  (Demo.remote Demo.fiveContacts []) "Contact"
                  (Demo.options ["Contact"] false 2 None Insert) Demo.state
                  Demo.sourceClient Demo.targetClient 0%nat 0%nat Demo.contactSchema
                  Demo.fiveContacts (conj eq_refl eq_refl) eq_refl eq_refl
                  (fun request w =>
                     match request with
                     | PostSObject _ _ => ex_intro _ _ (ex_intro _ _ eq_refl)
                     | PostComposite _ _ => ex_intro _ _ (ex_intro _ _ eq_refl)
                     end))
               eq_refl eq_refl eq_refl
               (demo_target_saves_everything Demo.fiveContacts [] Demo.targetClient "Contact")).
Defined.

(** The claim as written fails in insert mode with relationships: the
    parent's create is a write call against the target too, so one child in
    one batch of size one makes two.  It also fails when the target rejects
    a create: the failure ends the entity type's loop, and five records in
    batches of two make one write call. *)
Lemma parent_creates_are_write_calls :
  let run := transferObjectRecords Demo.JSON_stringify
               (Demo.remote (take 1 Demo.fiveContacts) [])
               "Contact" (Demo.options ["Contact"] true 1 None Insert) Demo.state in
  let rejected := transferObjectRecords Demo.JSON_stringify
                    (Demo.rejecting Demo.fiveContacts)
                    "Contact" (Demo.options ["Contact"] false 2 None Insert) Demo.state in
  (snd run = Ok tt
   /\ length (targetCreates (trace (fst run))) = 2%nat
   /\ ceilDiv (length (take 1 Demo.fiveContacts)) 1 = 1%nat)
  /\ (snd rejected = Ok tt
      /\ length (targetCreates (trace (fst rejected))) = 1%nat
      /\ ceilDiv (length Demo.fiveContacts) 2 = 3%nat).
Proof. repeat split; vm_compute; reflexivity. Qed.

(** * Further properties of the engine *)

(** ** RecordSanitizer: what stays *)

Lemma foldl_preserves_value (step : jsobj -> string -> jsobj) (keys : list string)
    (k : string) :
  (forall o key, key ∈ keys -> getProp (step o key) k = getProp o k) ->
  forall o, getProp (foldl step o keys) k = getProp o k.
Proof.
  induction keys as [|key keys IH]; intros Hstep o; simpl; [done|].
  rewrite IH.
  - apply Hstep, list_elem_of_here.
  - intros o' key' Hin. by apply Hstep, list_elem_of_further.
Qed.

Lemma getProp_deleteProp_ne (o : jsobj) (key k : string) :
  key <> k -> getProp (deleteProp o key) k = getProp o k.
Proof. intros Hne. rewrite getProp_deleteProp. apply String.eqb_neq in Hne. by rewrite Hne. Qed.

(** X1. Sanitization leaves every other field alone: a key outside the
    system-field list and the three login timestamps that does not end in
    [__pc] has the same value (or absence) after [removeSystemFields] as
    before. *)
Theorem sanitization_keeps_business_fields (record : jsobj) (k : string) :
  k ∉ systemFields ->
  Js.endsWith k "__pc" = false ->
  k ∉ systemTimestamps ->
  getProp (removeSystemFields record) k = getProp record k.
Proof.
  intros Hsys Hpc Hts. unfold removeSystemFields, removeTimestamps, removePersonFields,
    removeListed.
  rewrite foldl_preserves_value.
  2:{ intros o key _. destruct (matchesDateTime key && isString (getPropOr o key)); [|done].
      destruct (Js.arrayIncludes systemTimestamps key) eqn:E; [|done].
      apply getProp_deleteProp_ne. intros ->. by apply arrayIncludes_spec in E. }
  rewrite foldl_preserves_value.
  2:{ intros o key _. destruct (Js.endsWith key "__pc") eqn:E; [|done].
      apply getProp_deleteProp_ne. congruence. }
  apply foldl_preserves_value.
  intros o key Hin. destruct (hasOwnProperty o key); [|done].
  apply getProp_deleteProp_ne. congruence.
Qed.

Lemma sanitization_keeps_business_fields_witness :
  getProp (removeSystemFields
             [("Id", JStr "001A"); ("Name", JStr "Acme"); ("Rating__pc", JNum 3);
              ("CloseDate", JStr "2024-01-31")]) "CloseDate"
  = Some (JStr "2024-01-31").
Proof.
  rewrite sanitization_keeps_business_fields; [reflexivity | | reflexivity |].
  - intros H%arrayIncludes_spec. discriminate.
  - intros H%arrayIncludes_spec. discriminate.
Defined.

(** *** Sanitization as a filter *)

Lemma filter_filter_bool {A : Type} (f g : A -> bool) (l : list A) :
  List.filter f (List.filter g l) = List.filter (fun x => g x && f x) l.
Proof.
  induction l as [|x l IH]; simpl; [done|].
  destruct (g x); simpl; [|done]. destruct (f x); by rewrite IH.
Qed.

Lemma filter_all {A : Type} (f : A -> bool) (l : list A) :
  (forall x, x ∈ l -> f x = true) -> List.filter f l = l.
Proof.
  induction l as [|x l IH]; intros H; simpl; [done|].
  rewrite (H x) by apply list_elem_of_here. f_equal. apply IH.
  intros y Hy. by apply H, list_elem_of_further.
Qed.

Lemma filter_ext_elem {A : Type} (f g : A -> bool) (l : list A) :
  (forall x, x ∈ l -> f x = g x) -> List.filter f l = List.filter g l.
Proof. intros H. apply filter_ext_in. intros x Hx. by apply H, list_elem_of_In. Qed.

Lemma deleteProp_absent (o : jsobj) (key : string) :
  hasOwnProperty o key = false -> deleteProp o key = o.
Proof.
  unfold hasOwnProperty. intros H%bool_decide_eq_false.
  apply filter_all. intros [k v] Hin. simpl.
  destruct (String.eqb_spec k key) as [-> | Hne]; [|done].
  exfalso. apply H. destruct (getProp o key) eqn:E; [by eexists|].
  apply getProp_None in E. destruct E. apply elem_of_map. by exists (key, v).
Qed.

Lemma removeListed_filter (record : jsobj) :
  removeListed record
  = List.filter (fun p => negb (Js.arrayIncludes systemFields (fst p))) record.
Proof.
  unfold removeListed. generalize systemFields as l. intros l. revert record.
  induction l as [|field l IH]; intros record; simpl.
  - symmetry. by apply filter_all.
  - replace (if hasOwnProperty record field then deleteProp record field else record)
      with (deleteProp record field)
      by (destruct (hasOwnProperty record field) eqn:E; [done | by apply deleteProp_absent]).
    rewrite IH. unfold deleteProp. rewrite filter_filter_bool.
    apply filter_ext. intros [k v]. simpl. unfold Js.arrayIncludes. simpl.
    by destruct (String.eqb k field).
Qed.

Lemma foldl_delete_if (c : string -> bool) (keys : list string) (record : jsobj) :
  foldl (fun r key => if c key then deleteProp r key else r) record keys
  = List.filter (fun p => negb (c (fst p) && Js.arrayIncludes keys (fst p))) record.
Proof.
  revert record. induction keys as [|key keys IH]; intros record; simpl.
  - symmetry. apply filter_all. intros x _. by rewrite andb_false_r.
  - rewrite IH. destruct (c key) eqn:Hc.
    + unfold deleteProp. rewrite filter_filter_bool. apply filter_ext. intros [k v].
      simpl. unfold Js.arrayIncludes. simpl.
      destruct (String.eqb_spec k key) as [-> | Hne]; simpl; [by rewrite Hc|].
      done.
    + apply filter_ext. intros [k v]. simpl. unfold Js.arrayIncludes. simpl.
      destruct (String.eqb_spec k key) as [-> | Hne]; simpl; [by rewrite Hc|done].
Qed.

Lemma removePersonFields_filter (record : jsobj) :
  removePersonFields record
  = List.filter (fun p => negb (Js.endsWith (fst p) "__pc")) record.
Proof.
  unfold removePersonFields.
  rewrite (foldl_delete_if (fun key => Js.endsWith key "__pc")).
  apply filter_ext_elem. intros [k v] Hin. simpl.
  assert (Js.arrayIncludes (objectKeys record) k = true) as ->; [|by rewrite andb_true_r].
  apply arrayIncludes_spec, elem_of_map. by exists (k, v).
Qed.

Lemma keys_filter_subset (f : string * jsval -> bool) (record : jsobj) (k : string) :
  k ∈ objectKeys (List.filter f record) -> k ∈ objectKeys record.
Proof.
  unfold objectKeys. rewrite !elem_of_map.
  intros [p [-> [_ Hin]%elem_of_List_filter]]. by exists p.
Qed.

Lemma NoDup_keys_filter (f : string * jsval -> bool) (record : jsobj) :
  NoDup (objectKeys record) -> NoDup (objectKeys (List.filter f record)).
Proof.
  induction record as [|[k v] record IH]; simpl; [done|].
  intros [Hk Hnd]%NoDup_cons. destruct (f (k, v)); simpl; [|by apply IH].
  apply NoDup_cons. split; [|by apply IH].
  intros Hin. by apply Hk, (keys_filter_subset f).
Qed.

Lemma getPropOr_cons (k key : string) (v : jsval) (record : jsobj) :
  getPropOr ((k, v) :: record) key = if String.eqb k key then v else getPropOr record key.
Proof. unfold getPropOr. simpl. by destruct (String.eqb k key). Qed.

Lemma deleteProp_cons (k key : string) (v : jsval) (record : jsobj) :
  deleteProp ((k, v) :: record) key
  = if String.eqb k key then deleteProp record key else (k, v) :: deleteProp record key.
Proof. unfold deleteProp. simpl. by destruct (String.eqb k key). Qed.

Lemma deleteProp_missing (record : jsobj) (key : string) :
  key ∉ objectKeys record -> deleteProp record key = record.
Proof.
  intros Hk. apply filter_all. intros [k v] Hin. simpl.
  destruct (String.eqb_spec k key) as [-> | Hne]; [|done].
  destruct Hk. apply elem_of_map. by exists (key, v).
Qed.

(** One round of the third loop deletes the entry under [key] when that
    entry is a string-valued login timestamp, in a record whose keys are
    distinct. *)
Lemma removeTimestamps_step_filter (record : jsobj) (key : string) :
  NoDup (objectKeys record) ->
  (if matchesDateTime key && isString (getPropOr record key)
   then (if Js.arrayIncludes systemTimestamps key then deleteProp record key else record)
   else record)
  = List.filter
      (fun p => negb (String.eqb (fst p) key
                      && (matchesDateTime (fst p) && isString (snd p)
                          && Js.arrayIncludes systemTimestamps (fst p))))
      record.
Proof.
  induction record as [|[k v] record IH]; intros Hnd.
  - unfold deleteProp. cbn [List.filter].
    by destruct (matchesDateTime key && isString (getPropOr [] key)),
                (Js.arrayIncludes systemTimestamps key).
  - change (objectKeys ((k, v) :: record)) with (k :: objectKeys record) in Hnd.
    apply NoDup_cons in Hnd as [Hk Hnd]. specialize (IH Hnd).
    rewrite getPropOr_cons, deleteProp_cons. cbn [List.filter fst snd].
    destruct (String.eqb_spec k key) as [-> | Hne].
    + assert (Hrest : List.filter
                (fun p => negb (String.eqb (fst p) key
                                && (matchesDateTime (fst p) && isString (snd p)
                                    && Js.arrayIncludes systemTimestamps (fst p))))
                record = record).
      { apply filter_all. intros [k' v'] Hin. simpl.
        destruct (String.eqb_spec k' key) as [-> | Hne']; [|done].
        destruct Hk. apply elem_of_map. by exists (key, v'). }
      rewrite Hrest, (deleteProp_missing record key Hk). cbn [andb].
      by destruct (matchesDateTime key && isString v),
                  (Js.arrayIncludes systemTimestamps key).
    + cbn [andb negb]. rewrite <- IH.
      by destruct (matchesDateTime key && isString (getPropOr record key)),
                  (Js.arrayIncludes systemTimestamps key).
Qed.

Lemma removeTimestamps_filter_keys (keys : list string) (record : jsobj) :
  NoDup (objectKeys record) ->
  foldl (fun r key =>
           if matchesDateTime key && isString (getPropOr r key)
           then (if Js.arrayIncludes systemTimestamps key then deleteProp r key else r)
           else r)
        record keys
  = List.filter
      (fun p => negb (Js.arrayIncludes keys (fst p)
                      && (matchesDateTime (fst p) && isString (snd p)
                          && Js.arrayIncludes systemTimestamps (fst p))))
      record.
Proof.
  revert record. induction keys as [|key keys IH]; intros record Hnd; cbn [foldl].
  - symmetry. by apply filter_all.
  - rewrite removeTimestamps_step_filter by done.
    rewrite IH by by apply NoDup_keys_filter.
    rewrite filter_filter_bool. apply filter_ext. intros [k v]. cbn [fst snd].
    unfold Js.arrayIncludes.
    change (existsb (String.eqb k) (key :: keys))
      with (String.eqb k key || existsb (String.eqb k) keys).
    by destruct (String.eqb k key), (existsb (String.eqb k) keys),
                (matchesDateTime k && isString v && existsb (String.eqb k) systemTimestamps).
Qed.

Lemma removeSystemFields_filter (record : jsobj) :
  NoDup (objectKeys record) ->
  removeSystemFields record = List.filter sanitizerKeeps record.
Proof.
  intros Hnd. unfold removeSystemFields, removeTimestamps.
  rewrite removePersonFields_filter, removeListed_filter, filter_filter_bool.
  set (cleaned := List.filter _ record).
  rewrite removeTimestamps_filter_keys by by apply NoDup_keys_filter.
  rewrite (filter_ext_elem _
    (fun p => negb (matchesDateTime (fst p) && isString (snd p)
                    && Js.arrayIncludes systemTimestamps (fst p)))).
  - unfold cleaned. rewrite filter_filter_bool. apply filter_ext. intros [k v]. reflexivity.
  - intros [k v] Hin. cbn [fst snd].
    assert (Js.arrayIncludes (objectKeys cleaned) k = true) as ->; [|done].
    apply arrayIncludes_spec, elem_of_map. by exists (k, v).
Qed.

(** X2. On a record whose keys are distinct, sanitization is a filter: it
    keeps, in order and with their values, exactly the entries whose key is
    outside the system-field list and does not end in [__pc], except that
    [LastLoginDate], [LastPasswordChangeDate] and [EmailBouncedDate] go
    when (and only when) their value is a string. *)
Theorem sanitization_is_a_filter (record : jsobj) :
  NoDup (objectKeys record) ->
  removeSystemFields record
  = List.filter
      (fun entry =>
         negb (Js.arrayIncludes systemFields (fst entry))
         && negb (Js.endsWith (fst entry) "__pc")
         && negb (matchesDateTime (fst entry) && isString (snd entry)
                  && Js.arrayIncludes
                       ["LastLoginDate"; "LastPasswordChangeDate"; "EmailBouncedDate"]
                       (fst entry)))
      record.
Proof. apply removeSystemFields_filter. Qed.

Lemma sanitization_is_a_filter_witness :
  removeSystemFields
    [("Id", JStr "005A"); ("Name", JStr "Ada"); ("LastLoginDate", JStr "2024-01-31");
     ("EmailBouncedDate", JNull); ("Rating__pc", JNum 3)]
  = [("Name", JStr "Ada"); ("EmailBouncedDate", JNull)].
Proof.
  rewrite sanitization_is_a_filter; [reflexivity|].
  apply NoDup_ListNoDup. repeat constructor; simpl; intuition discriminate.
Defined.

(** X3. Sanitizing twice is sanitizing once, on a record whose keys are
    distinct. *)
Theorem sanitization_is_idempotent (record : jsobj) :
  NoDup (objectKeys record) ->
  removeSystemFields (removeSystemFields record) = removeSystemFields record.
Proof.
  intros Hnd. rewrite (removeSystemFields_filter record Hnd).
  rewrite removeSystemFields_filter by by apply NoDup_keys_filter.
  rewrite filter_filter_bool. apply filter_ext. intros p. by destruct (sanitizerKeeps p).
Qed.

Lemma sanitization_is_idempotent_witness :
  removeSystemFields
    (removeSystemFields [("Id", JStr "005A"); ("Name", JStr "Ada"); ("Rating__pc", JNum 3)])
  = removeSystemFields [("Id", JStr "005A"); ("Name", JStr "Ada"); ("Rating__pc", JNum 3)].
Proof.
  apply sanitization_is_idempotent.
  apply NoDup_ListNoDup. repeat constructor; simpl; intuition discriminate.
Defined.

(** ** Parent payloads in insert mode *)

Lemma foldl_ext_fun {A B : Type} (f g : A -> B -> A) (l : list B) (a : A) :
  (forall a b, f a b = g a b) -> foldl f a l = foldl g a l.
Proof.
  intros H. revert a. induction l as [|b l IH]; intros a; simpl; [done|].
  by rewrite H, IH.
Qed.

Lemma cleanParent_filter (parentDescribe : DescribeResult) (record : jsobj) :
  cleanParent parentDescribe record
  = List.filter
      (fun p =>
         negb (match List.find (fun f => String.eqb (field_name f) (fst p))
                               (fields parentDescribe) with
               | Some field => String.eqb (field_type field) "reference"
               | None => false
               end))
      (removeSystemFields record).
Proof.
  unfold cleanParent.
  rewrite (foldl_ext_fun _
    (fun c key =>
       if match List.find (fun f => String.eqb (field_name f) key) (fields parentDescribe) with
          | Some field => String.eqb (field_type field) "reference"
          | None => false
          end
       then deleteProp c key else c)).
  2:{ intros c key. by destruct (List.find _ _). }
  rewrite (foldl_delete_if
    (fun key =>
       match List.find (fun f => String.eqb (field_name f) key) (fields parentDescribe) with
       | Some field => String.eqb (field_type field) "reference"
       | None => false
       end)).
  apply filter_ext_elem. intros [k v] Hin. cbn [fst].
  assert (Js.arrayIncludes (objectKeys (removeSystemFields record)) k = true) as ->;
    [|by rewrite andb_true_r].
  apply arrayIncludes_spec, elem_of_map. by exists (k, v).
Qed.

(** X4. A parent record prepared for insert carries no system field, no
    key ending in [__pc], and no key that the parent's schema lists (first)
    as a field of type [reference]; what it keeps, it keeps with the
    source's value. *)
Theorem parent_payload_has_no_lookup (parentDescribe : DescribeResult) (record : jsobj) :
  Forall (fun key =>
            (key ∉ systemFields)
            /\ Js.endsWith key "__pc" = false
            /\ (forall field,
                  List.find (fun f => String.eqb (field_name f) key) (fields parentDescribe)
                    = Some field ->
                  field_type field <> "reference"))
         (objectKeys (cleanParent parentDescribe record))
  /\ (forall key, getProp (cleanParent parentDescribe record) key = None
                  \/ getProp (cleanParent parentDescribe record) key = getProp record key).
Proof.
  split.
  - apply Forall_forall. intros key. rewrite cleanParent_filter.
    unfold objectKeys. rewrite elem_of_map.
    intros [[k v] [-> [Hkeep Hin]%elem_of_List_filter]]. cbn [fst] in *.
    assert (Hkey : k ∈ objectKeys (removeSystemFields record)).
    { apply elem_of_map. by exists (k, v). }
    apply removeSystemFields_keys in Hkey as (_ & Hsys & Hpc).
    split; [done|]. split; [done|].
    intros field Hfind. rewrite Hfind in Hkeep.
    apply negb_true_iff, String.eqb_neq in Hkeep. done.
  - intros key. unfold cleanParent.
    match goal with |- context [foldl ?f ?c ?l] =>
      destruct (foldl_keeps_values f l key) with (o := c) as [H | H] end.
    + intros o k. destruct (List.find _ _) as [field|]; [|by right].
      destruct (String.eqb (field_type field) "reference");
        [apply deleteProp_keeps_value | by right].
    + by left.
    + rewrite H. apply removeSystemFields_value.
Qed.

(** ** Batches *)

Lemma Forall_slicesFrom {A : Type} (fuel i size : nat) (xs : list A) :
  (0 < size)%nat ->
  Forall (fun batch => (0 < length batch <= size)%nat) (slicesFrom fuel i size xs).
Proof.
  intros Hsize. revert i. induction fuel as [|fuel IH]; intros i; simpl; [constructor|].
  destruct (Nat.ltb_spec i (length xs)) as [Hlt | Hge]; [|constructor].
  constructor; [|apply IH].
  rewrite length_take, length_drop. lia.
Qed.

(** X5. With a positive size the batch loop cuts the records into
    consecutive slices: put back together they are the records, in order,
    and each slice holds at least one and at most [size] of them. *)
Theorem batches_partition_records {A : Type} (size : nat) (xs : list A) :
  (0 < size)%nat ->
  concat (slices size xs) = xs
  /\ Forall (fun batch => (0 < length batch <= size)%nat) (slices size xs).
Proof.
  intros Hsize. split; [by apply concat_slices | by apply Forall_slicesFrom].
Qed.

Lemma batches_partition_records_witness :
  concat (slices 2 Demo.fiveContacts) = Demo.fiveContacts
  /\ Forall (fun batch => (0 < length batch <= 2)%nat) (slices 2 Demo.fiveContacts).
Proof. apply batches_partition_records. lia. Defined.

(** ** The composite request *)

Lemma setProp_fresh (o : jsobj) (k : string) (v : jsval) :
  k ∉ objectKeys o -> setProp o k v = (o ++ [(k, v)])%list.
Proof.
  induction o as [|[k0 v0] o IH]; intros Hk; simpl; [done|].
  change (objectKeys ((k0, v0) :: o)) with (k0 :: objectKeys o) in Hk.
  apply not_elem_of_cons in Hk as [Hne Hk].
  apply not_eq_sym, String.eqb_neq in Hne. rewrite Hne. by rewrite IH.
Qed.

Lemma foldl_setProp_fresh (o record : jsobj) :
  NoDup (objectKeys o ++ objectKeys record) ->
  foldl (fun o p => setProp o (fst p) (snd p)) o record = (o ++ record)%list.
Proof.
  revert o. induction record as [|[k v] record IH]; intros o Hnd; simpl.
  - by rewrite app_nil_r.
  - change (objectKeys ((k, v) :: record)) with (k :: objectKeys record) in Hnd.
    rewrite setProp_fresh.
    2:{ apply NoDup_app in Hnd as (_ & Hdisj & _). intros Hin.
        apply (Hdisj k Hin), list_elem_of_here. }
    rewrite IH; [by rewrite <- app_assoc|].
    unfold objectKeys in *. rewrite map_app. simpl.
    rewrite <- app_assoc. simpl. done.
Qed.

(** X6. In a composite request a sanitized record goes out as the record
    itself behind one [attributes: { type }] entry naming the object type
    (for a record whose keys are distinct). *)
Theorem composite_record_gets_type (sobjectType : string) (record : jsobj) :
  NoDup (objectKeys record) ->
  withAttributes sobjectType (removeSystemFields record)
  = ("attributes", JObj [("type", JStr sobjectType)]) :: removeSystemFields record.
Proof.
  intros Hnd. unfold withAttributes.
  rewrite foldl_setProp_fresh; [done|].
  change (objectKeys [("attributes", JObj [("type", JStr sobjectType)])])
    with ["attributes"].
  cbn [app]. apply NoDup_cons. split.
  - intros (_ & Hsys & _)%removeSystemFields_keys. apply Hsys.
    apply arrayIncludes_spec. reflexivity.
  - rewrite removeSystemFields_filter by done. by apply NoDup_keys_filter.
Qed.

Lemma composite_record_gets_type_witness :
  withAttributes "Contact"
    (removeSystemFields [("attributes", JObj [("type", JStr "Contact")]);
                         ("Id", JStr "003A"); ("LastName", JStr "Ada")])
  = [("attributes", JObj [("type", JStr "Contact")]); ("LastName", JStr "Ada")].
Proof.
  rewrite composite_record_gets_type; [reflexivity|].
  apply NoDup_ListNoDup. repeat constructor; simpl; intuition discriminate.
Defined.

(** ** [parseFromObject] *)

Lemma append_assoc (a b c : string) : (a +:+ b) +:+ c = a +:+ b +:+ c.
Proof. induction a as [|x a IH]; [done|]. rewrite !append_cons. by rewrite IH. Qed.

Lemma spanWord_spec (s w r : string) :
  Js.spanWord s = (w, r) ->
  s = w +:+ r /\ allChars Js.isWordChar w = true /\ fst (Js.spanWord r) = "".
Proof.
  revert w r. induction s as [|c s IH]; intros w r; cbn [Js.spanWord].
  - by intros [= <- <-].
  - destruct (Js.isWordChar c) eqn:Hc.
    + destruct (Js.spanWord s) as [w' r'] eqn:E. intros [= <- <-].
      destruct (IH w' r' eq_refl) as (-> & Hw & Hr).
      rewrite append_cons. cbn [allChars]. by rewrite Hc.
    + intros [= <- <-]. rewrite append_nil_l. cbn [allChars Js.spanWord]. by rewrite Hc.
Qed.

Lemma dropSpaces_spec (s : string) :
  exists ws, s = ws +:+ Js.dropSpaces s /\ allChars Js.isSpace ws = true
             /\ String.length s = (String.length ws + String.length (Js.dropSpaces s))%nat.
Proof.
  induction s as [|c s (ws & Hs & Hws & Hlen)]; cbn [Js.dropSpaces].
  - by exists "".
  - destruct (Js.isSpace c) eqn:Hc.
    + exists (String c ws). rewrite append_cons, <- Hs. cbn [allChars].
      rewrite Hc, Hws. split; [done|]. split; [done|]. simpl. lia.
    + by exists "".
Qed.

Lemma substring_dropString (n : nat) (s : string) :
  s = String.substring 0 n s +:+ Js.dropString n s.
Proof.
  revert s. induction n as [|n IH]; intros [|c s]; simpl; try done.
  rewrite append_cons. by rewrite <- IH.
Qed.

Lemma matchFromHere_spec (s objectType : string) :
  matchFromHere s = Some objectType ->
  exists kw ws rest,
    s = kw +:+ ws +:+ objectType +:+ rest
    /\ Js.toLowerCase kw = "from"
    /\ ws <> "" /\ allChars Js.isSpace ws = true
    /\ objectType <> "" /\ allChars Js.isWordChar objectType = true
    /\ fst (Js.spanWord rest) = "".
Proof.
  unfold matchFromHere.
  destruct (String.eqb_spec (Js.toLowerCase (String.substring 0 4 s)) "from") as [Hkw|];
    [|done].
  destruct (dropSpaces_spec (Js.dropString 4 s)) as (ws & Hws & Hsp & Hlen).
  destruct (Nat.ltb_spec (String.length (Js.dropSpaces (Js.dropString 4 s)))
                         (String.length (Js.dropString 4 s))) as [Hlt|]; [|done].
  destruct (Js.spanWord (Js.dropSpaces (Js.dropString 4 s))) as [w rest] eqn:Hspan.
  destruct (String.eqb_spec w "") as [|Hw]; [done|]. intros [= <-].
  apply spanWord_spec in Hspan as (Hrest & Hword & Hmax).
  exists (String.substring 0 4 s), ws, rest.
  split; [|split; [done|]; split; [|done]].
  - rewrite <- Hrest, <- Hws. apply substring_dropString.
  - intros ->. change (String.length "") with 0%nat in Hlen. lia.
Qed.

Lemma scanFrom_spec (prevWord : bool) (s objectType : string) :
  scanFrom prevWord s = Some objectType ->
  exists pre s', s = pre +:+ s' /\ matchFromHere s' = Some objectType.
Proof.
  revert prevWord. induction s as [|c s IH]; intros prevWord; cbn [scanFrom]; [done|].
  destruct (if prevWord then None else matchFromHere (String c s)) as [w|] eqn:E.
  - intros [= ->]. destruct prevWord; [done|]. by exists "", (String c s).
  - intros (pre & s' & -> & H)%IH. exists (String c pre), s'. by rewrite append_cons.
Qed.

Lemma parseFromObject_shape (soql objectType : string) :
  parseFromObject soql = Some objectType ->
  exists pre kw ws rest,
    soql = pre +:+ kw +:+ ws +:+ objectType +:+ rest
    /\ Js.toLowerCase kw = "from"
    /\ ws <> "" /\ allChars Js.isSpace ws = true
    /\ objectType <> "" /\ allChars Js.isWordChar objectType = true
    /\ fst (Js.spanWord rest) = "".
Proof.
  intros (pre & s' & -> & (kw & ws & rest & -> & H)%matchFromHere_spec)%scanFrom_spec.
  by exists pre, kw, ws, rest.
Qed.

(** X7. What [parseFromObject] returns is a non-empty identifier of word
    characters that stands in the query right after a [FROM] keyword (in
    any letter case) and at least one white-space character, and that ends
    where the word ends. *)
Theorem parsed_object_follows_from (soql objectType : string) :
  parseFromObject soql = Some objectType ->
  exists pre kw ws rest,
    soql = pre +:+ kw +:+ ws +:+ objectType +:+ rest
    /\ Js.toLowerCase kw = "from"
    /\ ws <> "" /\ allChars Js.isSpace ws = true
    /\ objectType <> "" /\ allChars Js.isWordChar objectType = true
    /\ fst (Js.spanWord rest) = "".
Proof. apply parseFromObject_shape. Qed.

Lemma parsed_object_follows_from_witness :
  exists pre kw ws rest,
    "select Id, Name
from  Invoice__c inv where Name != null"
    = pre +:+ kw +:+ ws +:+ "Invoice__c" +:+ rest
    /\ Js.toLowerCase kw = "from"
    /\ ws <> "" /\ allChars Js.isSpace ws = true
    /\ "Invoice__c" <> "" /\ allChars Js.isWordChar "Invoice__c" = true
    /\ fst (Js.spanWord rest) = "".
Proof. apply parsed_object_follows_from. reflexivity. Defined.

Lemma toLowerCase_app (a b : string) :
  Js.toLowerCase (a +:+ b) = Js.toLowerCase a +:+ Js.toLowerCase b.
Proof.
  induction a as [|c a IH]; [done|].
  rewrite append_cons. cbn [Js.toLowerCase]. by rewrite IH, append_cons.
Qed.

(** X8. A query without the letters [from] in a row, in whatever case,
    has no object type: [parseFromObject] returns [null]. *)
Theorem query_without_from_has_no_object (soql : string) :
  Js.includes (Js.toLowerCase soql) "from" = false ->
  parseFromObject soql = None.
Proof.
  intros Hno. destruct (parseFromObject soql) as [objectType|] eqn:E; [|done].
  apply parseFromObject_shape in E as (pre & kw & ws & rest & -> & Hkw & _).
  rewrite !toLowerCase_app, Hkw in Hno.
  rewrite includes_app_r in Hno; [done|].
  apply includes_prefix, prefix_app.
Qed.

Lemma query_without_from_has_no_object_witness :
  parseFromObject "SELECT Id, Name Account LIMIT 10" = None.
Proof. apply query_without_from_has_no_object. reflexivity. Defined.

(** ** Listing object types *)

Lemma endsWith_includes (s suf x : string) :
  Js.endsWith s suf = true -> Js.includes suf x = true -> Js.includes s x = true.
Proof. intros [p ->]%endsWith_spec Hx. by apply includes_app_r. Qed.

(** X9. The filter of [getObjectTypes] keeps an object exactly when it is
    queryable, its name ends in none of the excluded suffixes, and it is
    createable or has [__] in its name: the three inclusion cases of the
    source come to that, so a queryable custom or packaged object is listed
    whether or not it is createable. *)
Theorem listed_object_types (sobject : SObjectInfo) :
  isListedObject sobject = true
  <-> sobject_queryable sobject = true
      /\ (forall pattern, pattern ∈ excludePatterns ->
                          Js.endsWith (sobject_name sobject) pattern = false)
      /\ (sobject_createable sobject = true
          \/ Js.includes (sobject_name sobject) "__" = true).
Proof.
  unfold isListedObject.
  destruct (existsb (fun pattern => Js.endsWith (sobject_name sobject) pattern) excludePatterns)
    eqn:Hex.
  - split; [done|]. intros (_ & Hnone & _).
    apply existsb_exists in Hex as (pattern & Hin%list_elem_of_In & Hends).
    rewrite (Hnone pattern Hin) in Hends. done.
  - assert (Hnone : forall pattern, pattern ∈ excludePatterns ->
                      Js.endsWith (sobject_name sobject) pattern = false).
    { intros pattern Hin%list_elem_of_In.
      destruct (Js.endsWith (sobject_name sobject) pattern) eqn:E; [|done].
      assert (existsb (fun pattern => Js.endsWith (sobject_name sobject) pattern)
                      excludePatterns = true) by (apply existsb_exists; eauto).
      congruence. }
    destruct (sobject_queryable sobject); [|split; [done | by intros [? _]]].
    cbn [andb].
    destruct (Js.includes (sobject_name sobject) "__") eqn:Hincl.
    + split; [auto|]. intros _. cbn [negb andb orb].
      by destruct (Js.endsWith (sobject_name sobject) "__c"), (sobject_createable sobject).
    + destruct (Js.endsWith (sobject_name sobject) "__c") eqn:Hc.
      { rewrite (endsWith_includes _ "__c" "__" Hc eq_refl) in Hincl. done. }
      cbn [negb andb orb]. rewrite andb_true_r, !orb_false_r.
      split; [auto|]. by intros (_ & _ & [? | ?]).
Qed.

Lemma listed_object_types_witness :
  isListedObject (mkSObject "Invoice__c" "Invoice" true true false) = true.
Proof.
  apply listed_object_types. cbn [sobject_queryable sobject_name sobject_createable].
  split; [reflexivity|]. split; [|right; reflexivity].
  intros pattern Hp. unfold excludePatterns in Hp.
  repeat (apply elem_of_cons in Hp as [-> | Hp]; [reflexivity|]).
  by apply elem_of_nil in Hp.
Defined.

(** *** [extractNamespace] *)

Lemma prefix_cons (a b : ascii) (s1 s2 : string) :
  String.prefix (String a s1) (String b s2) = Ascii.eqb a b && String.prefix s1 s2.
Proof.
  change (String.prefix (String a s1) (String b s2))
    with (if ascii_dec a b then String.prefix s1 s2 else false).
  destruct (ascii_dec a b) as [-> | Hne].
  - by rewrite Ascii.eqb_refl.
  - apply Ascii.eqb_neq in Hne. by rewrite Hne.
Qed.

Lemma prefix_dunder (s : string) :
  String.prefix "__" s
  = match s with
    | String c (String c2 _) => Ascii.eqb c "_" && Ascii.eqb c2 "_"
    | _ => false
    end.
Proof.
  destruct s as [|c [|c2 rest]]; [done | |].
  - rewrite prefix_cons. apply andb_false_r.
  - rewrite !prefix_cons, (Ascii.eqb_sym "_" c), (Ascii.eqb_sym "_" c2).
    destruct rest; by rewrite andb_true_r.
Qed.

Lemma includes_cons (c : ascii) (s x : string) :
  Js.includes (String c s) x = String.prefix x (String c s) || Js.includes s x.
Proof. reflexivity. Qed.

(** The shape of [s.split('__')]: one piece, the string itself, when [__]
    does not occur; otherwise a first piece free of [__] that the first
    [__] follows. *)
Lemma splitDunder_shape (n : nat) (s : string) :
  (String.length s <= n)%nat ->
  match splitDunder s with
  | [] => False
  | [p] => p = s /\ Js.includes s "__" = false
  | p :: _ :: _ =>
      Js.includes s "__" = true /\ Js.includes p "__" = false
      /\ exists rest, s = p +:+ "__" +:+ rest
  end.
Proof.
  revert s. induction n as [|n IH]; intros s Hlen.
  { destruct s; [by split | simpl in Hlen; lia]. }
  destruct s as [|c [|c2 rest]].
  - by split.
  - cbn [splitDunder]. split; [done|]. rewrite includes_cons, prefix_dunder. done.
  - assert (Hs' : (String.length (String c2 rest) <= n)%nat) by (simpl in *; lia).
    assert (Hrest : (String.length rest <= n)%nat) by (simpl in *; lia).
    pose proof (IH _ Hs') as Htail. pose proof (IH _ Hrest) as Hrest'.
    change (splitDunder (String c (String c2 rest)))
      with (if Ascii.eqb c "_" && Ascii.eqb c2 "_"
            then EmptyString :: splitDunder rest
            else match splitDunder (String c2 rest) with
                 | p :: ps => String c p :: ps
                 | [] => [String c EmptyString]
                 end).
    destruct (Ascii.eqb c "_" && Ascii.eqb c2 "_") eqn:Hdd.
    + destruct (splitDunder rest) as [|q qs]; [done|].
      split; [by rewrite includes_cons, prefix_dunder, Hdd|]. split; [done|].
      exists rest. apply andb_true_iff in Hdd as [->%Ascii.eqb_eq ->%Ascii.eqb_eq]. done.
    + assert (Hpre : String.prefix "__" (String c (String c2 rest)) = false)
        by by rewrite prefix_dunder.
      destruct (splitDunder (String c2 rest)) as [|p [|q qs]]; [done| |].
      * destruct Htail as [-> Hno]. split; [done|].
        by rewrite includes_cons, Hpre, Hno.
      * destruct Htail as (Hyes & Hp & tail & Htail).
        split; [by rewrite includes_cons, Hyes, orb_true_r|]. split.
        -- rewrite includes_cons, Hp, orb_false_r, prefix_dunder.
           destruct p as [|c3 p]; [done|].
           rewrite append_cons in Htail. injection Htail as <- _. done.
        -- exists tail. by rewrite append_cons, <- Htail.
Qed.

(** The first piece of [s.split('__')] ends where the first [__] of [s]
    starts: followed by one more underscore it still has no [__]. *)
Lemma splitDunder_first (n : nat) (s : string) :
  (String.length s <= n)%nat ->
  match splitDunder s with
  | p :: _ :: _ => Js.includes (p +:+ "_") "__" = false
  | _ => True
  end.
Proof.
  revert s. induction n as [|n IH]; intros s Hlen.
  { destruct s; [done | simpl in Hlen; lia]. }
  destruct s as [|c [|c2 rest]]; [done | done |].
  assert (Hs' : (String.length (String c2 rest) <= n)%nat) by (simpl in *; lia).
  assert (Hrest : (String.length rest <= n)%nat) by (simpl in *; lia).
  pose proof (IH _ Hs') as Htail.
  pose proof (splitDunder_shape _ _ Hs') as Hshape.
  change (splitDunder (String c (String c2 rest)))
    with (if Ascii.eqb c "_" && Ascii.eqb c2 "_"
          then EmptyString :: splitDunder rest
          else match splitDunder (String c2 rest) with
               | p :: ps => String c p :: ps
               | [] => [String c EmptyString]
               end).
  destruct (Ascii.eqb c "_" && Ascii.eqb c2 "_") eqn:Hdd.
  - pose proof (splitDunder_shape _ _ Hrest) as Hne.
    destruct (splitDunder rest) as [|q qs]; [done|]. reflexivity.
  - destruct (splitDunder (String c2 rest)) as [|p [|q qs]]; [done | done |].
    destruct Hshape as (_ & _ & tail & Hname).
    rewrite append_cons, includes_cons, Htail, orb_false_r, prefix_dunder.
    destruct p as [|c3 p].
    + rewrite append_nil_l in Hname. injection Hname as -> _. exact Hdd.
    + rewrite !append_cons in Hname |- *. injection Hname as -> _. exact Hdd.
Qed.

(** The first [__] of a string is where it is: two ways of cutting a string
    at a [__] that nothing before overlaps are the same. *)
Lemma first_dunder_unique (a b r r' : string) :
  a +:+ "__" +:+ r = b +:+ "__" +:+ r' ->
  Js.includes (a +:+ "_") "__" = false ->
  Js.includes (b +:+ "_") "__" = false ->
  a = b.
Proof.
  assert (Hstart : forall b r r', "__" +:+ r = b +:+ "__" +:+ r' ->
                     Js.includes (b +:+ "_") "__" = false -> b = "").
  { intros [|c [|d b']] r0 r0' Heq Hb; [done | |].
    - rewrite !append_cons, append_nil_l in Heq. injection Heq as <- _.
      rewrite append_cons, append_nil_l in Hb. done.
    - rewrite !append_cons, append_nil_l in Heq. injection Heq as <- <- _.
      rewrite !append_cons, includes_cons, prefix_dunder in Hb. done. }
  revert b. induction a as [|c a IH]; intros b Heq Ha Hb.
  - rewrite append_nil_l in Heq. symmetry. by apply (Hstart b r r').
  - destruct b as [|d b].
    + rewrite append_nil_l in Heq. symmetry in Heq. by apply (Hstart _ r' r) in Heq.
    + rewrite !append_cons in Heq, Ha, Hb. injection Heq as <- Heq.
      rewrite includes_cons in Ha, Hb.
      apply orb_false_iff in Ha as [_ Ha]. apply orb_false_iff in Hb as [_ Hb].
      f_equal. by apply IH.
Qed.

Lemma extractNamespace_shape (objectName : string) :
  match extractNamespace objectName with
  | Some namespace =>
      namespace <> "" /\ Js.includes (namespace +:+ "_") "__" = false
      /\ exists rest, objectName = namespace +:+ "__" +:+ rest
  | None =>
      Js.includes objectName "__" = false \/ Js.startsWith objectName "__" = true
  end.
Proof.
  unfold extractNamespace.
  pose proof (splitDunder_shape _ objectName (Nat.le_refl _)) as Hshape.
  pose proof (splitDunder_first _ objectName (Nat.le_refl _)) as Hfirst.
  destruct (splitDunder objectName) as [|p [|q qs]]; [done| |].
  - left. by destruct Hshape.
  - destruct Hshape as (Hyes & Hp & rest & Hname). cbn [length Nat.leb andb hd].
    destruct (Js.startsWith objectName "__") eqn:Hstart; cbn [negb]; [by right|].
    split; [|by eauto]. intros ->. unfold Js.startsWith in Hstart.
    rewrite Hname, append_nil_l, prefix_app in Hstart. done.
Qed.

(** X10. [extractNamespace] answers with a namespace exactly when the
    object name is that namespace, non-empty, followed by the first [__] of
    the name and a rest (the first: the namespace with one more underscore
    has no [__]); it answers [null] exactly for the names without [__] and
    the names that start with [__].  (So a plain custom object
    [Invoice__c] gets the namespace [Invoice].) *)
Theorem namespace_is_the_first_segment (objectName : string) :
  (forall namespace,
     extractNamespace objectName = Some namespace
     <-> namespace <> "" /\ Js.includes (namespace +:+ "_") "__" = false
         /\ exists rest, objectName = namespace +:+ "__" +:+ rest)
  /\ (extractNamespace objectName = None
      <-> Js.includes objectName "__" = false \/ Js.startsWith objectName "__" = true).
Proof.
  pose proof (extractNamespace_shape objectName) as Hshape.
  assert (Hcut : forall ns rest, objectName = ns +:+ "__" +:+ rest ->
                                 Js.includes objectName "__" = true).
  { intros ns rest ->. apply includes_app_r, includes_prefix, prefix_app. }
  assert (Hhead : forall ns rest, ns <> "" -> Js.includes (ns +:+ "_") "__" = false ->
                    objectName = ns +:+ "__" +:+ rest ->
                    Js.startsWith objectName "__" = false).
  { intros ns rest Hne Hns Hname.
    destruct (Js.startsWith objectName "__") eqn:Hstart; [|done]. exfalso. apply Hne.
    unfold Js.startsWith in Hstart. rewrite prefix_dunder in Hstart.
    destruct objectName as [|c [|c2 tail]]; [done | done |].
    apply andb_true_iff in Hstart as [->%Ascii.eqb_eq ->%Ascii.eqb_eq].
    symmetry. apply (first_dunder_unique "" ns tail rest); [by rewrite append_nil_l | done | done]. }
  split.
  - intros namespace. split.
    + intros E. by rewrite E in Hshape.
    + intros (Hne & Hns & rest & Hname).
      destruct (extractNamespace objectName) as [found|].
      * destruct Hshape as (_ & Hfound & rest' & Hname'). f_equal.
        apply (first_dunder_unique found namespace rest' rest); [congruence | done | done].
      * destruct Hshape as [Hno | Hstart].
        -- by rewrite (Hcut _ _ Hname) in Hno.
        -- by rewrite (Hhead _ _ Hne Hns Hname) in Hstart.
  - split.
    + intros E. by rewrite E in Hshape.
    + intros Hnone. destruct (extractNamespace objectName) as [found|]; [|done].
      destruct Hshape as (Hne & Hfound & rest & Hname). destruct Hnone as [Hno | Hstart].
      * by rewrite (Hcut _ _ Hname) in Hno.
      * by rewrite (Hhead _ _ Hne Hfound Hname) in Hstart.
Qed.

Lemma namespace_is_the_first_segment_witness :
  extractNamespace "Invoice__c" = Some "Invoice"
  /\ extractNamespace "a___b" = Some "a"
  /\ extractNamespace "___x" = None.
Proof.
  split; [|split].
  - apply (proj1 (namespace_is_the_first_segment "Invoice__c")).
    split; [discriminate|]. split; [reflexivity|]. by exists "c".
  - apply (proj1 (namespace_is_the_first_segment "a___b")).
    split; [discriminate|]. split; [reflexivity|]. by exists "_b".
  - apply (proj2 (namespace_is_the_first_segment "___x")). right. reflexivity.
Defined.

(** ** Collecting the parent ids of a batch *)

Lemma addParentId_keys (acc : list (string * list string)) (p id : string) :
  map fst (addParentId acc p id)
  = if Js.arrayIncludes (map fst acc) p then map fst acc else (map fst acc ++ [p])%list.
Proof.
  induction acc as [|[k ids] acc IH]; [done|].
  cbn [addParentId map fst]. unfold Js.arrayIncludes in *. cbn [existsb].
  rewrite (String.eqb_sym p k). destruct (String.eqb k p); [done|].
  cbn [map fst orb]. rewrite IH. by destruct (existsb (String.eqb p) (map fst acc)).
Qed.

Lemma addParentId_wellGrouped (acc : list (string * list string)) (p id : string) :
  wellGrouped acc -> wellGrouped (addParentId acc p id).
Proof.
  intros [Hkeys Hsets]. split.
  - rewrite addParentId_keys. destruct (Js.arrayIncludes (map fst acc) p) eqn:E; [done|].
    apply NoDup_app. split; [done|]. split; [|apply NoDup_singleton].
    intros x Hx ->%list_elem_of_singleton.
    apply arrayIncludes_spec in Hx. congruence.
  - clear Hkeys. induction Hsets as [|[k ids] acc [Hne Hnd] Htail IH]; cbn [addParentId].
    + constructor; [|constructor]. split; [done | apply NoDup_singleton].
    + destruct (String.eqb k p).
      * constructor; [|done]. cbn [snd] in *.
        destruct (Js.arrayIncludes ids id) eqn:E; [done|]. split; [by destruct ids|].
        apply NoDup_app. split; [done|]. split; [|apply NoDup_singleton].
        intros x Hx ->%list_elem_of_singleton.
        apply arrayIncludes_spec in Hx. congruence.
      * by constructor.
Qed.

Lemma collectedUnder_cons k ids acc p id :
  collectedUnder ((k, ids) :: acc) p id <-> (k = p /\ id ∈ ids) \/ collectedUnder acc p id.
Proof.
  unfold collectedUnder. split.
  - intros (ids' & [[= <- <-] | Hin]%elem_of_cons & Hid); [by left | right; eauto].
  - intros [[-> Hid] | (ids' & Hin & Hid)].
    + exists ids. split; [apply list_elem_of_here | done].
    + exists ids'. split; [by apply list_elem_of_further | done].
Qed.

Lemma addParentId_collects (acc : list (string * list string)) (p id p' id' : string) :
  collectedUnder (addParentId acc p id) p' id'
  <-> collectedUnder acc p' id' \/ (p' = p /\ id' = id).
Proof.
  induction acc as [|[k ids] acc IH]; cbn [addParentId].
  - rewrite collectedUnder_cons, list_elem_of_singleton. unfold collectedUnder.
    split.
    + intros [[-> ->] | (ids & Hin%elem_of_nil & _)]; [by right | done].
    + intros [(ids & Hin%elem_of_nil & _) | [-> ->]]; [done | by left].
  - destruct (String.eqb_spec k p) as [-> | Hne].
    + rewrite !collectedUnder_cons.
      assert (Hmem : id' ∈ (if Js.arrayIncludes ids id then ids else (ids ++ [id])%list)
                     <-> id' ∈ ids \/ id' = id).
      { destruct (Js.arrayIncludes ids id) eqn:E.
        - apply arrayIncludes_spec in E. split; [auto | by intros [? | ->]].
        - by rewrite elem_of_app, list_elem_of_singleton. }
      rewrite Hmem. split.
      * intros [[-> [? | ->]] | ?]; auto.
      * intros [[[-> ?] | ?] | [-> ->]]; auto.
    + rewrite !collectedUnder_cons, IH. split.
      * intros [? | [? | ?]]; auto.
      * intros [[? | ?] | ?]; auto.
Qed.

Lemma collectParentIds_inner (refs : list Field) (rec : jsobj)
    (acc : list (string * list string)) :
  wellGrouped acc ->
  let acc' :=
    foldl (fun acc ref =>
             let parentObject := hd "" (field_referenceTo ref) in
             match getPropOr rec (field_name ref) with
             | JStr parentId =>
                 if nonEmpty parentId && nonEmpty parentObject
                 then addParentId acc parentObject parentId
                 else acc
             | _ => acc
             end) acc refs in
  wellGrouped acc'
  /\ forall p id, collectedUnder acc' p id
                  <-> collectedUnder acc p id
                      \/ (p <> "" /\ id <> "" /\ references refs rec p id).
Proof.
  revert acc. induction refs as [|ref refs IH]; intros acc Hgood; cbn [foldl].
  - split; [done|]. intros p id. split; [auto|].
    intros [? | (_ & _ & ref & Hin%elem_of_nil & _)]; done.
  - match goal with |- context [foldl ?f ?a refs] =>
      assert (Hstep : wellGrouped a
                      /\ forall p id, collectedUnder a p id
                           <-> collectedUnder acc p id
                               \/ (p <> "" /\ id <> "" /\ references [ref] rec p id)) end.
    { destruct (getPropOr rec (field_name ref)) as [| | | |parentId| | |] eqn:Hval;
        try (split; [done|]; intros p id; split; [auto|];
             intros [? | (_ & _ & r & ->%list_elem_of_singleton & _ & Hr)]; [done|congruence]).
      destruct (nonEmpty parentId && nonEmpty (hd "" (field_referenceTo ref))) eqn:Hne.
      - split; [by apply addParentId_wellGrouped|]. intros p id.
        rewrite addParentId_collects.
        apply andb_true_iff in Hne as [Hid Hp]. unfold nonEmpty in Hid, Hp.
        apply negb_true_iff, String.eqb_neq in Hid, Hp.
        split.
        + intros [? | [-> ->]]; [by left|]. right. split; [done|]. split; [done|].
          exists ref. by rewrite list_elem_of_singleton.
        + intros [? | (_ & _ & r & ->%list_elem_of_singleton & <- & Hr)]; [by left|].
          right. split; [done|]. congruence.
      - split; [done|]. intros p id. split; [auto|].
        intros [? | (Hp & Hid & r & ->%list_elem_of_singleton & <- & Hr)]; [done|].
        rewrite Hval in Hr. injection Hr as ->.
        unfold nonEmpty in Hne. apply String.eqb_neq in Hp, Hid. by rewrite Hp, Hid in Hne. }
    destruct Hstep as [Hgood1 Hcol1].
    destruct (IH _ Hgood1) as [Hgood2 Hcol2]. split; [done|].
    intros p id. rewrite Hcol2, Hcol1. unfold references. split.
    + intros [[? | (? & ? & r & ->%list_elem_of_singleton & ?)] | (? & ? & r & ? & ?)].
      * by left.
      * right. split; [done|]. split; [done|]. exists ref.
        split; [apply list_elem_of_here | done].
      * right. split; [done|]. split; [done|]. exists r.
        split; [by apply list_elem_of_further | done].
    + intros [? | (? & ? & r & [-> | ?]%elem_of_cons & ?)].
      * by left; left.
      * left. right. split; [done|]. split; [done|]. exists ref.
        split; [apply list_elem_of_here | done].
      * right. split; [done|]. split; [done|]. by exists r.
Qed.

(** X11. The parent ids collected from a batch: the parent types are
    distinct, each with a non-empty set of ids without repetition; and an
    id is collected under a parent type exactly when both are non-empty
    and some record of the batch holds that id, as a string, in a reference
    field whose first target is that type. *)
Theorem collected_parent_ids (referenceFields : list Field) (batch : list jsobj) :
  wellGrouped (collectParentIds referenceFields batch)
  /\ forall parentObject parentId,
       collectedUnder (collectParentIds referenceFields batch) parentObject parentId
       <-> parentObject <> "" /\ parentId <> ""
           /\ exists rec, rec ∈ batch /\ references referenceFields rec parentObject parentId.
Proof.
  unfold collectParentIds.
  assert (Hgen : forall acc, wellGrouped acc ->
    let acc' := foldl (fun acc rec =>
                  foldl (fun acc ref =>
                           let parentObject := hd "" (field_referenceTo ref) in
                           match getPropOr rec (field_name ref) with
                           | JStr parentId =>
                               if nonEmpty parentId && nonEmpty parentObject
                               then addParentId acc parentObject parentId
                               else acc
                           | _ => acc
                           end) acc referenceFields) acc batch in
    wellGrouped acc'
    /\ forall p id, collectedUnder acc' p id
         <-> collectedUnder acc p id
             \/ (p <> "" /\ id <> ""
                 /\ exists rec, rec ∈ batch /\ references referenceFields rec p id)).
  { induction batch as [|rec batch IH]; intros acc Hgood; cbn [foldl].
    - split; [done|]. intros p id. split; [auto|].
      intros [? | (_ & _ & rec & Hin%elem_of_nil & _)]; done.
    - destruct (collectParentIds_inner referenceFields rec acc Hgood) as [Hgood1 Hcol1].
      destruct (IH _ Hgood1) as [Hgood2 Hcol2]. split; [done|].
      intros p id. rewrite Hcol2, Hcol1. split.
      + intros [[? | (? & ? & ?)] | (? & ? & r & ? & ?)].
        * by left.
        * right. split; [done|]. split; [done|]. exists rec.
          split; [apply list_elem_of_here | done].
        * right. split; [done|]. split; [done|]. exists r.
          split; [by apply list_elem_of_further | done].
      + intros [? | (? & ? & r & [-> | ?]%elem_of_cons & ?)].
        * by left; left.
        * by left; right.
        * right. split; [done|]. split; [done|]. by exists r. }
  destruct (Hgen []) as [Hgood Hcol].
  { split; [constructor | constructor]. }
  split; [done|]. intros p id. rewrite Hcol. split; [|auto].
  intros [(ids & Hin%elem_of_nil & _) | ?]; done.
Qed.

Lemma collected_parent_ids_witness :
  collectedUnder
    (collectParentIds (referenceFieldsOf Demo.contactSchema) [Demo.contact "Ng" "001A"])
    "Account" "001A".
Proof.
  apply (collected_parent_ids (referenceFieldsOf Demo.contactSchema)
           [Demo.contact "Ng" "001A"]).
  split; [discriminate|]. split; [discriminate|].
  exists (Demo.contact "Ng" "001A"). split; [apply list_elem_of_here|].
  unfold references. eexists. split; [apply list_elem_of_here|]. split; reflexivity.
Defined.

(** ** One entity type: edge cases of the pipeline *)

(** X12. When the extraction query returns no record the entity type's
    transfer stops there: its two calls are the describe and the query,
    nothing is written and the result is untouched. *)
Theorem empty_extraction_writes_nothing {World : Type} (JSON_stringify : jsval -> string)
    (remote : RemoteApi World) (objectType : string) (options : DataTransferOptions)
    (s : EngineState World) (src tgt : SalesforceRestClient) (w1 w2 : World)
    (metadata : DescribeResult) :
  connectedTo src tgt s ->
  remote_describe remote src objectType (world s) = (w1, Ok metadata) ->
  remote_query remote src (extractionQuery objectType options metadata) w1 = (w2, Ok []) ->
  transferObjectRecords JSON_stringify remote objectType options s
  = (mkState w2
       (trace s ++ [EvDescribe Source objectType (Ok metadata);
                    EvQuery Source (extractionQuery objectType options metadata) (Ok [])])
       (sourceConn s) (targetConn s) (result s) (idMapping s),
     Ok tt).
Proof.
  intros [Hs Ht] Hd Hq. destruct s as [w0 tr sc tc res im].
  cbn [sourceConn targetConn world trace result idMapping] in *. subst sc tc.
  unfold transferObjectRecords. cbn [sourceConn targetConn].
  unfold transferObjectRecordsBody. rewrite tryCatch_bind.
  unfold describe at 1, logged at 1. cbn [world trace]. rewrite Hd. rewrite tryCatch_bind.
  unfold query at 1, logged at 1. cbn [world trace]. rewrite Hq.
  unfold tryCatch, ret. rewrite <- app_assoc. reflexivity.
Qed.

Lemma empty_extraction_writes_nothing_witness :
  transferObjectRecords Demo.JSON_stringify (Demo.remote [] []) "Contact"
    (Demo.options ["Contact"] true 2 None Insert) Demo.state
  = (mkState 0%nat
       [EvDescribe Source "Contact" (Ok Demo.contactSchema);
        EvQuery Source "SELECT LastName, AccountId, Notes__pc, Account FROM Contact" (Ok [])]
       (Some Demo.sourceClient) (Some Demo.targetClient) freshResult ∅,
     Ok tt).
Proof.
  apply (empty_extraction_writes_nothing Demo.JSON_stringify (Demo.remote [] []) "Contact"
           (Demo.options ["Contact"] true 2 None Insert) Demo.state
           Demo.sourceClient Demo.targetClient 0%nat 0%nat Demo.contactSchema);
    [by split | reflexivity | reflexivity].
Defined.

(** X13. When the source rejects the describe of an entity type, its
    transfer ends after that one call: the failure is pushed as
    ["Error transferring <type>: <message>"], nothing is queried or
    written, and the call returns normally. *)
Theorem describe_failure_is_recorded {World : Type} (JSON_stringify : jsval -> string)
    (remote : RemoteApi World) (objectType : string) (options : DataTransferOptions)
    (s : EngineState World) (src tgt : SalesforceRestClient) (w1 : World) (e : jsval) :
  connectedTo src tgt s ->
  remote_describe remote src objectType (world s) = (w1, Throw e) ->
  transferObjectRecords JSON_stringify remote objectType options s
  = (mkState w1
       (trace s ++ [EvDescribe Source objectType (Throw e)])
       (sourceConn s) (targetConn s)
       (mkResult (success (result s)) (recordsTransferred (result s))
                 (errors (result s)
                  ++ ["Error transferring " +:+ objectType +:+ ": "
                      +:+ stringifyErrors JSON_stringify e]))
       (idMapping s),
     Ok tt).
Proof.
  intros [Hs Ht] Hd. destruct s as [w0 tr sc tc res im].
  cbn [sourceConn targetConn world trace result idMapping] in *. subst sc tc.
  unfold transferObjectRecords. cbn [sourceConn targetConn].
  unfold transferObjectRecordsBody. rewrite tryCatch_bind.
  unfold describe at 1, logged at 1. cbn [world trace]. rewrite Hd. reflexivity.
Qed.

Lemma describe_failure_is_recorded_witness :
  transferObjectRecords Demo.JSON_stringify (Demo.remote Demo.fiveContacts []) "Missing__c"
    (Demo.options ["Missing__c"] false 2 None Insert) Demo.state
  = (mkState 0%nat
       [EvDescribe Source "Missing__c" (Throw Demo.notFound)]
       (Some Demo.sourceClient) (Some Demo.targetClient)
       (mkResult false 0
          ["Error transferring Missing__c: Salesforce API error: 404 Not Found - []"])
       ∅,
     Ok tt).
Proof.
  apply (describe_failure_is_recorded Demo.JSON_stringify (Demo.remote Demo.fiveContacts [])
           "Missing__c" (Demo.options ["Missing__c"] false 2 None Insert) Demo.state
           Demo.sourceClient Demo.targetClient 0%nat Demo.notFound);
    [by split | reflexivity].
Defined.

(** X14. With relationships off, a create the target rejects ends the
    entity type's transfer: the rejected batch is the last call, the later
    batches are not sent, one ["Error transferring <type>: <message>"] is
    pushed and [recordsTransferred] stays as it was. *)
Theorem rejected_create_ends_the_entity_type {World : Type}
    (JSON_stringify : jsval -> string) (remote : RemoteApi World) (objectType : string)
    (options : DataTransferOptions) (s : EngineState World)
    (src tgt : SalesforceRestClient) (w1 w2 w3 : World) (metadata : DescribeResult)
    (record : jsobj) (records : list jsobj) (e : jsval) :
  connectedTo src tgt s ->
  includeRelationships options = false ->
  remote_describe remote src objectType (world s) = (w1, Ok metadata) ->
  remote_query remote src (extractionQuery objectType options metadata) w1
    = (w2, Ok (record :: records)) ->
  let firstBatch := map cleanRecord (take (effectiveBatchSize options) (record :: records)) in
  remote_create remote tgt (createRequest objectType firstBatch) w2 = (w3, Throw e) ->
  transferObjectRecords JSON_stringify remote objectType options s
  = (mkState w3
       (trace s ++ [EvDescribe Source objectType (Ok metadata);
                    EvQuery Source (extractionQuery objectType options metadata)
                            (Ok (record :: records));
                    EvCreate Target objectType firstBatch (Throw e)])
       (sourceConn s) (targetConn s)
       (mkResult (success (result s)) (recordsTransferred (result s))
                 (errors (result s)
                  ++ ["Error transferring " +:+ objectType +:+ ": "
                      +:+ stringifyErrors JSON_stringify e]))
       (idMapping s),
     Ok tt).
Proof.
  intros [Hs Ht] Hrel Hd Hq firstBatch Hc. destruct s as [w0 tr sc tc res im].
  cbn [sourceConn targetConn world trace result idMapping] in *. subst sc tc.
  unfold transferObjectRecords. cbn [sourceConn targetConn].
  unfold transferObjectRecordsBody. rewrite tryCatch_bind.
  unfold describe at 1, logged at 1. cbn [world trace]. rewrite Hd. rewrite tryCatch_bind.
  unfold query at 1, logged at 1. cbn [world trace]. rewrite Hq.
  unfold slices. cbn [length slicesFrom Nat.ltb Nat.leb drop forEach].
  rewrite tryCatch_bind. unfold transferBatch at 1. rewrite Hrel.
  unfold bind at 1, ret at 1, bind at 1, create at 1, logged at 1. cbn [world trace].
  fold firstBatch. rewrite Hc. unfold pushError, withResult.
  cbn [world trace sourceConn targetConn result idMapping success recordsTransferred errors].
  rewrite <- !app_assoc. reflexivity.
Qed.

Lemma rejected_create_ends_the_entity_type_witness :
  exists s',
    transferObjectRecords Demo.JSON_stringify (Demo.rejecting Demo.fiveContacts) "Contact"
      (Demo.options ["Contact"] false 2 None Insert) Demo.state = (s', Ok tt)
    /\ length (trace s') = 3%nat
    /\ result s'
       = mkResult false 0
           ["Error transferring Contact: Salesforce API error: 400 Bad Request - INVALID_FIELD"].
Proof.
  eexists. split; [|split].
  - apply (rejected_create_ends_the_entity_type Demo.JSON_stringify
             (Demo.rejecting Demo.fiveContacts) "Contact"
             (Demo.options ["Contact"] false 2 None Insert) Demo.state
             Demo.sourceClient Demo.targetClient 0%nat 0%nat 0%nat Demo.contactSchema
             (Demo.contact "Ada" "001A")
             [Demo.contact "Bob" "001A"; Demo.contact "Cy" "001A";
              Demo.contact "Di" "001A"; Demo.contact "Ed" "001A"] Demo.badRequest);
      [by split | reflexivity | reflexivity | reflexivity | reflexivity].
  - reflexivity.
  - reflexivity.
Defined.

(** ** Accounting for the results of a create *)

Lemma filter_split_length {A : Type} (f : A -> bool) (l : list A) :
  (length (List.filter f l) + length (List.filter (fun x => negb (f x)) l) = length l)%nat.
Proof. induction l as [|x l IH]; simpl; [done|]. destruct (f x); simpl; lia. Qed.

(** X15. Handling the answer of a create accounts for every save result
    exactly once: the successful ones are added to [recordsTransferred],
    each failed one pushes one ["<type>: <errors>"] entry, in order, and no
    call is issued. *)
Theorem every_save_result_is_accounted_for {World : Type}
    (JSON_stringify : jsval -> string) (objectType : string)
    (insertResult : CreateResponse) (s : EngineState World) :
  let results := match insertResult with RespArray rs => rs | RespSingle r => [r] end in
  let failures := List.filter (fun r => negb (save_success r)) results in
  exists s',
    handleInsertResult JSON_stringify objectType insertResult s = (s', Ok tt)
    /\ trace s' = trace s /\ world s' = world s
    /\ recordsTransferred (result s')
       = (recordsTransferred (result s) + length (List.filter save_success results))%nat
    /\ errors (result s')
       = (errors (result s)
          ++ map (fun r => recordError JSON_stringify objectType (save_errors r)) failures)%list
    /\ (length (List.filter save_success results) + length failures = length results)%nat.
Proof.
  intros results failures.
  assert (Hsplit : (length (List.filter save_success results) + length failures
                    = length results)%nat) by apply filter_split_length.
  destruct insertResult as [r | rs]; simpl in *.
  - subst failures results. cbn [List.filter length map] in *.
    destruct (save_success r); (eexists; split; [reflexivity|]);
      cbn [negb length map trace world result recordsTransferred errors];
      rewrite ?app_nil_r; repeat split; lia.
  - unfold bind at 1. simpl.
    match goal with |- context [forEach ?l ?f ?s0] =>
      destruct (forEach_pushError_errors l
                  (fun failure => recordError JSON_stringify objectType (save_errors failure)) s0)
        as (s' & E & Hw & Ht & Hm & Hsc & Htc & Hsu & Hn & He) end.
    exists s'. rewrite E. simpl in *. repeat split; done.
Qed.

(** ** A run without anything to transfer *)

(** X16. A run that is given neither a custom query (blank counts as none)
    nor a list of object types fails inside its [try]: it issues no call
    and returns [success = false] with the one error
    ["Transfer failed: Error: No object types provided for transfer"]. *)
Theorem run_without_object_types {World : Type} (JSON_stringify : jsval -> string)
    (remote : RemoteApi World) (options : DataTransferOptions) (s : EngineState World)
    (src tgt : SalesforceRestClient) :
  connectedTo src tgt s ->
  customQueryGiven options = None ->
  objectTypes options = None ->
  exists s',
    transferData JSON_stringify remote options s
      = (s', Ok {| success := false;
                   recordsTransferred := 0;
                   errors := ["Transfer failed: Error: No object types provided for transfer"] |})
    /\ trace s' = trace s /\ world s' = world s.
Proof.
  intros Hc Hq Ho.
  rewrite (transferData_connected JSON_stringify remote options src tgt s Hc), Hq, Ho.
  eexists. split; [reflexivity|]. done.
Qed.

Lemma run_without_object_types_witness :
  exists s',
    transferData Demo.JSON_stringify (Demo.remote Demo.fiveContacts [])
      (Demo.queryOptions "   ") Demo.state
      = (s', Ok {| success := false;
                   recordsTransferred := 0;
                   errors := ["Transfer failed: Error: No object types provided for transfer"] |})
    /\ trace s' = trace Demo.state /\ world s' = world Demo.state.
Proof.
  apply (run_without_object_types Demo.JSON_stringify (Demo.remote Demo.fiveContacts [])
           (Demo.queryOptions "   ") Demo.state Demo.sourceClient Demo.targetClient);
    [by split | reflexivity | reflexivity].
Defined.

(** ** Connections *)

Lemma length_append_string (a b : string) :
  String.length (a +:+ b) = (String.length a + String.length b)%nat.
Proof. induction a as [|c a IH]; [done|]. rewrite append_cons. simpl. by rewrite IH. Qed.

Lemma substring_append (a b : string) :
  String.substring 0 (String.length a) (a +:+ b) = a.
Proof.
  induction a as [|c a IH].
  - rewrite append_nil_l. by destruct b.
  - rewrite append_cons. simpl. by rewrite IH.
Qed.

(** X17. The client drops one trailing slash of the instance URL: built
    from a URL that does not end in a slash, or from that URL followed by
    one slash, it is the same client, with that URL. *)
Theorem client_ignores_one_trailing_slash (url token : string) :
  Js.endsWith url "/" = false ->
  newClient (url +:+ "/") token = newClient url token
  /\ instanceUrl (newClient url token) = url.
Proof.
  intros Hno. unfold newClient. rewrite Hno.
  assert (Js.endsWith (url +:+ "/") "/" = true) as -> by (apply endsWith_spec; by exists url).
  split; [|done]. f_equal.
  rewrite length_append_string. replace (String.length url + String.length "/" - 1)%nat
    with (String.length url) by (simpl; lia).
  apply substring_append.
Qed.

Lemma client_ignores_one_trailing_slash_witness :
  newClient ("https://source.example" +:+ "/") "s-token"
    = newClient "https://source.example" "s-token"
  /\ instanceUrl (newClient "https://source.example" "s-token") = "https://source.example".
Proof. apply client_ignores_one_trailing_slash. reflexivity. Defined.

(** X18. Without an access token for both orgs (a missing or an empty
    token) [initializeConnections] throws
    ["Failed to initialize Salesforce connections: Error: Access tokens are required for both source and target orgs"]
    and does nothing else: no call is issued and the connection slots keep
    what they held. *)
Theorem missing_token_aborts_initialization {World : Type} (remote : RemoteApi World)
    (sourceOrg targetOrg : SalesforceOrg) (s : EngineState World) :
  tokenPresent sourceOrg = false \/ tokenPresent targetOrg = false ->
  initializeConnections remote sourceOrg targetOrg s
  = (s, Throw (newError "Failed to initialize Salesforce connections: Error: Access tokens are required for both source and target orgs")).
Proof.
  intros H. unfold initializeConnections.
  assert (tokenPresent sourceOrg && tokenPresent targetOrg = false) as ->.
  { destruct H as [-> | ->]; [done | apply andb_false_r]. }
  reflexivity.
Qed.

Lemma missing_token_aborts_initialization_witness :
  initializeConnections (Demo.remote [] []) (mkOrg "https://source.example" (Some ""))
    (mkOrg "https://target.example" (Some "t-token")) Demo.state
  = (Demo.state,
     Throw (newError "Failed to initialize Salesforce connections: Error: Access tokens are required for both source and target orgs")).
Proof. apply missing_token_aborts_initialization. left. reflexivity. Defined.

(** X19. With both tokens present [initializeConnections] assigns both
    connection slots before it pings: they hold the two new clients
    afterwards whatever the pings answer.  The source is pinged first; a
    failed ping is rethrown as
    ["Failed to initialize Salesforce connections: <error>"] and no further
    ping is sent. *)
Theorem connections_are_set_before_the_ping {World : Type} (remote : RemoteApi World)
    (sourceOrg targetOrg : SalesforceOrg) (s : EngineState World) :
  tokenPresent sourceOrg = true ->
  tokenPresent targetOrg = true ->
  let src := newClient (org_instanceUrl sourceOrg) (default "" (org_accessToken sourceOrg)) in
  let tgt := newClient (org_instanceUrl targetOrg) (default "" (org_accessToken targetOrg)) in
  let '(s', r) := initializeConnections remote sourceOrg targetOrg s in
  connectedTo src tgt s' /\ result s' = result s
  /\ match remote_identity remote src (world s) with
     | (w1, Throw e) =>
         r = Throw (newError ("Failed to initialize Salesforce connections: " +:+ js_String e))
         /\ trace s' = (trace s ++ [EvIdentity Source (Throw e)])%list
     | (w1, Ok u) =>
         match remote_identity remote tgt w1 with
         | (w2, Throw e) =>
             r = Throw (newError ("Failed to initialize Salesforce connections: "
                                  +:+ js_String e))
             /\ trace s' = (trace s ++ [EvIdentity Source (Ok u);
                                        EvIdentity Target (Throw e)])%list
         | (w2, Ok u') =>
             r = Ok tt
             /\ trace s' = (trace s ++ [EvIdentity Source (Ok u); EvIdentity Target (Ok u')])%list
         end
     end.
Proof.
  intros Hs Ht src tgt. unfold initializeConnections. rewrite Hs, Ht. cbn [andb].
  cbv zeta. subst src tgt.
  set (src := newClient (org_instanceUrl sourceOrg) _).
  set (tgt := newClient (org_instanceUrl targetOrg) _).
  unfold tryCatch, bind, setSourceConn, setTargetConn, identity, logged.
  cbn [world trace sourceConn targetConn result idMapping].
  destruct (remote_identity remote src (world s)) as [w1 [[]|e]]; [|done].
  cbn [world trace sourceConn targetConn result idMapping].
  destruct (remote_identity remote tgt w1) as [w2 [[]|e]];
    cbn [world trace sourceConn targetConn result idMapping throw connectedTo];
    rewrite <- app_assoc; done.
Qed.

Lemma connections_are_set_before_the_ping_witness :
  let '(s', r) :=
    initializeConnections (Demo.remote [] []) (mkOrg "https://source.example/" (Some "s-token"))
      (mkOrg "https://target.example" (Some "t-token"))
      (mkState 0%nat [] None None freshResult ∅) in
  connectedTo Demo.sourceClient Demo.targetClient s' /\ r = Ok tt.
Proof.
  pose proof (connections_are_set_before_the_ping (Demo.remote [] [])
                (mkOrg "https://source.example/" (Some "s-token"))
                (mkOrg "https://target.example" (Some "t-token"))
                (mkState 0%nat [] None None freshResult ∅) eq_refl eq_refl) as H.
  cbv zeta in H.
  destruct (initializeConnections _ _ _ _) as [s' r].
  destruct H as (Hc & _ & Hr & _). split; [exact Hc | exact Hr].
Defined.

(** ** Relationship analysis *)

Lemma mapSet_keys (m : list (string * list string)) (key : string) (value : list string) :
  forall k, k ∈ map fst (mapSet m key value) <-> k ∈ map fst m \/ k = key.
Proof.
  induction m as [|[k0 v0] m IH]; intros k; cbn [mapSet map fst].
  - rewrite list_elem_of_singleton. split; [by right | intros [H|H]; [by inversion H | done]].
  - destruct (String.eqb k0 key) eqn:E; cbn [map fst].
    + apply String.eqb_eq in E. subst k0. rewrite elem_of_cons. tauto.
    + rewrite !elem_of_cons, IH. tauto.
Qed.

Lemma mapSet_NoDup (m : list (string * list string)) (key : string) (value : list string) :
  NoDup (map fst m) -> NoDup (map fst (mapSet m key value)).
Proof.
  induction m as [|[k0 v0] m IH]; intros Hnd; cbn [mapSet map fst].
  - apply NoDup_singleton.
  - cbn [map fst] in Hnd. apply NoDup_cons in Hnd as [Hnotin Hnd].
    destruct (String.eqb k0 key) eqn:E; cbn [map fst].
    + by apply NoDup_cons.
    + apply NoDup_cons. split; [|by apply IH].
      rewrite mapSet_keys. intros [H | ->]; [done|].
      by rewrite String.eqb_refl in E.
Qed.

Lemma mapSet_elem (m : list (string * list string)) (key : string) (value : list string) :
  forall entry, entry ∈ mapSet m key value -> entry ∈ m \/ entry = (key, value).
Proof.
  induction m as [|[k0 v0] m IH]; intros entry; cbn [mapSet].
  - rewrite list_elem_of_singleton. by right.
  - destruct (String.eqb k0 key) eqn:E.
    + apply String.eqb_eq in E. subst k0. rewrite !elem_of_cons.
      intros [-> | H]; [by right | left; by right].
    + rewrite !elem_of_cons. intros [-> | H]; [by left; left|].
      destruct (IH _ H) as [? | ?]; [left; by right | by right].
Qed.

Lemma relatedObjectsOf_listed (objectTypes : list string) (metadata : DescribeResult) :
  forall ref, ref ∈ relatedObjectsOf objectTypes metadata -> ref ∈ objectTypes.
Proof.
  intros ref H. unfold relatedObjectsOf in H.
  apply list_elem_of_In, filter_In in H as [_ H].
  apply andb_true_iff in H as [_ H]. unfold Js.arrayIncludes in H.
  apply existsb_exists in H as (x & Hin & Heq). apply String.eqb_eq in Heq. subst x.
  by apply list_elem_of_In.
Qed.

Lemma analyzeLoop_returned {World : Type} (remote : RemoteApi World)
    (src : SalesforceRestClient) (objectTypes : list string) :
  forall remaining relationships s s' found,
    analyzeLoop remote src objectTypes remaining relationships s = (s', Ok found) ->
    (forall t, t ∈ remaining -> t ∈ objectTypes) ->
    NoDup (map fst relationships) ->
    (forall t related, (t, related) ∈ relationships ->
       t ∈ objectTypes /\ related <> [] /\ forall r, r ∈ related -> r ∈ objectTypes) ->
    NoDup (map fst found)
    /\ (forall t related, (t, related) ∈ found ->
          t ∈ objectTypes /\ related <> [] /\ forall r, r ∈ related -> r ∈ objectTypes)
    /\ sourceConn s' = sourceConn s /\ targetConn s' = targetConn s
    /\ result s' = result s /\ idMapping s' = idMapping s
    /\ exists answers, length answers = length remaining
         /\ trace s' = (trace s ++ zip_with (fun t md => EvDescribe Source t (Ok md))
                                            remaining answers)%list.
Proof.
  induction remaining as [|t remaining IH]; intros relationships s s' found Hrun Hsub Hnd Hinv.
  - cbn [analyzeLoop] in Hrun. unfold ret in Hrun. injection Hrun as <- <-.
    do 6 (split; [done|]). exists []. split; [done|]. cbn [zip_with]. by rewrite app_nil_r.
  - cbn [analyzeLoop] in Hrun. unfold bind at 1, describe, logged in Hrun.
    destruct (remote_describe remote src t (world s)) as [w1 [md|e]]; [|done].
    apply IH in Hrun.
    + destruct Hrun as (H1 & H2 & H3 & H4 & H5 & H6 & answers & Hlen & Htr).
      cbn [sourceConn targetConn result idMapping trace] in *.
      do 6 (split; [done|]).
      exists (md :: answers). split; [cbn [length]; by rewrite Hlen|].
      rewrite Htr. cbn [zip_with]. by rewrite <- app_assoc.
    + intros t' H. apply Hsub. by right.
    + destruct (relatedObjectsOf objectTypes md); [done | by apply mapSet_NoDup].
    + intros t' related H.
      destruct (relatedObjectsOf objectTypes md) as [|r0 rs] eqn:E; [by apply Hinv|].
      apply mapSet_elem in H as [H | H]; [by apply Hinv|].
      injection H as -> ->. split; [apply Hsub; by left|]. split; [done|].
      intros r Hr. apply (relatedObjectsOf_listed objectTypes md). by rewrite E.
Qed.

Lemma analyzeLoop_thrown {World : Type} (remote : RemoteApi World)
    (src : SalesforceRestClient) (objectTypes : list string) :
  forall remaining relationships s s' cause,
    analyzeLoop remote src objectTypes remaining relationships s = (s', Throw cause) ->
    exists t earlier, t ∈ remaining
      /\ trace s' = (trace s ++ earlier ++ [EvDescribe Source t (Throw cause)])%list
      /\ Forall (fun ev => isDescribe ev = true) earlier.
Proof.
  induction remaining as [|t remaining IH]; intros relationships s s' cause Hrun.
  - done.
  - cbn [analyzeLoop] in Hrun. unfold bind at 1, describe, logged in Hrun.
    destruct (remote_describe remote src t (world s)) as [w1 [md|e]].
    + apply IH in Hrun as (t' & earlier & Hin & Htr & Hall). cbn [trace] in Htr.
      exists t', (EvDescribe Source t (Ok md) :: earlier).
      split; [by right|]. split; [rewrite Htr; by rewrite <- app_assoc|].
      by constructor.
    + injection Hrun as <- <-. exists t, []. cbn [trace].
      split; [by left|]. split; [done | constructor].
Qed.

(** X20. When [analyzeRelationships] returns, the map has one entry per
    key, every key is one of the given object types, every value is a
    non-empty list of given object types, and the run was exactly one
    successful source describe per given type, in order; the result and the
    Id mapping are untouched. *)
Theorem analysis_stays_within_the_given_types {World : Type} (remote : RemoteApi World)
    (objectTypes : list string) (s s' : EngineState World)
    (relationships : list (string * list string)) :
  analyzeRelationships remote objectTypes s = (s', Ok relationships) ->
  NoDup (map fst relationships)
  /\ (forall t related, (t, related) ∈ relationships ->
        t ∈ objectTypes /\ related <> [] /\ forall r, r ∈ related -> r ∈ objectTypes)
  /\ result s' = result s /\ idMapping s' = idMapping s
  /\ exists answers, length answers = length objectTypes
       /\ trace s' = (trace s ++ zip_with (fun t md => EvDescribe Source t (Ok md))
                                          objectTypes answers)%list.
Proof.
  unfold analyzeRelationships. destruct (sourceConn s) as [src|]; [|done].
  unfold tryCatch.
  destruct (analyzeLoop remote src objectTypes objectTypes [] s) as [s1 [found|e]] eqn:Hrun;
    [|done].
  intros H. injection H as <- <-.
  apply analyzeLoop_returned in Hrun as (H1 & H2 & _ & _ & H5 & H6 & H7);
    [done | done | constructor | by intros ? ? ?%elem_of_nil].
Qed.

Lemma analysis_stays_within_the_given_types_witness :
  NoDup (map fst [("Contact", ["Account"])])
  /\ (forall t related, (t, related) ∈ [("Contact", ["Account"])] ->
        t ∈ ["Contact"; "Account"] /\ related <> []
        /\ forall r, r ∈ related -> r ∈ ["Contact"; "Account"]).
Proof.
  destruct (analysis_stays_within_the_given_types (Demo.remote [] []) ["Contact"; "Account"]
              Demo.state
              (mkState 0%nat
                 [EvDescribe Source "Contact" (Ok Demo.contactSchema);
                  EvDescribe Source "Account" (Ok Demo.accountSchema)]
                 (Some Demo.sourceClient) (Some Demo.targetClient) freshResult ∅)
              [("Contact", ["Account"])] eq_refl) as (H1 & H2 & _).
  split; [exact H1 | exact H2].
Defined.

(** X21. [analyzeRelationships] fails in two ways only.  Without a source
    connection it throws ["Source connection not initialized"] before any
    call.  With one, a thrown error is
    ["Failed to analyze relationships: <cause>"], where the cause is the
    failure of the describe of one of the given types, the last call of
    the run: the first describe that fails ends the analysis. *)
Theorem analysis_failures {World : Type} (remote : RemoteApi World)
    (objectTypes : list string) (s s' : EngineState World) (e : jsval) :
  analyzeRelationships remote objectTypes s = (s', Throw e) ->
  (sourceConn s = None /\ s' = s /\ e = newError "Source connection not initialized")
  \/ (exists t cause earlier,
        t ∈ objectTypes
        /\ e = newError ("Failed to analyze relationships: " +:+ js_String cause)
        /\ trace s' = (trace s ++ earlier ++ [EvDescribe Source t (Throw cause)])%list
        /\ Forall (fun ev => isDescribe ev = true) earlier).
Proof.
  unfold analyzeRelationships. destruct (sourceConn s) as [src|].
  - unfold tryCatch.
    destruct (analyzeLoop remote src objectTypes objectTypes [] s) as [s1 [found|cause]] eqn:Hrun;
      [done|].
    unfold throw. intros H. injection H as <- <-. right.
    apply analyzeLoop_thrown in Hrun as (t & earlier & Hin & Htr & Hall).
    by exists t, cause, earlier.
  - intros H. injection H as <- <-. by left.
Qed.

Lemma analysis_failures_witness :
  exists t cause earlier,
    t ∈ ["Contact"; "Lead"]
    /\ newError ("Failed to analyze relationships: " +:+ js_String Demo.notFound)
       = newError ("Failed to analyze relationships: " +:+ js_String cause)
    /\ [EvDescribe Source "Contact" (Ok Demo.contactSchema);
        EvDescribe Source "Lead" (Throw Demo.notFound)]
       = (earlier ++ [EvDescribe Source t (Throw cause)])%list.
Proof.
  destruct (analysis_failures (Demo.remote [] []) ["Contact"; "Lead"] Demo.state
              (mkState 0%nat
                 [EvDescribe Source "Contact" (Ok Demo.contactSchema);
                  EvDescribe Source "Lead" (Throw Demo.notFound)]
                 (Some Demo.sourceClient) (Some Demo.targetClient) freshResult ∅)
              (newError ("Failed to analyze relationships: " +:+ js_String Demo.notFound))
              eq_refl) as [(Hnone & _) | (t & cause & earlier & Hin & He & Htr & _)].
  - discriminate Hnone.
  - exists t, cause, earlier. split; [exact Hin|]. split; [exact He | exact Htr].
Defined.

(** ** Parent records in insert mode: the answer of the create *)

Lemma slices_single {A : Type} (size : nat) (xs : list A) :
  (0 < length xs <= size)%nat -> slices size xs = [xs].
Proof.
  intros [Hpos Hle]. unfold slices. destruct (length xs) as [|n] eqn:Hlen; [lia|].
  cbn [slicesFrom]. rewrite Hlen.
  assert ((0 <? S n)%nat = true) as -> by (apply Nat.ltb_lt; lia).
  rewrite drop_0, take_ge by lia. f_equal.
  destruct n as [|n]; [done|]. cbn [slicesFrom]. rewrite Hlen.
  assert ((0 + size <? S (S n))%nat = false) as -> by (apply Nat.ltb_ge; lia). done.
Qed.

Lemma mapInserted_from {World : Type} (JSON_stringify : jsval -> string)
    (parentObject : string) (parentRecords : list jsobj) :
  forall (insertResult : list SaveResult) (i : nat) (s : EngineState World),
    (i + length insertResult <= length parentRecords)%nat ->
    exists s',
      mapInserted JSON_stringify parentObject parentRecords i insertResult s = (s', Ok tt)
      /\ world s' = world s /\ trace s' = trace s
      /\ sourceConn s' = sourceConn s /\ targetConn s' = targetConn s
      /\ recordsTransferred (result s') = recordsTransferred (result s)
      /\ errors (result s')
         = (errors (result s)
            ++ map (fun r => "Failed to insert parent " +:+ parentObject +:+ ": "
                             +:+ stringifyErrors JSON_stringify (save_errors r))
                   (List.filter (fun r => negb (saved r)) insertResult))%list
      /\ (forall key, is_Some (idMapping s !! key) -> is_Some (idMapping s' !! key))
      /\ (forall j r p, insertResult !! j = Some r -> saved r = true ->
            parentRecords !! (i + j)%nat = Some p ->
            is_Some (idMapping s' !! js_String (getPropOr p "Id")))
      /\ (forall key v, idMapping s' !! key = Some v ->
            idMapping s !! key = Some v
            \/ exists j r p, insertResult !! j = Some r /\ saved r = true
                 /\ parentRecords !! (i + j)%nat = Some p
                 /\ key = js_String (getPropOr p "Id") /\ v = save_id r).
Proof.
  induction insertResult as [|r rest IH]; intros i s Hlen.
  - exists s. cbn [mapInserted List.filter map]. rewrite app_nil_r.
    do 7 (split; [done|]). split; [done|]. split; [intros j r p Hj; by rewrite lookup_nil in Hj|].
    intros key v H. by left.
  - cbn [length] in Hlen. cbn [mapInserted List.filter]. unfold bind at 1.
    fold (saved r). destruct (saved r) eqn:Hsaved; cbn [negb].
    + destruct (lookup_lt_is_Some_2 parentRecords i ltac:(lia)) as [p Hp]. rewrite Hp.
      unfold setMapping, withMapping.
      set (s1 := mkState _ _ _ _ _ _).
      destruct (IH (S i) s1 ltac:(lia))
        as (s' & Hrun & Hw & Htr & Hsc & Htc & Hn & Herr & Hmono & Hdom & Hval).
      exists s'. split; [exact Hrun|]. do 6 (split; [done|]).
      split; [|split].
      * intros key Hkey. apply Hmono. subst s1. cbn [idMapping].
        rewrite lookup_insert. by destruct (decide _).
      * intros [|j] r' p' Hr' Hs' Hp'.
        -- cbn in Hr'. injection Hr' as <-. rewrite Nat.add_0_r, Hp in Hp'.
           injection Hp' as <-. apply Hmono. subst s1. cbn [idMapping].
           rewrite lookup_insert. by destruct (decide _).
        -- apply (Hdom j r' p'); [done | done |].
           by replace (S i + j)%nat with (i + S j)%nat by lia.
      * intros key v Hkv. destruct (Hval key v Hkv) as [H1 | (j & r' & p' & Hr' & Hs' & Hp' & -> & ->)].
        -- subst s1. cbn [idMapping] in H1. apply lookup_insert_Some in H1 as [[<- <-] | [_ H1]].
           ++ right. exists 0%nat, r, p. by rewrite Nat.add_0_r.
           ++ by left.
        -- right. exists (S j), r', p'. split; [done|]. split; [done|].
           split; [|done]. by replace (i + S j)%nat with (S i + j)%nat by lia.
    + unfold pushError, withResult.
      set (s1 := mkState _ _ _ _ _ _).
      destruct (IH (S i) s1 ltac:(lia))
        as (s' & Hrun & Hw & Htr & Hsc & Htc & Hn & Herr & Hmono & Hdom & Hval).
      exists s'. split; [exact Hrun|]. do 5 (split; [done|]).
      split; [|split; [|split]].
      * rewrite Herr. subst s1. cbn [result errors map]. by rewrite <- app_assoc.
      * exact Hmono.
      * intros [|j] r' p' Hr' Hs' Hp'.
        -- cbn in Hr'. injection Hr' as <-. congruence.
        -- apply (Hdom j r' p'); [done | done |].
           by replace (S i + j)%nat with (i + S j)%nat by lia.
      * intros key v Hkv. destruct (Hval key v Hkv) as [H1 | (j & r' & p' & Hr' & Hs' & Hp' & -> & ->)].
        -- by left.
        -- right. exists (S j), r', p'. split; [done|]. split; [done|].
           split; [|done]. by replace (i + S j)%nat with (S i + j)%nat by lia.
Qed.

(** X22. The results of the parent insert are paired with the fetched
    parents by position.  When there are no more results than parents the
    loop returns, issues no call, and pushes one
    ["Failed to insert parent <object>: ..."] per result that is not a
    success with an id, in order.  Every saved result maps its parent's
    source Id, and every new entry of the Id mapping is the target id of a
    saved result under the source Id of the parent at the same position. *)
Theorem inserted_parents_map_by_position {World : Type} (JSON_stringify : jsval -> string)
    (parentObject : string) (parentRecords : list jsobj) (insertResult : list SaveResult)
    (s : EngineState World) :
  (length insertResult <= length parentRecords)%nat ->
  exists s',
    mapInserted JSON_stringify parentObject parentRecords 0 insertResult s = (s', Ok tt)
    /\ world s' = world s /\ trace s' = trace s
    /\ recordsTransferred (result s') = recordsTransferred (result s)
    /\ errors (result s')
       = (errors (result s)
          ++ map (fun r => "Failed to insert parent " +:+ parentObject +:+ ": "
                           +:+ stringifyErrors JSON_stringify (save_errors r))
                 (List.filter (fun r => negb (saved r)) insertResult))%list
    /\ (forall j r p, insertResult !! j = Some r -> saved r = true ->
          parentRecords !! j = Some p ->
          is_Some (idMapping s' !! js_String (getPropOr p "Id")))
    /\ (forall key v, idMapping s' !! key = Some v ->
          idMapping s !! key = Some v
          \/ exists j r p, insertResult !! j = Some r /\ saved r = true
               /\ parentRecords !! j = Some p
               /\ key = js_String (getPropOr p "Id") /\ v = save_id r).
Proof.
  intros Hlen.
  destruct (mapInserted_from JSON_stringify parentObject parentRecords insertResult 0 s
              ltac:(lia))
    as (s' & Hrun & Hw & Htr & _ & _ & Hn & Herr & _ & Hdom & Hval).
  exists s'. do 5 (split; [done|]). split; [exact Hdom | exact Hval].
Qed.

Lemma inserted_parents_map_by_position_witness :
  exists s',
    mapInserted Demo.JSON_stringify "Account"
      [Demo.account "001A" "Acme" "X-1"; Demo.account "001B" "Bolt" "X-2"] 0
      [Demo.okSave 0; mkSave false JNull (JArr [JStr "DUPLICATE_VALUE"])] Demo.state
    = (s', Ok tt)
    /\ errors (result s') = ["Failed to insert parent Account: DUPLICATE_VALUE"]
    /\ is_Some (idMapping s' !! "001A").
Proof.
  destruct (inserted_parents_map_by_position Demo.JSON_stringify "Account"
              [Demo.account "001A" "Acme" "X-1"; Demo.account "001B" "Bolt" "X-2"]
              [Demo.okSave 0; mkSave false JNull (JArr [JStr "DUPLICATE_VALUE"])] Demo.state
              ltac:(cbn [length]; lia))
    as (s' & Hrun & _ & _ & _ & Herr & Hdom & _).
  exists s'. split; [exact Hrun|]. split; [exact Herr|].
  exact (Hdom 0%nat (Demo.okSave 0) (Demo.account "001A" "Acme" "X-1") eq_refl eq_refl eq_refl).
Defined.

Lemma tryCatch_bind_ok {World A B : Type} (m : @M World A) (k : A -> @M World B)
    (handler : jsval -> @M World B) (s s1 : EngineState World) (a : A) :
  m s = (s1, Ok a) ->
  tryCatch (bind m k) handler s = tryCatch (k a) handler s1.
Proof. intros H. unfold tryCatch, bind. by rewrite H. Qed.

(** X23. In insert mode, when the target answers the parent create with a
    single save result rather than an array (the answer of the
    one-record endpoint), nothing is read from it: the Id mapping and the
    result stay as they were, even if the parent was created, and the call
    returns after its three requests. *)
Theorem single_parent_answer_is_not_mapped {World : Type} (JSON_stringify : jsval -> string)
    (remote : RemoteApi World) (parentObject : string) (parentIds : list string)
    (s : EngineState World) (src tgt : SalesforceRestClient) (w1 w2 w3 : World)
    (parentDescribe : DescribeResult) (parentRecords : list jsobj) (answer : SaveResult) :
  let soql := "SELECT Id, " +:+ Js.join ", " (parentInsertableFields parentDescribe)
              +:+ " FROM " +:+ parentObject
              +:+ " WHERE Id IN (" +:+ quotedIds parentIds +:+ ")" in
  let cleanParents := map (cleanParent parentDescribe) parentRecords in
  connectedTo src tgt s ->
  (0 < length parentIds <= 1000)%nat ->
  remote_describe remote src parentObject (world s) = (w1, Ok parentDescribe) ->
  parentInsertableFields parentDescribe <> [] ->
  remote_query remote src soql w1 = (w2, Ok parentRecords) ->
  parentRecords <> [] ->
  remote_create remote tgt (createRequest parentObject cleanParents) w2
    = (w3, Ok (RespSingle answer)) ->
  handleInsertModeParents JSON_stringify remote parentObject parentIds s
  = (mkState w3
       (trace s ++ [EvDescribe Source parentObject (Ok parentDescribe);
                    EvQuery Source soql (Ok parentRecords);
                    EvCreate Target parentObject cleanParents (Ok (RespSingle answer))])
       (sourceConn s) (targetConn s) (result s) (idMapping s),
     Ok tt).
Proof.
  intros soql cleanParents [Hs Ht] Hlen Hd Hfields Hq Hrecords Hc.
  destruct s as [w0 tr sc tc res im].
  cbn [sourceConn targetConn world trace result idMapping] in *. subst sc tc.
  unfold handleInsertModeParents. cbn [sourceConn targetConn].
  erewrite tryCatch_bind_ok;
    [|unfold describe, logged; cbn [world trace]; rewrite Hd; reflexivity].
  destruct (parentInsertableFields parentDescribe) as [|f fs] eqn:Hf; [done|].
  rewrite slices_single by exact Hlen. cbn [fetchChunks].
  erewrite tryCatch_bind_ok;
    [|unfold bind, query, logged; cbn [world trace]; fold soql; rewrite Hq;
      cbn [app]; reflexivity].
  assert (forall (B : Type) (x y : B),
            match parentRecords with [] => x | _ :: _ => y end = y) as Hmatch
    by (intros B x y; by destruct parentRecords).
  rewrite Hmatch.
  erewrite tryCatch_bind_ok;
    [|unfold create, logged; cbn [world trace]; fold cleanParents; rewrite Hc; reflexivity].
  unfold tryCatch, ret. rewrite <- !app_assoc. reflexivity.
Qed.

Lemma single_parent_answer_is_not_mapped_witness :
  handleInsertModeParents Demo.JSON_stringify (Demo.remote [] []) "Account" ["001A"] Demo.state
  = (mkState 1%nat
       [EvDescribe Source "Account" (Ok Demo.accountSchema);
        EvQuery Source "SELECT Id, Name, Ext__c FROM Account WHERE Id IN ('001A')"
          (Ok [Demo.account "001A" "Acme" "X-1"]);
        EvCreate Target "Account"
          (map (cleanParent Demo.accountSchema) [Demo.account "001A" "Acme" "X-1"])
          (Ok (RespSingle (Demo.okSave 0)))]
       (Some Demo.sourceClient) (Some Demo.targetClient) freshResult ∅,
     Ok tt).
Proof.
  apply (single_parent_answer_is_not_mapped Demo.JSON_stringify (Demo.remote [] []) "Account"
           ["001A"] Demo.state Demo.sourceClient Demo.targetClient 0%nat 0%nat 1%nat
           Demo.accountSchema [Demo.account "001A" "Acme" "X-1"] (Demo.okSave 0)).
  - by split.
  - cbn [length]. lia.
  - reflexivity.
  - discriminate.
  - reflexivity.
  - discriminate.
  - reflexivity.
Defined.

(** ** Parent records in upsert mode *)

(** X24. Upsert-mode resolution composes with the remap of the children:
    once the target answers the lookup of a parent by its external id with
    at least one record, the parent's source Id is mapped to the Id of the
    first record returned, nothing is pushed to the errors, and a child
    whose reference field holds that source Id is written with the target
    Id in that field. *)
Theorem resolved_parent_is_written_to_children {World : Type}
    (JSON_stringify : jsval -> string) (remote : RemoteApi World)
    (tgt : SalesforceRestClient) (parentObject externalIdField : string)
    (parentRecord first : jsobj) (others : list jsobj) (s : EngineState World) (w1 : World) :
  let externalIdValue := getPropOr parentRecord externalIdField in
  let targetQuery := "SELECT Id FROM " +:+ parentObject +:+ " WHERE " +:+ externalIdField
                     +:+ " = '" +:+ escapeQuotes (js_String externalIdValue) +:+ "'" in
  truthy externalIdValue = true ->
  remote_query remote tgt targetQuery (world s) = (w1, Ok (first :: others)) ->
  exists s',
    lookupParent JSON_stringify remote tgt parentObject externalIdField parentRecord s
    = (s', Ok tt)
    /\ trace s' = (trace s ++ [EvQuery Target targetQuery (Ok (first :: others))])%list
    /\ result s' = result s
    /\ idMapping s'
       = <[js_String (getPropOr parentRecord "Id") := getPropOr first "Id"]> (idMapping s)
    /\ forall (referenceFields : list Field) (ref : Field) (original cleaned : jsobj),
         ref ∈ referenceFields ->
         getPropOr original (field_name ref) = getPropOr parentRecord "Id" ->
         truthy (getPropOr parentRecord "Id") = true ->
         truthy (getPropOr first "Id") = true ->
         getProp (remapRecord referenceFields (idMapping s') original cleaned) (field_name ref)
         = Some (getPropOr first "Id").
Proof.
  intros externalIdValue targetQuery Htruthy Hq.
  unfold lookupParent. fold externalIdValue. rewrite Htruthy. cbn [negb].
  fold targetQuery.
  erewrite tryCatch_bind_ok; [|unfold query, logged; rewrite Hq; reflexivity].
  unfold tryCatch, setMapping, withMapping. cbn [world trace sourceConn targetConn result idMapping].
  eexists. split; [reflexivity|]. cbn [world trace sourceConn targetConn result idMapping].
  do 3 (split; [done|]).
  intros referenceFields ref original cleaned Hin Hsame Hsrc Htgt.
  rewrite remapRecord_lookup.
  assert (bool_decide (field_name ref ∈ map field_name referenceFields) = true) as ->.
  { apply bool_decide_eq_true. apply list_elem_of_fmap. by exists ref. }
  rewrite Hsame, Hsrc. unfold idMapGet. rewrite lookup_insert.
  destruct (decide _) as [_|Hne]; [|done]. cbv [default from_option].
  change (id (getPropOr first "Id")) with (getPropOr first "Id"). by rewrite Htgt.
Qed.

Lemma resolved_parent_is_written_to_children_witness :
  exists s',
    lookupParent Demo.JSON_stringify (Demo.remote [] [Demo.account "001T" "Acme" "X-1"])
      Demo.targetClient "Account" "Ext__c" (Demo.account "001A" "Acme" "X-1") Demo.state
    = (s', Ok tt)
    /\ idMapping s' = <[ "001A" := JStr "001T" ]> ∅.
Proof.
  destruct (resolved_parent_is_written_to_children Demo.JSON_stringify
              (Demo.remote [] [Demo.account "001T" "Acme" "X-1"])
              Demo.targetClient "Account" "Ext__c"
              (Demo.account "001A" "Acme" "X-1") (Demo.account "001T" "Acme" "X-1") []
              Demo.state 0%nat eq_refl eq_refl)
    as (s' & Hrun & _ & _ & Hmap & _).
  exists s'. split; [exact Hrun | exact Hmap].
Defined.

(** ** Error texts *)

Lemma uniqueFrom_fresh (l seen : list string) :
  NoDup l -> (forall x, x ∈ l -> x ∉ seen) -> uniqueFrom seen l = l.
Proof.
  revert seen. induction l as [|x l IH]; intros seen Hnd Hfresh; [done|].
  apply NoDup_cons in Hnd as [Hx Hnd]. cbn [uniqueFrom].
  assert (Js.arrayIncludes seen x = false) as ->.
  { unfold Js.arrayIncludes. destruct (existsb (String.eqb x) seen) eqn:E; [|done].
    apply existsb_exists in E as (y & Hin%list_elem_of_In & Heq%String.eqb_eq). subst y.
    exfalso. apply (Hfresh x); [by left | done]. }
  f_equal. apply IH; [done|]. intros y Hy [-> | Hs]%elem_of_cons; [done|].
  apply (Hfresh y); [by right | done].
Qed.

Lemma filter_nonEmpty_all (l : list string) :
  Forall (fun m => m <> "") l -> List.filter nonEmpty l = l.
Proof.
  induction 1 as [|m l Hm _ IH]; [done|]. cbn [List.filter]. rewrite IH.
  unfold nonEmpty. by destruct (String.eqb_spec m "").
Qed.

Lemma filter_nonEmpty_none (l : list string) :
  Forall (fun m => m = "") l -> List.filter nonEmpty l = [].
Proof. induction 1 as [|m l -> _ IH]; [done|]. cbn [List.filter]. by rewrite IH. Qed.

(** X25. An array of distinct non-empty messages is reported as those
    messages joined by ["; "], in their order: no message is dropped and no
    count is appended. *)
Theorem distinct_messages_are_joined (JSON_stringify : jsval -> string)
    (messages : list string) :
  NoDup messages ->
  Forall (fun m => m <> "") messages ->
  stringifyErrors JSON_stringify (JArr (map JStr messages)) = Js.join "; " messages.
Proof.
  intros Hnd Hne. cbn [stringifyErrors]. rewrite map_map. cbn [stringifyErrors].
  rewrite map_id. unfold consolidate. rewrite (filter_nonEmpty_all _ Hne).
  unfold unique. rewrite uniqueFrom_fresh; [|done | by intros x _ ?%elem_of_nil].
  destruct messages as [|m [|m' ms]]; done.
Qed.

Lemma distinct_messages_are_joined_witness :
  stringifyErrors Demo.JSON_stringify
    (JArr (map JStr ["REQUIRED_FIELD_MISSING"; "DUPLICATE_VALUE"]))
  = Js.join "; " ["REQUIRED_FIELD_MISSING"; "DUPLICATE_VALUE"].
Proof.
  apply distinct_messages_are_joined.
  - apply NoDup_cons. split; [by intros ?%list_elem_of_singleton|]. apply NoDup_singleton.
  - repeat constructor; discriminate.
Defined.

(** X26. A failed save whose [errors] is an array of values that all
    stringify to the empty string, the empty array among them, is reported
    as ["<type>: Unknown error"]. *)
Theorem silent_failures_are_unknown_errors (JSON_stringify : jsval -> string)
    (objectType : string) (elems : list jsval) :
  Forall (fun e => stringifyErrors JSON_stringify e = "") elems ->
  recordError JSON_stringify objectType (JArr elems) = objectType +:+ ": Unknown error".
Proof.
  intros Hall. unfold recordError. cbn [stringifyErrors]. unfold consolidate.
  rewrite filter_nonEmpty_none; [done|].
  induction Hall as [|e elems He _ IH]; constructor; done.
Qed.

Lemma silent_failures_are_unknown_errors_witness :
  recordError Demo.JSON_stringify "Contact" (JArr [JStr ""; JArr []])
  = "Contact" +:+ ": Unknown error".
Proof.
  apply silent_failures_are_unknown_errors. repeat constructor.
Defined.
